(** * dadsbot: session recorder, audio bridge and PR script

    A shallow embedding of the three utilities of the repository:

    - [scripts/create-pr.mjs]   (module [CreatePr]),
    - [lib/audio-bridge.ts]     (module [AudioBridge]),
    - [lib/session-recorder.ts] (module [Recorder]).

    JavaScript code that throws, catches and logs is written in a small
    state-and-exception monad; the browser and the process environment are
    explicit arguments. *)

From Stdlib Require Import ZArith Lia Ascii String List.
From Stdlib Require Import Strings.Byte QArith.QArith_base QArith.Qround Lqa.
From stdpp Require Import base option list strings gmap pretty.


(** ** JavaScript values that can be thrown, and the effect monad *)

Module Js.

(** A thrown value is an [Error] instance, with its [name] and [message],
    or some other value, of which only the [String(...)] rendering is
    kept. *)
Inductive thrown : Type :=
| ErrorObj (name message : string)
| NonError (shown : string).

(** [new Error(msg)] *)
Definition Error (msg : string) : thrown := ErrorObj "Error" msg.

(** [e instanceof Error] *)
Definition instanceofError (e : thrown) : bool :=
  match e with ErrorObj _ _ => true | NonError _ => false end.

Inductive outcome (A : Type) : Type :=
| Return (a : A)
| Throw (e : thrown).
Arguments Return {A} a.
Arguments Throw {A} e.

(** Computations over a mutable store [S] that return or throw. *)
Definition M (S A : Type) : Type := S → outcome A * S.

Section Ops.
Context {S : Type}.

Definition ret {A} (a : A) : M S A := λ s, (Return a, s).

Definition bind {A B} (m : M S A) (k : A → M S B) : M S B :=
  λ s, match m s with
       | (Return a, s') => k a s'
       | (Throw e, s') => (Throw e, s')
       end.

Definition throw {A} (e : thrown) : M S A := λ s, (Throw e, s).

(** [try { m } catch (e) { h e }]: the store changes made by [m]
    before it threw are kept. *)
Definition try_catch {A} (m : M S A) (h : thrown → M S A) : M S A :=
  λ s, match m s with
       | (Return a, s') => (Return a, s')
       | (Throw e, s') => h e s'
       end.

Definition get : M S S := λ s, (Return s, s).
Definition modify (f : S → S) : M S unit := λ s, (Return tt, f s).
End Ops.

(** The monad is used through stdpp's notations [x ← m; k] and
    [m ;; k]. *)
Global Instance M_ret {S} : MRet (M S) := λ A a, ret a.
Global Instance M_bind {S} : MBind (M S) := λ A B k m, bind m k.

(** [respects R m]: whatever [m] does to the store, the stores before and
    after are related by [R]. *)
Definition respects {S A} (R : relation S) (m : M S A) : Prop :=
  ∀ s, R s (m s).2.

(** A value the platform hands back: [inl e] when the call throws (or the
    promise rejects), [inr a] when it yields [a]. *)
Definition of_sum {S A} (r : thrown + A) : M S A :=
  match r with inl e => throw e | inr a => ret a end.

(** Truthiness of a string and of a possibly undefined string. *)
Definition truthy_string (s : string) : bool :=
  match s with EmptyString => false | String _ _ => true end.

Definition truthy_opt (o : option string) : bool :=
  match o with Some s => truthy_string s | None => false end.

(** [a || b] on possibly undefined strings. *)
Definition or_else (a : option string) (b : option string) : option string :=
  if truthy_opt a then a else b.

(** Console output: [console.log] or [console.error], the step name and
    the fields of the payload that the callers supply. *)
Inductive level : Type := LLog | LError.

Record entry : Type := Entry {
  e_level : level;
  e_step : string;
  e_detail : list (string * string)
}.

End Js.

Export Js.

(** ** Strings: [trim] and [toLowerCase]

    Strings are sequences of code units below 256 (Latin-1), which is what
    Rocq's [string] holds. *)

Module JsString.

(** ECMAScript WhiteSpace and LineTerminator code points below 256:
    TAB, LF, VT, FF, CR, SP, NBSP. *)
Definition isWhiteSpace (c : ascii) : bool :=
  let n := N_of_ascii c in
  ((n =? 9) || (n =? 10) || (n =? 11) || (n =? 12) || (n =? 13)
   || (n =? 32) || (n =? 160))%N.

Fixpoint trimStart (s : string) : string :=
  match s with
  | EmptyString => EmptyString
  | String c r => if isWhiteSpace c then trimStart r else s
  end.

Fixpoint trimEnd (s : string) : string :=
  match s with
  | EmptyString => EmptyString
  | String c r =>
      match trimEnd r with
      | EmptyString => if isWhiteSpace c then EmptyString else String c EmptyString
      | r' => String c r'
      end
  end.

Definition trim (s : string) : string := trimEnd (trimStart s).

(** Upper-case code units below 256: A-Z and the Latin-1 capitals
    U+00C0..U+00DE except the multiplication sign U+00D7. *)
Definition isUpper (c : ascii) : bool :=
  let n := N_of_ascii c in
  (((65 <=? n) && (n <=? 90))
   || ((192 <=? n) && (n <=? 222) && negb (n =? 215)))%N.

Definition lowerChar (c : ascii) : ascii :=
  if isUpper c then ascii_of_N (N_of_ascii c + 32) else c.

Fixpoint toLowerCase (s : string) : string :=
  match s with
  | EmptyString => EmptyString
  | String c r => String (lowerChar c) (toLowerCase r)
  end.

(** [xs.includes(s)] on an array of strings. *)
Definition includes (xs : list string) (s : string) : bool :=
  existsb (String.eqb s) xs.

(** Two code units are the same letter up to case when they are equal or
    one is the capital of the other. *)
Definition same_letter (c d : ascii) : Prop :=
  c = d
  ∨ (isUpper c = true ∧ N_of_ascii d = (N_of_ascii c + 32)%N)
  ∨ (isUpper d = true ∧ N_of_ascii c = (N_of_ascii d + 32)%N).

(** Case-insensitive equality of strings, letter by letter. *)
Fixpoint eq_ignore_case (a b : string) : Prop :=
  match a, b with
  | EmptyString, EmptyString => True
  | String c a', String d b' => same_letter c d ∧ eq_ignore_case a' b'
  | _, _ => False
  end.

Definition all_lower (s : string) : Prop :=
  Forall (λ c, isUpper c = false) (list_ascii_of_string s).

End JsString.

(** ** scripts/create-pr.mjs *)

Module CreatePr.
Import JsString.

(** [normalizeError(error)]: the name and message that are logged. *)
Definition normalizeError (error : thrown) : list (string * string) :=
  match error with
  | ErrorObj name message => [("name", name); ("message", message)]
  | NonError shown => [("name", "UnknownError"); ("message", shown)]
  end.

(** [log(level, step, payload)] appends one line to the console. *)
Definition log (lv : level) (step : string) (payload : list (string * string))
  : M (list entry) unit :=
  modify (λ out, out ++ [Entry lv step payload]).

Definition placeholders : list string := ["default"; "changeme"; "placeholder"].

(** [requireEnv(name)], reading [process.env]. *)
Definition requireEnv (env : gmap string string) (name : string)
  : M (list entry) string :=
  match env !! name with
  | None =>
      let error := Error ("Missing required environment variable: " +:+ name) in
      log LError "env-missing" (("name", name) :: normalizeError error) ;;
      throw error
  | Some raw =>
      let value := trim raw in
      if (String.length value =? 0)%nat then
        let error := Error ("Environment variable " +:+ name +:+ " is empty") in
        log LError "env-empty" (("name", name) :: normalizeError error) ;;
        throw error
      else
        let lowered := toLowerCase value in
        if includes placeholders lowered then
          let error :=
            Error ("Environment variable " +:+ name
                   +:+ " is using a placeholder value: " +:+ value) in
          log LError "env-placeholder" (("name", name) :: normalizeError error) ;;
          throw error
        else
          log LLog "env-present" [("name", name)] ;;
          mret value
  end.

(** The values [main] reads from the environment before it touches git
    or the network. *)
Record config : Type := Config {
  githubToken : string;
  apiUrl : string;
  owner : string;
  repo : string;
  base : string;
  head : string;
  title : string;
  body : string;
  remote : string;
  isDraft : bool
}.

Definition required_names : list string :=
  ["GITHUB_TOKEN"; "GITHUB_API_URL"; "GIT_REPO_OWNER"; "GIT_REPO_NAME";
   "PR_BASE"; "PR_HEAD"; "PR_TITLE"; "PR_BODY"; "GIT_REMOTE_NAME"].

(** [process.env.PR_DRAFT ? process.env.PR_DRAFT.trim().toLowerCase() : undefined] *)
Definition draftFlag (env : gmap string string) : option string :=
  match env !! "PR_DRAFT" with
  | Some v => if truthy_string v then Some (toLowerCase (trim v)) else None
  | None => None
  end.

Section Main.
(** What [main] does after the environment has been validated (the git
    commands and the GitHub requests) depends on the outside world
    only; it is a parameter here. *)
Variable after_validation : config → M (list entry) unit.

Definition main (argv : list string) (env : gmap string string)
  : M (list entry) unit :=
  log LLog "start" [("argv", String.concat "," argv)] ;;
  githubToken ← requireEnv env "GITHUB_TOKEN";
  apiUrl ← requireEnv env "GITHUB_API_URL";
  owner ← requireEnv env "GIT_REPO_OWNER";
  repo ← requireEnv env "GIT_REPO_NAME";
  base ← requireEnv env "PR_BASE";
  head ← requireEnv env "PR_HEAD";
  title ← requireEnv env "PR_TITLE";
  body ← requireEnv env "PR_BODY";
  remote ← requireEnv env "GIT_REMOTE_NAME";
  let flag := draftFlag env in
  let isDraft := bool_decide (flag = Some "true") in
  log LLog "env-validation-complete" [("requiredEnvCount", "8")] ;;
  after_validation
    (Config githubToken apiUrl owner repo base head title body remote isDraft).

(** [main().catch(error => { log(...); process.exit(1) })]: the exit
    status of the process and what it printed. *)
Definition run (argv : list string) (env : gmap string string)
  : Z * list entry :=
  match main argv env [] with
  | (Return _, out) => (0%Z, out)
  | (Throw error, out) =>
      (1%Z, out ++ [Entry LError "unhandled-failure" (normalizeError error)])
  end.
End Main.

(** The values the validation refuses: nothing set, nothing left after
    trimming, or one of the placeholder words in any mix of cases. *)
Definition rejected (env : gmap string string) (name : string) : Prop :=
  match env !! name with
  | None => True
  | Some raw =>
      trim raw = ""
      ∨ ∃ p, p ∈ placeholders ∧ eq_ignore_case (trim raw) p
  end.

(** A sample environment: a placeholder token and a usable base branch. *)
Definition sample_env : gmap string string :=
  <["GITHUB_TOKEN" := "  ChangeMe "]> (<["PR_BASE" := " main "]> ∅).

End CreatePr.


(** ** Blobs *)

Module Blob.
(** A [Blob]: its bytes and its [type]. *)
Record t : Type := mk { bytes : list byte; type : string }.

Definition size (b : t) : nat := length (bytes b).

(** [new Blob(parts, { type })]: the parts' bytes, one after the other. *)
Definition make (parts : list t) (ty : string) : t :=
  mk (concat (map bytes parts)) ty.
End Blob.

(** ** lib/audio-bridge.ts *)

Module AudioBridge.

Record RecordResult : Type := {
  blob : Blob.t;
  durationMs : Z;
  started : bool;
  stopReason : string
}.

(** A property of the imported module object: missing, present but not
    callable, or a function (which may itself throw or reject). *)
Inductive member (A B : Type) : Type :=
| Absent
| NotFunction
| Function (f : A → thrown + B).
Arguments Absent {A B}.
Arguments NotFunction {A B}.
Arguments Function {A B} f.

(** [typeof mod.x === 'function'] *)
Definition isFunction {A B} (m : member A B) : bool :=
  match m with Function _ => true | _ => false end.

Section Bridge.
(** The type of the argument of [recordUntilSilence] ([any] in the
    source). *)
Context {Args : Type}.

(** The legacy helper module, as the dynamic import delivers it. *)
Record legacy : Type := Legacy {
  m_calibrateRMS : member Q Q;
  m_recordUntilSilence : member Args RecordResult;
  m_blobToBase64 : member Blob.t string
}.

(** [import(candidate)]: the module, or the reason the import failed. *)
Variable import : string → thrown + legacy.

Definition logAudioBridgeDiagnostic (lv : level) (step : string)
    (detail : list (string * string)) : M (list entry) unit :=
  modify (λ out, out ++ [Entry lv step detail]).

Definition candidates : list string := ["../src/lib/audio.js"; "../src/lib/audio"].

Definition errorMessage : string :=
  "Audio helpers unavailable after attempting legacy module imports. Verify build includes src/lib/audio.js.".

(** [error instanceof Error ? error.message : '__unknown__'] *)
Definition message_of (error : option thrown) : string :=
  match error with
  | Some (ErrorObj _ message) => message
  | _ => "__unknown__"
  end.

(** The [for] loop of [getModule]: [inl module] when it returned from inside
    the loop, [inr lastError] when it ran to the end. *)
Fixpoint import_loop (cs : list string) (lastError : option thrown)
  : M (list entry) (legacy + option thrown) :=
  match cs with
  | [] => mret (inr lastError)
  | candidate :: rest =>
      logAudioBridgeDiagnostic LLog "attempt-import" [("candidate", candidate)] ;;
      match import candidate with
      | inr module =>
          logAudioBridgeDiagnostic LLog "import-success" [("candidate", candidate)] ;;
          mret (inl module)
      | inl error =>
          logAudioBridgeDiagnostic LError "import-failed"
            [("candidate", candidate); ("error", message_of (Some error))] ;;
          import_loop rest (Some error)
      end
  end.

Definition getModule : M (list entry) legacy :=
  r ← import_loop candidates None;
  match r with
  | inl module => mret module
  | inr lastError =>
      logAudioBridgeDiagnostic LError "import-exhausted"
        [("error", message_of lastError)] ;;
      throw (Error errorMessage)
  end.

(** [calibrateRMS(seconds = 2.0)]; [None] is the omitted argument. *)
Definition calibrateRMS (seconds : option Q) : M (list entry) Q :=
  let seconds := default 2%Q seconds in
  module ← getModule;
  match m_calibrateRMS module with
  | Function f => of_sum (f seconds)
  | _ => mret 0%Q
  end.

Definition recordUntilSilence (args : Args) : M (list entry) RecordResult :=
  module ← getModule;
  match m_recordUntilSilence module with
  | Function f => of_sum (f args)
  | _ => throw (Error "Audio recording unavailable")
  end.

Definition blobToBase64 (blob : Blob.t) : M (list entry) string :=
  module ← getModule;
  match m_blobToBase64 module with
  | Function f => of_sum (f blob)
  | _ => mret ""
  end.

(** No candidate location resolves. *)
Definition unresolved : Prop := ∀ c, c ∈ candidates → ∃ e, import c = inl e.

(** The module the loop settles on: that of the first candidate that
    resolves. *)
Definition resolves_to (module : legacy) : Prop :=
  ∃ before c after,
    candidates = before ++ c :: after
    ∧ (∀ b, b ∈ before → ∃ e, import b = inl e)
    ∧ import c = inr module.
End Bridge.
Arguments legacy : clear implicits.

(** A helper module that exports none of the three functions. *)
Definition bare_module : legacy unit := Legacy Absent Absent Absent.

(** An error whose message says what went wrong. *)
Definition descriptive (e : thrown) : Prop :=
  ∃ name message, e = ErrorObj name message ∧ message ≠ "".

Definition fails_descriptively {A} (r : outcome A * list entry) : Prop :=
  ∃ e, r.1 = Throw e ∧ descriptive e.

End AudioBridge.

(** ** lib/session-recorder.ts *)

Module SessionRecordingResult.
Record t : Type := mk { blob : Blob.t; mimeType : string; durationMs : Z }.
End SessionRecordingResult.

Module PlaybackResult.
Record t : Type := mk { durationMs : Z }.
End PlaybackResult.

(** The browser's [MediaRecorder] objects. Handlers are the closures the
    class installs: [ondataavailable] is set by [start], [onstop] by [stop];
    [onstop = Some settled] records whether the promise its [resolve]
    belongs to has been settled already. *)
Module MediaRecorder.
Inductive RecordingState : Type := inactive | recording | paused.

Global Instance RecordingState_eq_dec : EqDecision RecordingState.
Proof. solve_decision. Defined.

Record t : Type := mk {
  state : RecordingState;
  mimeType : string;
  ondataavailable : bool;
  onstop : option bool
}.

Definition with_state (s : RecordingState) (r : t) : t :=
  mk s (mimeType r) (ondataavailable r) (onstop r).
Definition with_ondataavailable (r : t) : t :=
  mk (state r) (mimeType r) true (onstop r).
Definition with_onstop (settled : bool) (r : t) : t :=
  mk (state r) (mimeType r) (ondataavailable r) (Some settled).
End MediaRecorder.

Module Recorder.
Import MediaRecorder.

Definition SUPPORTED_MIME_TYPES : list string :=
  ["audio/webm;codecs=opus"; "audio/webm"; "audio/ogg;codecs=opus"; "audio/ogg"].

(** *** The instance and the page it lives in *)

(** The private fields of the class. Platform objects are held by
    handle. *)
Record SessionRecorder : Type := Fields {
  audioCtx : option nat;
  destination : option nat;
  micStream : option nat;
  micSource : option nat;
  recorder : option nat;
  chunks : list Blob.t;
  mimeType : string;
  startedAt : Q
}.

(** Calls into the platform, as they appear in the journal. *)
Inductive call : Type :=
| GetUserMedia
| NewAudioContext
| Resume (ctx : nat)
| CreateMediaStreamDestination (ctx : nat)
| CreateMediaStreamSource (ctx stream : nat)
| Connect (source dest : nat)
| IsTypeSupported (candidate : string)
| NewMediaRecorder (dest : nat) (mime : option string)
| RecorderStart (rec : nat)
| RecorderStop (rec : nat)
| Disconnect (source dest : nat)
| StopTracks (stream : nat)
| Close (ctx : nat)
| Atob (base64 : string)
| DecodeAudioData (ctx : nat) (data : list N)
| CreateBufferSource (ctx : nat)
| ConnectOutput (source ctx : nat)
| SourceStart (source : nat).

Inductive event : Type :=
| Console (e : entry)
| Platform_call (c : call).

(** The page: whether [window] exists, which capture streams still have a
    live track, which audio contexts are open, the recorder objects, the
    next free handle, and the journal of console lines and platform
    calls. *)
Record Page : Type := MkPage {
  hasWindow : bool;
  liveStreams : gset nat;
  openContexts : gset nat;
  recorders : gmap nat MediaRecorder.t;
  nextHandle : nat;
  journal : list event
}.

Record World : Type := MkWorld { this : SessionRecorder; page : Page }.

Definition set_this (f : SessionRecorder → SessionRecorder) (w : World) : World :=
  MkWorld (f (this w)) (page w).
Definition set_page (f : Page → Page) (w : World) : World :=
  MkWorld (this w) (f (page w)).

Definition with_liveStreams (f : gset nat → gset nat) (p : Page) : Page :=
  MkPage (hasWindow p) (f (liveStreams p)) (openContexts p) (recorders p)
         (nextHandle p) (journal p).
Definition with_openContexts (f : gset nat → gset nat) (p : Page) : Page :=
  MkPage (hasWindow p) (liveStreams p) (f (openContexts p)) (recorders p)
         (nextHandle p) (journal p).
Definition with_recorders
    (f : gmap nat MediaRecorder.t → gmap nat MediaRecorder.t) (p : Page) : Page :=
  MkPage (hasWindow p) (liveStreams p) (openContexts p) (f (recorders p))
         (nextHandle p) (journal p).
Definition with_nextHandle (f : nat → nat) (p : Page) : Page :=
  MkPage (hasWindow p) (liveStreams p) (openContexts p) (recorders p)
         (f (nextHandle p)) (journal p).
Definition with_journal (f : list event → list event) (p : Page) : Page :=
  MkPage (hasWindow p) (liveStreams p) (openContexts p) (recorders p)
         (nextHandle p) (f (journal p)).

(** A new instance ([createSessionRecorder()]) in a page that has made no
    platform object yet. *)
Definition new_SessionRecorder : SessionRecorder :=
  Fields None None None None None [] "audio/webm" 0.

Definition createSessionRecorder (has_window : bool) : World :=
  MkWorld new_SessionRecorder (MkPage has_window ∅ ∅ ∅ 0 []).

(** *** The platform

    How the browser answers each call: [None] (or [inr]) when the call
    goes through, [Some e] (or [inl e]) when it throws or its promise
    rejects with [e]. The answers may differ from one operation to the
    next, so every operation takes its own [Platform]. Clock readings
    ([performance.now()], in milliseconds) and the duration of a decoded
    buffer (in seconds) are fractions; they are taken as rationals, on
    which subtraction and multiplication are exact. *)

(** How [ctx.close()] can end. The call hands back a promise, and
    [cleanup] does not wait for it: when the promise rejects, nobody is
    there to catch the rejection. *)
Inductive closing : Type :=
| Closes
| CloseThrows (e : thrown)
| CloseRejects (e : thrown).

Record Platform : Type := {
  getUserMedia : option thrown;
  newAudioContext : option thrown;
  resume : option thrown;
  createMediaStreamDestination : option thrown;
  createMediaStreamSource : option thrown;
  connect : option thrown;
  isTypeSupported : string → thrown + bool;
  (** the [mimeType] attribute of the recorder that was constructed *)
  newMediaRecorder : option string → thrown + string;
  now : Q;
  recorder_start : option thrown;
  recorder_stop : option thrown;
  disconnect : option thrown;
  stopTracks : option thrown;
  close : closing;
  (** [None] when [atob] is not defined *)
  atob : option (string → thrown + list N);
  (** [audioBuffer.duration] of the decoded buffer *)
  decodeAudioData : list N → thrown + Q;
  createBufferSource : option thrown;
  source_connect : option thrown;
  source_start : option thrown
}.

(** *** Primitive effects *)

Definition emit (e : event) : M World unit :=
  modify (set_page (with_journal (λ j, j ++ [e]))).

Definition formatRecorderError (error : thrown) : list (string * string) :=
  match error with
  | ErrorObj name message => [("message", message); ("name", name)]
  | NonError _ => [("message", "__unknown__"); ("name", "__unknown__")]
  end.

(** [recorderLog(level, step, detail)]; writing to the console is taken
    not to throw. *)
Definition recorderLog (lv : level) (step : string)
    (detail : list (string * string)) : M World unit :=
  emit (Console (Entry lv step detail)).

(** A platform call that yields nothing: journal it, then throw if the
    platform says so. *)
Definition invoke (c : call) (answer : option thrown) : M World unit :=
  emit (Platform_call c) ;;
  match answer with Some e => throw e | None => mret tt end.

(** A platform call that yields a value. *)
Definition invoke_for {A} (c : call) (answer : thrown + A) : M World A :=
  emit (Platform_call c) ;; of_sum answer.

Definition fresh_handle : M World nat :=
  w ← get;
  modify (set_page (with_nextHandle S)) ;;
  mret (nextHandle (page w)).

(** The state of a recorder object; a handle that denotes no object reads
    as [inactive] (handles held by an instance always denote one, see
    [handles_denote]). *)
Definition state_of (w : World) (rec : nat) : RecordingState :=
  match recorders (page w) !! rec with
  | Some r => state r
  | None => inactive
  end.

Definition update_recorder (rec : nat) (f : MediaRecorder.t → MediaRecorder.t)
  : M World unit :=
  modify (set_page (with_recorders (alter f rec))).

(** [navigator.mediaDevices.getUserMedia({ audio: true })]: a new stream
    with a live track. *)
Definition do_getUserMedia (P : Platform) : M World nat :=
  invoke GetUserMedia (getUserMedia P) ;;
  stream ← fresh_handle;
  modify (set_page (with_liveStreams (λ s, {[stream]} ∪ s))) ;;
  mret stream.

(** [new AudioContext()]: a new, open context. *)
Definition do_newAudioContext (P : Platform) : M World nat :=
  invoke NewAudioContext (newAudioContext P) ;;
  ctx ← fresh_handle;
  modify (set_page (with_openContexts (λ s, {[ctx]} ∪ s))) ;;
  mret ctx.

Definition do_createMediaStreamDestination (P : Platform) (ctx : nat) : M World nat :=
  invoke (CreateMediaStreamDestination ctx) (createMediaStreamDestination P) ;;
  fresh_handle.

Definition do_createMediaStreamSource (P : Platform) (ctx stream : nat) : M World nat :=
  invoke (CreateMediaStreamSource ctx stream) (createMediaStreamSource P) ;;
  fresh_handle.

(** [new MediaRecorder(stream, options)]: a new recorder object, inactive
    and without handlers. *)
Definition do_newMediaRecorder (P : Platform) (dest : nat) (mime : option string)
  : M World nat :=
  attr ← invoke_for (NewMediaRecorder dest mime) (newMediaRecorder P mime);
  rec ← fresh_handle;
  modify (set_page (with_recorders
            (insert rec (MediaRecorder.mk inactive attr false None)))) ;;
  mret rec.

(** [recorder.start()]: the recorder is recording afterwards. *)
Definition do_recorder_start (P : Platform) (rec : nat) : M World unit :=
  invoke (RecorderStart rec) (recorder_start P) ;;
  update_recorder rec (with_state recording).

(** [recorder.stop()]: the recorder is inactive afterwards; its
    [dataavailable] and [stop] events are delivered later. *)
Definition do_recorder_stop (P : Platform) (rec : nat) : M World unit :=
  invoke (RecorderStop rec) (recorder_stop P) ;;
  update_recorder rec (with_state inactive).

(** [stream.getTracks().forEach((track) => track.stop())] *)
Definition do_stopTracks (P : Platform) (stream : nat) : M World unit :=
  invoke (StopTracks stream) (stopTracks P) ;;
  modify (set_page (with_liveStreams (λ s, s ∖ {[stream]}))).

(** [ctx.close()], not awaited: a call that throws is seen by the
    caller; a promise that rejects is not, and the context stays as it
    was. *)
Definition do_close (P : Platform) (ctx : nat) : M World unit :=
  emit (Platform_call (Close ctx)) ;;
  match close P with
  | Closes => modify (set_page (with_openContexts (λ s, s ∖ {[ctx]})))
  | CloseThrows e => throw e
  | CloseRejects _ => mret tt
  end.

(** [Math.round]: the nearest integer, a tie going up. *)
Definition Math_round (x : Q) : Z := Qfloor (x + (1 # 2)).

(** Truthiness of a number. *)
Definition truthy_number (x : Q) : bool := negb (Qnum x =? 0)%Z.

(** *** The class *)

(** [this.recorder && this.recorder.state === 'recording'] *)
Definition already_recording (w : World) : bool :=
  match recorder (this w) with
  | Some rec => bool_decide (state_of w rec = recording)
  | None => false
  end.

(** The callback given to [SUPPORTED_MIME_TYPES.find]. *)
Definition probe (P : Platform) (candidate : string) : M World bool :=
  try_catch
    (supported ← invoke_for (IsTypeSupported candidate) (isTypeSupported P candidate);
     recorderLog LLog "start:mime-candidate"
       [("candidate", candidate);
        ("supported", if (supported : bool) then "true" else "false")] ;;
     mret supported)
    (λ error,
       recorderLog LError "start:mime-check-failed"
         (("candidate", candidate) :: formatRecorderError error) ;;
       mret false).

(** [candidates.find(probe)]: the first candidate for which the callback
    answers true; the candidates after it are not probed. *)
Fixpoint find_supported (P : Platform) (cs : list string) : M World (option string) :=
  match cs with
  | [] => mret None
  | candidate :: rest =>
      supported ← probe P candidate;
      if (supported : bool) then mret (Some candidate) else find_supported P rest
  end.

(** [a || b || 'audio/webm'] *)
Definition first_truthy (a : option string) (b : string) (c : string) : string :=
  match or_else a (Some b) with
  | Some s => if truthy_string s then s else c
  | None => c
  end.

Definition cleanup (P : Platform) : M World unit :=
  recorderLog LLog "cleanup:begin" [] ;;
  w ← get;
  try_catch
    (match micSource (this w), destination (this w) with
     | Some source, Some dest =>
         invoke (Disconnect source dest) (disconnect P) ;;
         recorderLog LLog "cleanup:mic-disconnected" []
     | _, _ => mret tt
     end)
    (λ error,
       recorderLog LError "cleanup:mic-disconnect-failed" (formatRecorderError error)) ;;
  match micStream (this w) with
  | Some stream =>
      try_catch
        (do_stopTracks P stream ;;
         recorderLog LLog "cleanup:tracks-stopped" [])
        (λ error,
           recorderLog LError "cleanup:stop-tracks-failed" (formatRecorderError error))
  | None => mret tt
  end ;;
  match audioCtx (this w) with
  | Some ctx =>
      try_catch
        (do_close P ctx ;;
         recorderLog LLog "cleanup:context-closed" [])
        (λ error,
           recorderLog LError "cleanup:context-close-failed" (formatRecorderError error))
  | None => mret tt
  end ;;
  modify (set_this (λ t, Fields None None None None None [] (mimeType t) 0)).

Definition start (P : Platform) : M World unit :=
  w ← get;
  if negb (hasWindow (page w)) then throw (Error "SessionRecorder unavailable")
  else if already_recording w then
    recorderLog LLog "start:already-recording" [] ;;
    mret tt
  else
    recorderLog LLog "start:requesting-user-media" [] ;;
    try_catch
      (stream ← do_getUserMedia P;
       recorderLog LLog "start:user-media-granted" [] ;;
       ctx ← do_newAudioContext P;
       invoke (Resume ctx) (resume P) ;;
       recorderLog LLog "start:audio-context-ready" [] ;;
       dest ← do_createMediaStreamDestination P ctx;
       source ← do_createMediaStreamSource P ctx stream;
       invoke (Connect source dest) (connect P) ;;
       recorderLog LLog "start:microphone-connected" [] ;;
       supportedMime ← find_supported P SUPPORTED_MIME_TYPES;
       rec ← (if truthy_opt supportedMime
              then do_newMediaRecorder P dest supportedMime
              else do_newMediaRecorder P dest None);
       w1 ← get;
       let mime := first_truthy supportedMime
                     (from_option MediaRecorder.mimeType "" (recorders (page w1) !! rec))
                     "audio/webm" in
       modify (set_this (λ _,
         Fields (Some ctx) (Some dest) (Some stream) (Some source) (Some rec)
                [] mime (now P))) ;;
       update_recorder rec with_ondataavailable ;;
       do_recorder_start P rec ;;
       recorderLog LLog "start:recording-began" [("mimeType", mime)])
      (λ error,
         recorderLog LError "start:failed" (formatRecorderError error) ;;
         cleanup P ;;
         throw (if instanceofError error then error
                else Error "Session recorder failed to start.")).

(** The handler [start] installs as [recorder.ondataavailable]. *)
Definition ondataavailable_handler (data : option Blob.t) : M World unit :=
  match data with
  | Some d =>
      if (Blob.size d =? 0)%nat then mret tt
      else modify (set_this (λ t,
             Fields (audioCtx t) (destination t) (micStream t) (micSource t)
                    (recorder t) (chunks t ++ [d]) (mimeType t) (startedAt t)))
  | None => mret tt
  end.

(** The result with an empty payload. *)
Definition empty_result (w : World) : SessionRecordingResult.t :=
  SessionRecordingResult.mk (Blob.make [] (mimeType (this w))) (mimeType (this w)) 0.

(** The handler [stop] installs as [recorder.onstop]; its value is what it
    passes to [resolve]. *)
Definition onstop_handler (P : Platform) : M World SessionRecordingResult.t :=
  w ← get;
  let blob := Blob.make (chunks (this w)) (mimeType (this w)) in
  let durationMs :=
    if truthy_number (startedAt (this w))
    then Z.max 0 (Math_round (now P - startedAt (this w)))
    else 0%Z in
  cleanup P ;;
  w' ← get;
  mret (SessionRecordingResult.mk blob (mimeType (this w')) durationMs).

(** What the caller of [stop] holds once the call has run as far as it
    can: a settled promise, or one that waits for the [stop] event of the
    recorder. *)
Inductive stop_reply : Type :=
| Resolved (result : SessionRecordingResult.t)
| Pending (rec : nat).

Definition stop (P : Platform) : M World stop_reply :=
  w ← get;
  match recorder (this w) with
  | None => throw (Error "Recorder not started")
  | Some rec =>
      if bool_decide (state_of w rec = inactive) then
        mret (Resolved (empty_result w))
      else
        update_recorder rec (with_onstop false) ;;
        try_catch
          (do_recorder_stop P rec ;;
           recorderLog LLog "stop:requested" [] ;;
           mret (Pending rec))
          (λ error,
             recorderLog LError "stop:failed" (formatRecorderError error) ;;
             cleanup P ;;
             w' ← get;
             update_recorder rec (with_onstop true) ;;
             mret (Resolved (empty_result w')))
  end.

Definition cancel (P : Platform) : M World unit :=
  w ← get;
  match recorder (this w) with
  | Some rec =>
      if bool_decide (state_of w rec ≠ inactive) then
        try_catch
          (do_recorder_stop P rec ;;
           recorderLog LLog "cancel:stop-requested" [])
          (λ error,
             recorderLog LError "cancel:stop-failed" (formatRecorderError error))
      else mret tt
  | None => mret tt
  end ;;
  cleanup P.

(** [base64ToArrayBuffer]: the code units of [atob(base64)] stored in a
    [Uint8Array]. *)
Definition base64ToArrayBuffer (P : Platform) (base64 : string) : M World (list N) :=
  match atob P with
  | None =>
      recorderLog LError "decode:missing-atob" [] ;;
      throw (Error "Base64 decoding unavailable in this environment")
  | Some decode =>
      binary ← invoke_for (Atob base64) (decode base64);
      let bytes := map (λ c, (c mod 256)%N) binary in
      recorderLog LLog "decode:converted" [] ;;
      mret bytes
  end.

(** What the caller of [playAudioBuffer] holds once [source.start()] has
    gone through: a promise that waits for the [ended] event of the
    source and then resolves with [result], the value the [onended]
    handler has captured. *)
Inductive play_reply : Type :=
| Playing (source : nat) (result : PlaybackResult.t).

(** [playAudioBuffer]; [duration] is [audioBuffer.duration], in seconds.
    A [source.start()] that throws rejects the promise at once. *)
Definition playAudioBuffer (P : Platform) (duration : Q) : M World play_reply :=
  w ← get;
  match audioCtx (this w), destination (this w) with
  | Some ctx, Some dest =>
      invoke (CreateBufferSource ctx) (createBufferSource P) ;;
      source ← fresh_handle;
      invoke (ConnectOutput source ctx) (source_connect P) ;;
      invoke (Connect source dest) (source_connect P) ;;
      let durationMs := Math_round (duration * 1000) in
      try_catch
        (invoke (SourceStart source) (source_start P) ;;
         recorderLog LLog "play:start-requested" [] ;;
         mret (Playing source (PlaybackResult.mk durationMs)))
        (λ err,
           recorderLog LError "play:start-failed" (formatRecorderError err) ;;
           throw (if instanceofError err then err else Error "play_failed"))
  | _, _ => throw (Error "Recorder not started")
  end.

Definition playAssistantBase64 (P : Platform) (base64 : string)
  : M World play_reply :=
  w ← get;
  match audioCtx (this w), destination (this w) with
  | Some ctx, Some _ =>
      invoke (Resume ctx) (resume P) ;;
      recorderLog LLog "play:decoding-audio" [] ;;
      arrayBuffer ← base64ToArrayBuffer P base64;
      audioBuffer ← invoke_for (DecodeAudioData ctx arrayBuffer)
                               (decodeAudioData P arrayBuffer);
      recorderLog LLog "play:decoded" [] ;;
      playAudioBuffer P audioBuffer
  | _, _ =>
      recorderLog LError "play:missing-context" [] ;;
      throw (Error "Recorder not started")
  end.

(** *** Events the browser delivers *)


(** A [dataavailable] event on recorder [rec]. *)
Definition fire_dataavailable (rec : nat) (data : option Blob.t) : M World unit :=
  w ← get;
  match recorders (page w) !! rec with
  | Some r => if ondataavailable r then ondataavailable_handler data else mret tt
  | None => mret tt
  end.

(** A [stop] event on recorder [rec]: the result the waiting [stop()]
    receives, if one is still waiting. *)
Definition fire_stop (P : Platform) (rec : nat)
  : M World (option SessionRecordingResult.t) :=
  w ← get;
  match recorders (page w) !! rec with
  | Some r =>
      match onstop r with
      | Some settled =>
          result ← onstop_handler P;
          update_recorder rec (with_onstop true) ;;
          mret (if settled then None else Some result)
      | None => mret None
      end
  | None => mret None
  end.

(** The browser ends a recording on its own (a recorder error, or the
    recorded stream ending). *)
Definition halt_recorder (rec : nat) : M World unit :=
  update_recorder rec (with_state inactive).

(** *** Runs *)

Inductive action : Type :=
| Start (P : Platform)
| Stop (P : Platform)
| Cancel (P : Platform)
| Play (P : Platform) (base64 : string)
| DataAvailable (rec : nat) (data : option Blob.t)
| StopEvent (P : Platform) (rec : nat)
| Halt (rec : nat).

Definition step (a : action) (w : World) : World :=
  match a with
  | Start P => (start P w).2
  | Stop P => (stop P w).2
  | Cancel P => (cancel P w).2
  | Play P base64 => (playAssistantBase64 P base64 w).2
  | DataAvailable rec data => (fire_dataavailable rec data w).2
  | StopEvent P rec => (fire_stop P rec w).2
  | Halt rec => (halt_recorder rec w).2
  end.

Definition run (acts : list action) (w : World) : World :=
  foldl (λ w a, step a w) w acts.

(** The worlds an instance can be in: a new instance, then any sequence
    of calls and events. *)
Inductive reachable : World → Prop :=
| reachable_new has_window : reachable (createSessionRecorder has_window)
| reachable_step a w : reachable w → reachable (step a w).

(** *** Predicates used in the statements *)

(** [j] appended to the journal, everything else as it was. *)
Definition journal_add (j : list event) (w : World) : World :=
  set_page (with_journal (λ j0, j0 ++ j)) w.

(** All handles dropped, no chunk kept. *)
Definition released (t : SessionRecorder) : Prop :=
  audioCtx t = None ∧ destination t = None ∧ micStream t = None
  ∧ micSource t = None ∧ recorder t = None ∧ chunks t = [] ∧ startedAt t = 0%Q.

(** The platform reports [c] as supported (a probe that throws counts as
    unsupported). *)
Definition supports (P : Platform) (c : string) : bool :=
  match isTypeSupported P c with inr b => b | inl _ => false end.

(** The first candidate, in the order of the list, that the platform
    reports as supported. *)
Definition first_supported (P : Platform) : option string :=
  find (supports P) SUPPORTED_MIME_TYPES.

(** The candidates that get probed: every one up to and including the
    first supported one. *)
Fixpoint probed (P : Platform) (cs : list string) : list string :=
  match cs with
  | [] => []
  | c :: rest => c :: (if supports P c then [] else probed P rest)
  end.

(** The console line of one probe. *)
Definition probe_entry (P : Platform) (c : string) : entry :=
  match isTypeSupported P c with
  | inr b =>
      Entry LLog "start:mime-candidate"
        [("candidate", c); ("supported", if b then "true" else "false")]
  | inl e =>
      Entry LError "start:mime-check-failed" (("candidate", c) :: formatRecorderError e)
  end.

(** What the negotiation writes to the journal. *)
Fixpoint probe_journal (P : Platform) (cs : list string) : list event :=
  match cs with
  | [] => []
  | c :: rest =>
      Platform_call (IsTypeSupported c) :: Console (probe_entry P c)
        :: (if supports P c then [] else probe_journal P rest)
  end.

(** The arguments of the [isTypeSupported] calls of a journal, in
    order. *)
Definition probes_of (j : list event) : list string :=
  omap (λ e, match e with
             | Platform_call (IsTypeSupported c) => Some c
             | _ => None
             end) j.

(** The [mimeType] option of each [MediaRecorder] construction of a
    journal. *)
Definition constructions_of (j : list event) : list (option string) :=
  omap (λ e, match e with
             | Platform_call (NewMediaRecorder _ mime) => Some mime
             | _ => None
             end) j.

(** The platform calls of a journal. *)
Definition calls_of (j : list event) : list call :=
  omap (λ e, match e with Platform_call c => Some c | Console _ => None end) j.

(** What [cleanup] writes to the journal on an instance with fields
    [t]: one line to begin with, then for each handle it holds the call
    and the line that tells how the call went. *)
Definition cleanup_journal (P : Platform) (t : SessionRecorder) : list event :=
  [Console (Entry LLog "cleanup:begin" [])]
  ++ match micSource t, destination t with
     | Some source, Some dest =>
         [Platform_call (Disconnect source dest);
          Console (match disconnect P with
                   | None => Entry LLog "cleanup:mic-disconnected" []
                   | Some e =>
                       Entry LError "cleanup:mic-disconnect-failed" (formatRecorderError e)
                   end)]
     | _, _ => []
     end
  ++ match micStream t with
     | Some stream =>
         [Platform_call (StopTracks stream);
          Console (match stopTracks P with
                   | None => Entry LLog "cleanup:tracks-stopped" []
                   | Some e =>
                       Entry LError "cleanup:stop-tracks-failed" (formatRecorderError e)
                   end)]
     | None => []
     end
  ++ match audioCtx t with
     | Some ctx =>
         [Platform_call (Close ctx);
          Console (match close P with
                   | CloseThrows e =>
                       Entry LError "cleanup:context-close-failed" (formatRecorderError e)
                   | Closes | CloseRejects _ => Entry LLog "cleanup:context-closed" []
                   end)]
     | None => []
     end.

(** What [cancel] writes before the teardown: the stop request to an
    encoder that is not inactive, and how it went. *)
Definition cancel_journal (P : Platform) (w : World) : list event :=
  match recorder (this w) with
  | Some rec =>
      if bool_decide (state_of w rec ≠ inactive) then
        [Platform_call (RecorderStop rec);
         Console (match recorder_stop P with
                  | None => Entry LLog "cancel:stop-requested" []
                  | Some e => Entry LError "cancel:stop-failed" (formatRecorderError e)
                  end)]
      else []
  | None => []
  end.

(** The console lines of a journal that report a failure. *)
Definition failures_of (j : list event) : list string :=
  omap (λ e, match e with
             | Console (Entry LError step _) => Some step
             | _ => None
             end) j.

(** A platform on which every step of [start] up to the construction of
    the encoder goes through. *)
Record graph_granted (P : Platform) : Prop := {
  granted_getUserMedia : getUserMedia P = None;
  granted_newAudioContext : newAudioContext P = None;
  granted_resume : resume P = None;
  granted_destination : createMediaStreamDestination P = None;
  granted_source : createMediaStreamSource P = None;
  granted_connect : connect P = None
}.

(** A platform on which, in addition, the encoder for the negotiated
    format (or the default one) can be constructed and started. *)
Record encoder_granted (P : Platform) : Prop := {
  granted_graph : graph_granted P;
  granted_constructor : ∃ attr, newMediaRecorder P (first_supported P) = inr attr;
  granted_start : recorder_start P = None
}.

(** The instance is recording. *)
Definition is_recording (w : World) : Prop :=
  ∃ rec r, recorder (this w) = Some rec
           ∧ recorders (page w) !! rec = Some r ∧ state r = recording.

(** Worlds reached without any call of [start]. *)
Inductive never_started : World → Prop :=
| never_new has_window : never_started (createSessionRecorder has_window)
| never_step a w :
    never_started w → (∀ P, a ≠ Start P) → never_started (step a w).

(** Every kept chunk has a size other than zero. *)
Definition nonzero_chunks (w : World) : Prop :=
  Forall (λ d, Blob.size d ≠ 0) (chunks (this w)).

(** What a [dataavailable] event adds to the chunks. *)
Definition kept (data : option Blob.t) : list Blob.t :=
  match data with
  | Some d => if (Blob.size d =? 0)%nat then [] else [d]
  | None => []
  end.

(** The chunks [l] appended to the kept ones, everything else as it
    was. *)
Definition push_chunks (l : list Blob.t) (w : World) : World :=
  set_this (λ t, Fields (audioCtx t) (destination t) (micStream t) (micSource t)
                        (recorder t) (chunks t ++ l) (mimeType t) (startedAt t)) w.

(** The bytes of a sequence of chunks, in order. *)
Definition bytes_of (l : list Blob.t) : list byte := concat (map Blob.bytes l).

(** Every handle the instance holds for a recorder denotes a recorder
    object. *)
Definition handles_denote (w : World) : Prop :=
  ∀ rec, recorder (this w) = Some rec → is_Some (recorders (page w) !! rec).

(** *** Relations between the world before and after a step *)

(** [window] stays defined or undefined. *)
Definition same_window : relation World :=
  λ w w', hasWindow (page w') = hasWindow (page w).

(** An instance without an encoder handle gets none. *)
Definition stays_unstarted : relation World :=
  λ w w', recorder (this w) = None → recorder (this w') = None.

(** An instance without an audio graph gets none. *)
Definition stays_without_graph : relation World :=
  λ w w', audioCtx (this w) = None ∨ destination (this w) = None →
          audioCtx (this w') = None ∨ destination (this w') = None.

Definition keeps_nonzero_chunks : relation World :=
  λ w w', nonzero_chunks w → nonzero_chunks w'.

(** Recorder objects are never destroyed. *)
Definition recorders_grow : relation World :=
  λ w w', ∀ rec, is_Some (recorders (page w) !! rec)
                 → is_Some (recorders (page w') !! rec).

(** A relation that holds across every update of the page the code makes
    and across the reset of the fields at the end of [cleanup]. *)
Record stable (R : relation World) : Prop := {
  stable_journal : ∀ g w, R w (set_page (with_journal g) w);
  stable_liveStreams : ∀ g w, R w (set_page (with_liveStreams g) w);
  stable_openContexts : ∀ g w, R w (set_page (with_openContexts g) w);
  stable_nextHandle : ∀ g w, R w (set_page (with_nextHandle g) w);
  stable_alter : ∀ f rec w, R w (set_page (with_recorders (alter f rec)) w);
  stable_insert : ∀ rec r w, R w (set_page (with_recorders (insert rec r)) w);
  stable_reset : ∀ w,
    R w (set_this (λ t, Fields None None None None None [] (mimeType t) 0) w)
}.

(** The encoder handle is kept or dropped, never replaced. *)
Definition handle_kept_or_dropped : relation World :=
  λ w w', recorder (this w') = recorder (this w) ∨ recorder (this w') = None.

(** *** Sample platforms and data *)

(** A browser that grants every call and supports exactly the listed
    formats; an encoder made without a format reports [default_mime]. *)
Definition granting (supported : list string) (default_mime : string) : Platform := {|
  getUserMedia := None;
  newAudioContext := None;
  resume := None;
  createMediaStreamDestination := None;
  createMediaStreamSource := None;
  connect := None;
  isTypeSupported := λ c, inr (JsString.includes supported c);
  newMediaRecorder := λ mime, inr (default default_mime mime);
  now := 1500;
  recorder_start := None;
  recorder_stop := None;
  disconnect := None;
  stopTracks := None;
  close := Closes;
  atob := Some (λ _, inr []);
  decodeAudioData := λ _, inr 0%Q;
  createBufferSource := None;
  source_connect := None;
  source_start := None
|}.

(** The same browser, except that no [MediaRecorder] can be constructed. *)
Definition without_encoder : Platform := {|
  getUserMedia := None;
  newAudioContext := None;
  resume := None;
  createMediaStreamDestination := None;
  createMediaStreamSource := None;
  connect := None;
  isTypeSupported := λ _, inr false;
  newMediaRecorder := λ _, inl (ErrorObj "NotSupportedError" "MediaRecorder is not supported");
  now := 1500;
  recorder_start := None;
  recorder_stop := None;
  disconnect := None;
  stopTracks := None;
  close := Closes;
  atob := Some (λ _, inr []);
  decodeAudioData := λ _, inr 0%Q;
  createBufferSource := None;
  source_connect := None;
  source_start := None
|}.

(** The same browser, except that the encoder refuses to start. *)
Definition without_encoder_start : Platform := {|
  getUserMedia := None;
  newAudioContext := None;
  resume := None;
  createMediaStreamDestination := None;
  createMediaStreamSource := None;
  connect := None;
  isTypeSupported := λ _, inr false;
  newMediaRecorder := λ mime, inr (default "" mime);
  now := 1500;
  recorder_start := Some (ErrorObj "NotSupportedError" "cannot record this stream");
  recorder_stop := None;
  disconnect := None;
  stopTracks := None;
  close := Closes;
  atob := Some (λ _, inr []);
  decodeAudioData := λ _, inr 0%Q;
  createBufferSource := None;
  source_connect := None;
  source_start := None
|}.

(** The same browser, except that every probe and every teardown call
    throws. *)
Definition throwing_teardown : Platform := {|
  getUserMedia := None;
  newAudioContext := None;
  resume := None;
  createMediaStreamDestination := None;
  createMediaStreamSource := None;
  connect := None;
  isTypeSupported := λ _, inl (NonError "boom");
  newMediaRecorder := λ mime, inr (default "" mime);
  now := 1500;
  recorder_start := None;
  recorder_stop := Some (ErrorObj "InvalidStateError" "not recording");
  disconnect := Some (NonError "boom");
  stopTracks := Some (NonError "boom");
  close := CloseThrows (NonError "boom");
  atob := None;
  decodeAudioData := λ _, inl (NonError "boom");
  createBufferSource := None;
  source_connect := None;
  source_start := None
|}.

(** A browser on which the encoder refuses to stop, [disconnect] and
    [track.stop()] throw, and the promise of [close()] rejects. *)
Definition failing_teardown : Platform := {|
  getUserMedia := None;
  newAudioContext := None;
  resume := None;
  createMediaStreamDestination := None;
  createMediaStreamSource := None;
  connect := None;
  isTypeSupported := λ _, inr true;
  newMediaRecorder := λ mime, inr (default "" mime);
  now := 1500;
  recorder_start := None;
  recorder_stop := Some (ErrorObj "InvalidStateError" "not recording");
  disconnect := Some (ErrorObj "InvalidAccessError" "not connected");
  stopTracks := Some (NonError "boom");
  close := CloseRejects (ErrorObj "InvalidStateError" "context already closed");
  atob := Some (λ _, inr []);
  decodeAudioData := λ _, inr 0%Q;
  createBufferSource := None;
  source_connect := None;
  source_start := None
|}.

Definition chunk_a : Blob.t := Blob.mk ["a"%byte; "b"%byte] "audio/ogg".
Definition chunk_b : Blob.t := Blob.mk ["c"%byte] "audio/ogg".

(** A new instance that has been started on a browser supporting only
    plain Ogg. The recorder object has handle 4. *)
Definition recording_world : World :=
  step (Start (granting ["audio/ogg"] "")) (createSessionRecorder true).

(** ... and has received two chunks since. *)
Definition world_with_chunks : World :=
  run [DataAvailable 4 (Some chunk_a); DataAvailable 4 (Some chunk_b)] recording_world.

End Recorder.

(** ** scripts/create-pr.mjs: the git and GitHub steps of [main] *)

Module CreatePrMain.
Import JsString CreatePr.
Local Set Warnings "-register-all".

(** Values that [JSON.parse] delivers. Numbers are integers; the keys of
    an object are distinct. *)
Inductive json : Type :=
| JNull
| JBool (b : bool)
| JNum (z : Z)
| JStr (s : string)
| JArr (items : list json)
| JObj (fields : list (string * json)).

(** [value.key]: [inr None] is [undefined], [inl] the [TypeError] of a
    property read on [null]. *)
Definition property (value : json) (key : string) : thrown + option json :=
  match value with
  | JNull =>
      inl (ErrorObj "TypeError"
             ("Cannot read properties of null (reading '" +:+ key +:+ "')"))
  | JObj fields => inr (snd <$> List.find (λ kv, String.eqb (fst kv) key) fields)
  | _ => inr None
  end.

(** [String(value)], as a template literal renders it. *)
Fixpoint to_String (value : json) : string :=
  match value with
  | JNull => "null"
  | JBool b => if b then "true" else "false"
  | JNum z => pretty z
  | JStr s => s
  | JArr items =>
      String.concat ","
        (map (λ item, match item with JNull => "" | _ => to_String item end) items)
  | JObj _ => "[object Object]"
  end.

Definition template (value : option json) : string :=
  match value with Some v => to_String v | None => "undefined" end.

(** Truthiness of a value and of a possibly undefined value. *)
Definition truthy (value : json) : bool :=
  match value with
  | JNull => false
  | JBool b => b
  | JNum z => negb (z =? 0)%Z
  | JStr s => truthy_string s
  | JArr _ | JObj _ => true
  end.

Definition truthy_option (value : option json) : bool :=
  match value with Some v => truthy v | None => false end.

(** [encodeURIComponent] on code units below 256: the unreserved
    characters stay, every other one becomes the percent-encoded bytes of
    its UTF-8 form. *)
Definition unreserved (c : ascii) : bool :=
  let n := N_of_ascii c in
  (((48 <=? n) && (n <=? 57)) || ((65 <=? n) && (n <=? 90))
   || ((97 <=? n) && (n <=? 122))
   || (n =? 45) || (n =? 95) || (n =? 46) || (n =? 33) || (n =? 126)
   || (n =? 42) || (n =? 39) || (n =? 40) || (n =? 41))%N.

Definition hex_digit (n : N) : ascii :=
  if (n <? 10)%N then ascii_of_N (48 + n) else ascii_of_N (55 + n).

Definition percent (byte : N) : string :=
  String "%" (String (hex_digit (byte / 16)) (String (hex_digit (byte mod 16)) "")).

Definition encode_unit (c : ascii) : string :=
  let n := N_of_ascii c in
  if unreserved c then String c ""
  else if (n <? 128)%N then percent n
  else percent (192 + n / 64) +:+ percent (128 + n mod 64).

Fixpoint encodeURIComponent (s : string) : string :=
  match s with
  | EmptyString => ""
  | String c rest => encode_unit c +:+ encodeURIComponent rest
  end.

(** What [fetch] resolves to: the status, [response.ok] and the outcome
    of [response.text()]. *)
Record response : Type := Response {
  status : Z;
  ok : bool;
  text : thrown + string
}.

(** The world outside the process. [execSync] answers per call site (the
    step name) and command line; [fetch] gets the method, the URL, the
    bearer token and the body as the value that [JSON.stringify]
    serializes. *)
Record outside : Type := Outside {
  execSync : string → string → thrown + string;
  fetch : string → string → string → option json → thrown + response;
  JSON_parse : string → thrown + json
}.

Section Steps.
Variable W : outside.

(** [runCommand(step, command)] *)
Definition runCommand (step command : string) : M (list entry) string :=
  log LLog (step +:+ ":invoke") [("command", command)] ;;
  try_catch
    (output ← of_sum (execSync W step command);
     log LLog (step +:+ ":success")
       [("command", command); ("output", trim output)] ;;
     mret output)
    (λ error,
       log LError (step +:+ ":failure")
         (("command", command) :: normalizeError error) ;;
       throw error).

(** [request(step, method, url, token, body)] *)
Definition request (step method url token : string) (body : option json)
  : M (list entry) json :=
  log LLog (step +:+ ":request")
    [("method", method); ("url", url);
     ("hasBody", match body with Some _ => "true" | None => "false" end)] ;;
  try_catch
    (response ← of_sum (fetch W method url token body);
     text ← of_sum (text response);
     let parsed :=
       if truthy_string text then
         match JSON_parse W text with
         | inr value => value
         | inl parseError => JObj [("raw", JStr text)]
         end
       else JNull in
     log LLog (step +:+ ":response")
       [("status", pretty (status response));
        ("ok", if ok response then "true" else "false")] ;;
     if negb (ok response) then
       let error :=
         Error ("GitHub API request failed: " +:+ method +:+ " " +:+ url
                +:+ " -> " +:+ pretty (status response)) in
       log LError (step +:+ ":http-error")
         (("status", pretty (status response)) :: normalizeError error) ;;
       throw error
     else mret parsed)
    (λ error,
       log LError (step +:+ ":failure") (normalizeError error) ;;
       throw error).

(** The request bodies. *)
Definition update_body (cfg : config) : json :=
  JObj [("title", JStr (title cfg)); ("body", JStr (body cfg));
        ("base", JStr (base cfg)); ("head", JStr (head cfg));
        ("draft", JBool (isDraft cfg))].

Definition create_body (cfg : config) : json :=
  JObj [("title", JStr (title cfg)); ("head", JStr (head cfg));
        ("base", JStr (base cfg)); ("body", JStr (body cfg));
        ("draft", JBool (isDraft cfg))].

Definition pulls_url (cfg : config) : string :=
  apiUrl cfg +:+ "/repos/" +:+ owner cfg +:+ "/" +:+ repo cfg +:+ "/pulls".

Definition list_url (cfg : config) : string :=
  pulls_url cfg +:+ "?head="
    +:+ encodeURIComponent (owner cfg +:+ ":" +:+ head cfg) +:+ "&state=open".

(** The [if] on the listed pull requests at the end of [main]: update
    the first one, or create one when the list is empty or not an
    array. *)
Definition update_or_create (cfg : config) (existing : json)
  : M (list entry) unit :=
  match existing with
  | JArr (pullRequest :: _) =>
      number ← of_sum (property pullRequest "number");
      html_url ← of_sum (property pullRequest "html_url");
      log LLog "github-existing-pr-found"
        [("number", template number); ("url", template html_url)] ;;
      number' ← of_sum (property pullRequest "number");
      let updateUrl := pulls_url cfg +:+ "/" +:+ template number' in
      request "github-update-pr" "PATCH" updateUrl (githubToken cfg)
        (Some (update_body cfg)) ;;
      log LLog "github-update-pr-success"
        [("number", template number); ("url", template html_url)]
  | _ =>
      log LLog "github-no-existing-pr"
        [("headQualified", owner cfg +:+ ":" +:+ head cfg)] ;;
      created ← request "github-create-pr" "POST" (pulls_url cfg) (githubToken cfg)
                  (Some (create_body cfg));
      match created with
      | JObj _ | JArr _ =>
          match property created "number" with
          | inr number =>
              if truthy_option number then
                html_url ← of_sum (property created "html_url");
                log LLog "github-create-pr-success"
                  [("number", template number); ("url", template html_url)]
              else log LLog "github-create-pr-success" [("responseType", "object")]
          | inl error => throw error
          end
      | JNull => log LLog "github-create-pr-success" [("responseType", "object")]
      | JBool _ => log LLog "github-create-pr-success" [("responseType", "boolean")]
      | JNum _ => log LLog "github-create-pr-success" [("responseType", "number")]
      | JStr _ => log LLog "github-create-pr-success" [("responseType", "string")]
      end
  end.

(** [main] from the line after [env-validation-complete] to its end. *)
Definition push_and_open (cfg : config) : M (list entry) unit :=
  repoRoot ← runCommand "git-root" "git rev-parse --show-toplevel";
  log LLog "git-root-confirmed" [("repoRoot", trim repoRoot)] ;;
  statusOutput ← runCommand "git-status-check" "git status --porcelain";
  (if negb (String.length (trim statusOutput) =? 0)%nat then
     let error :=
       Error "Working tree has uncommitted changes. Please commit or stash before creating a PR." in
     log LError "git-status-dirty"
       (("statusOutput", statusOutput) :: normalizeError error) ;;
     throw error
   else mret tt) ;;
  currentBranch ← runCommand "git-current-branch" "git rev-parse --abbrev-ref HEAD";
  log LLog "git-current-branch" [("currentBranch", trim currentBranch)] ;;
  remoteUrl ← runCommand "git-remote-url" ("git remote get-url " +:+ remote cfg);
  log LLog "git-remote-url-confirmed"
    [("remote", remote cfg); ("remoteUrl", trim remoteUrl)] ;;
  runCommand "git-fetch-base" ("git fetch " +:+ remote cfg +:+ " " +:+ base cfg) ;;
  try_catch
    (runCommand "git-ensure-ancestor"
       ("git merge-base --is-ancestor " +:+ remote cfg +:+ "/" +:+ base cfg
        +:+ " HEAD") ;;
     log LLog "git-ancestor-confirmed"
       [("baseRef", remote cfg +:+ "/" +:+ base cfg); ("headRef", "HEAD")])
    (λ error,
       log LError "git-ancestor-check-failed"
         (("message", "HEAD is not rebased onto the remote base branch")
            :: normalizeError error) ;;
       throw error) ;;
  baseCommit ← runCommand "git-base-commit"
                 ("git rev-parse " +:+ remote cfg +:+ "/" +:+ base cfg);
  log LLog "git-base-commit" [("baseCommit", trim baseCommit)] ;;
  headCommit ← runCommand "git-head-commit" "git rev-parse HEAD";
  log LLog "git-head-commit" [("headCommit", trim headCommit)] ;;
  remoteHeadCheck ← runCommand "git-remote-head-check"
                      ("git ls-remote --heads " +:+ remote cfg +:+ " " +:+ head cfg);
  log LLog "git-remote-head-check" [("remoteHeadCheck", trim remoteHeadCheck)] ;;
  runCommand "git-push-head"
    ("git push " +:+ remote cfg +:+ " HEAD:" +:+ head cfg) ;;
  existing ← request "github-list-pr" "GET" (list_url cfg) (githubToken cfg) None;
  update_or_create cfg existing ;;
  log LLog "complete"
    [("currentBranch", trim currentBranch);
     ("headRef", head cfg); ("baseRef", base cfg);
     ("draft", if isDraft cfg then "true" else "false")].

(** The whole script: [main] with its git and GitHub steps, and the
    [catch] that sets the exit status. *)
Definition script (argv : list string) (env : gmap string string)
  : Z * list entry :=
  run push_and_open argv env.
End Steps.

(** What [request] hands back, whatever it logs: the error of [fetch] or
    of [response.text()], the error for a status that is not ok, or the
    parsed body. *)
Definition answer (W : outside) (method url token : string) (body : option json)
  : thrown + json :=
  match fetch W method url token body with
  | inl e => inl e
  | inr response =>
      match text response with
      | inl e => inl e
      | inr t =>
          if ok response then
            inr (if truthy_string t then
                   match JSON_parse W t with
                   | inr value => value
                   | inl _ => JObj [("raw", JStr t)]
                   end
                 else JNull)
          else
            inl (Error ("GitHub API request failed: " +:+ method +:+ " " +:+ url
                        +:+ " -> " +:+ pretty (status response)))
      end
  end.

(** The configuration [main] hands on once every variable is accepted. *)
Definition config_of (env : gmap string string) : config :=
  let value name := trim (default "" (env !! name)) in
  Config (value "GITHUB_TOKEN") (value "GITHUB_API_URL") (value "GIT_REPO_OWNER")
         (value "GIT_REPO_NAME") (value "PR_BASE") (value "PR_HEAD")
         (value "PR_TITLE") (value "PR_BODY") (value "GIT_REMOTE_NAME")
         (bool_decide (draftFlag env = Some "true")).

(** The command lines that depend on the configuration. *)
Definition ancestor_command (cfg : config) : string :=
  "git merge-base --is-ancestor " +:+ remote cfg +:+ "/" +:+ base cfg +:+ " HEAD".

Definition push_command (cfg : config) : string :=
  "git push " +:+ remote cfg +:+ " HEAD:" +:+ head cfg.

(** The tree is clean: [git status --porcelain] prints nothing but white
    space. *)
Definition clean_tree (W : outside) : Prop :=
  ∃ output, execSync W "git-status-check" "git status --porcelain" = inr output
            ∧ trim output = "".

(** The push went through. *)
Definition pushed (W : outside) (cfg : config) : Prop :=
  ∃ output, execSync W "git-push-head" (push_command cfg) = inr output.

(** [git merge-base --is-ancestor] succeeded: HEAD descends from the
    remote base branch. *)
Definition descends (W : outside) (cfg : config) : Prop :=
  ∃ output, execSync W "git-ensure-ancestor" (ancestor_command cfg) = inr output.

(** What the request for the open pull requests of the head branch
    hands back. *)
Definition listed (W : outside) (cfg : config) : thrown + json :=
  answer W "GET" (list_url cfg) (githubToken cfg) None.

(** A non-empty array. *)
Definition first_item (value : json) : option json :=
  match value with JArr (item :: _) => Some item | _ => None end.

(** The pull request was updated ([PATCH] to the first of the listed
    ones) or, if none was listed, created ([POST]), and the server
    accepted it. *)
Definition accepted (W : outside) (cfg : config) (existing : json) : Prop :=
  match first_item existing with
  | Some pullRequest =>
      ∃ number updated,
        property pullRequest "number" = inr number
        ∧ answer W "PATCH" (pulls_url cfg +:+ "/" +:+ template number)
            (githubToken cfg) (Some (update_body cfg)) = inr updated
  | None =>
      ∃ created,
        answer W "POST" (pulls_url cfg) (githubToken cfg)
          (Some (create_body cfg)) = inr created
  end.

Definition delivered (W : outside) (cfg : config) : Prop :=
  ∃ existing, listed W cfg = inr existing ∧ accepted W cfg existing.

(** The steps that [update_or_create] can write to the console. *)
Definition update_or_create_steps : list string :=
  ["github-existing-pr-found"; "github-update-pr:request";
   "github-update-pr:response"; "github-update-pr:http-error";
   "github-update-pr:failure"; "github-update-pr-success";
   "github-no-existing-pr"; "github-create-pr:request";
   "github-create-pr:response"; "github-create-pr:http-error";
   "github-create-pr:failure"; "github-create-pr-success"].

(** The step names of the console lines. *)
Definition steps (out : list entry) : list string := map e_step out.

(** The steps [main] writes before it runs a command, and the lines it
    writes when every variable is accepted. *)
Definition validation_steps : list string :=
  ["start"; "env-present"; "env-missing"; "env-empty"; "env-placeholder";
   "env-validation-complete"].

Definition validation_lines (argv : list string) : list entry :=
  Entry LLog "start" [("argv", String.concat "," argv)]
    :: map (λ name, Entry LLog "env-present" [("name", name)]) required_names
    ++ [Entry LLog "env-validation-complete" [("requiredEnvCount", "8")]].

(** Every required variable has a value the validation accepts. *)
Definition validated (env : gmap string string) : Prop :=
  ∀ name, name ∈ required_names → ¬ rejected env name.

(** The steps of the three GitHub requests. *)
Definition request_steps : list string :=
  ["github-list-pr:request"; "github-update-pr:request"; "github-create-pr:request"].

(** The line the [catch] of the script writes. *)
Definition unhandled (r : outcome unit) : list entry :=
  match r with
  | Return _ => []
  | Throw error => [Entry LError "unhandled-failure" (normalizeError error)]
  end.

Definition exit_status (r : outcome unit) : Z :=
  match r with Return _ => 0 | Throw _ => 1 end.

(** A sample outside world: a clean tree whose commands all succeed, and
    a server that lists [listed] for any GET and accepts everything. *)
Definition obliging (listed : string) : outside := {|
  execSync := λ step _,
    inr (if String.eqb step "git-status-check" then "" else "ok
");
  fetch := λ method _ _ _,
    inr (Response 200 true (inr (if String.eqb method "GET" then listed else "{}")));
  JSON_parse := λ t,
    if String.eqb t "[]" then inr (JArr [])
    else if String.eqb t "[pr]"
         then inr (JArr [JObj [("number", JNum 7); ("html_url", JStr "https://example.test/pull/7")]])
         else inr (JObj [("number", JNum 8)])
|}.

(** The same world with uncommitted changes in the tree. *)
Definition dirty : outside := {|
  execSync := λ step _,
    inr (if String.eqb step "git-status-check" then " M README.md
" else "ok");
  fetch := fetch (obliging "[]");
  JSON_parse := JSON_parse (obliging "[]")
|}.

(** A server that answers every request with status 404 and a body that
    is not JSON. *)
Definition refusing : outside := {|
  execSync := execSync (obliging "[]");
  fetch := λ _ _ _ _, inr (Response 404 false (inr "Not Found"));
  JSON_parse := λ _, inl (ErrorObj "SyntaxError" "Unexpected token N in JSON at position 0")
|}.

(** A server whose answers are ok but not JSON. *)
Definition garbled : outside := {|
  execSync := execSync (obliging "[]");
  fetch := λ _ _ _ _, inr (Response 200 true (inr "<html>"));
  JSON_parse := JSON_parse refusing
|}.

(** An environment in which every required variable has a usable
    value. *)
Definition full_env : gmap string string :=
  list_to_map
    [("GITHUB_TOKEN", "t0ken"); ("GITHUB_API_URL", "https://api.example.test");
     ("GIT_REPO_OWNER", "octo"); ("GIT_REPO_NAME", "demo"); ("PR_BASE", "main");
     ("PR_HEAD", "feature/x"); ("PR_TITLE", "Add x"); ("PR_BODY", "Adds x.");
     ("GIT_REMOTE_NAME", "origin"); ("PR_DRAFT", " TRUE ")].

End CreatePrMain.

(** ** lib/session-recorder.ts: playback, teardown and overlapping sessions *)

Module Sessions.
Import MediaRecorder Recorder.

(** The negotiated format stays as it is. *)
Definition same_mimeType : relation World :=
  λ w w', mimeType (this w') = mimeType (this w).

(** The platform calls made between two worlds [w] and [w']: what the
    journal of [w'] has after that of [w]. *)
Definition calls_since (w w' : World) (cs : list call) : Prop :=
  calls_of (journal (page w')) = calls_of (journal (page w)) ++ cs.

(** The console steps written between two worlds. *)
Definition console_of (j : list event) : list string :=
  omap (λ e, match e with Console line => Some (e_step line) | Platform_call _ => None end) j.

Definition console_since (w w' : World) (steps : list string) : Prop :=
  console_of (journal (page w')) = console_of (journal (page w)) ++ steps.



(** What [start] rethrows. *)
Definition rethrown (error : thrown) : thrown :=
  if instanceofError error then error else Error "Session recorder failed to start.".

(** A browser whose user refuses the microphone. *)
Definition denied : Platform := {|
  getUserMedia := Some (ErrorObj "NotAllowedError" "Permission denied");
  newAudioContext := None;
  resume := None;
  createMediaStreamDestination := None;
  createMediaStreamSource := None;
  connect := None;
  isTypeSupported := λ _, inr true;
  newMediaRecorder := λ mime, inr (default "" mime);
  now := 1500;
  recorder_start := None;
  recorder_stop := None;
  disconnect := None;
  stopTracks := None;
  close := Closes;
  atob := Some (λ _, inr []);
  decodeAudioData := λ _, inr 0%Q;
  createBufferSource := None;
  source_connect := None;
  source_start := None
|}.

(** A browser that decodes every payload to three code units, one of
    them above 255, and to a buffer of 1.2345 s; its clock reads 3500.5,
    a little over two seconds after the sample recordings began. *)
Definition speaker : Platform := {|
  getUserMedia := None;
  newAudioContext := None;
  resume := None;
  createMediaStreamDestination := None;
  createMediaStreamSource := None;
  connect := None;
  isTypeSupported := λ _, inr true;
  newMediaRecorder := λ mime, inr (default "" mime);
  now := 7001 # 2;
  recorder_start := None;
  recorder_stop := None;
  disconnect := None;
  stopTracks := None;
  close := Closes;
  atob := Some (λ _, inr [82; 73; 300]%N);
  decodeAudioData := λ _, inr (12345 # 10000);
  createBufferSource := None;
  source_connect := None;
  source_start := None
|}.

(** The sample recording after the encoder has stopped on its own. *)
Definition halted_world : World := step (Halt 4) recording_world.

(** The sample recording with two chunks after [stop()] has been called
    and before the encoder's [stop] event. *)
Definition stopping_world : World :=
  step (Stop (granting ["audio/ogg"] "")) world_with_chunks.

End Sessions.

(** ** lib/audio-bridge.ts: sample helper modules *)

Module Helpers.
Import AudioBridge.

(** A helper module with all three functions: calibration answers a
    tenth of the seconds asked for, recording fails, encoding answers a
    fixed string. *)
Definition full_module : legacy nat := {|
  m_calibrateRMS := Function (λ seconds, inr (seconds / 10)%Q);
  m_recordUntilSilence := Function (λ _, inl (Error "Microphone busy"));
  m_blobToBase64 := Function (λ _, inr "UklG")
|}.

(** Only the location without extension resolves. *)
Definition second_only (candidate : string) : thrown + legacy nat :=
  if String.eqb candidate "../src/lib/audio" then inr full_module
  else inl (Error ("Cannot find module " +:+ candidate)).

(** Both locations resolve, to different modules. *)
Definition both (candidate : string) : thrown + legacy nat :=
  if String.eqb candidate "../src/lib/audio.js" then inr full_module
  else inr (Legacy Absent Absent Absent).

(** No location resolves; the second failure is no [Error]. *)
Definition neither (candidate : string) : thrown + legacy nat :=
  if String.eqb candidate "../src/lib/audio.js"
  then inl (Error "Cannot find module ../src/lib/audio.js")
  else inl (NonError "42").

(** What a function of the helper module hands back, as the outcome of
    the entry point that awaits it. *)
Definition awaited {A} (r : thrown + A) : outcome A :=
  match r with inr v => Return v | inl e => Throw e end.
End Helpers.
(** ** Facts about strings *)

Module JsStringFacts.
Import JsString.

Lemma isUpper_bound c : isUpper c = true → (N_of_ascii c + 32 < 256)%N.
Proof.
  unfold isUpper; cbv zeta.
  rewrite orb_true_iff, !andb_true_iff, !N.leb_le. lia.
Qed.

Lemma lowerChar_code c :
  isUpper c = true → N_of_ascii (lowerChar c) = (N_of_ascii c + 32)%N.
Proof.
  intros Hc. unfold lowerChar. rewrite Hc.
  apply N_ascii_embedding, isUpper_bound, Hc.
Qed.

Lemma lowerChar_same_letter c d :
  isUpper d = false → lowerChar c = d ↔ same_letter c d.
Proof.
  intros Hd. split.
  - intros <-. destruct (isUpper c) eqn:Hc.
    + right; left. split; [done | by apply lowerChar_code].
    + left. unfold lowerChar. by rewrite Hc.
  - intros [-> | [[Hc Hcode] | [Hup _]]].
    + unfold lowerChar. by rewrite Hd.
    + unfold lowerChar. rewrite Hc, <- Hcode. apply ascii_N_embedding.
    + congruence.
Qed.

Lemma toLowerCase_eq_ignore_case a b :
  all_lower b → toLowerCase a = b ↔ eq_ignore_case a b.
Proof.
  unfold all_lower. revert b.
  induction a as [| c a IH]; intros [| d b] Hb; simpl;
    try (split; [done | tauto]).
  simpl in Hb. apply Forall_cons in Hb as [Hd Hb].
  rewrite <- (lowerChar_same_letter c d Hd), <- (IH b Hb).
  split; [intros [= -> ->]; done | intros [-> ->]; done].
Qed.

Lemma includes_spec xs s : includes xs s = true ↔ s ∈ xs.
Proof.
  unfold includes. rewrite existsb_exists. split.
  - intros (x & Hin & Heq). apply String.eqb_eq in Heq as ->.
    by apply list_elem_of_In.
  - intros Hin. exists s. split; [by apply list_elem_of_In | apply String.eqb_refl].
Qed.

Lemma length_zero (s : string) : (String.length s =? 0)%nat = true ↔ s = "".
Proof. destruct s; simpl; split; done. Qed.

End JsStringFacts.

(** ** scripts/create-pr.mjs: validation of the environment *)

Module CreatePrFacts.
Import JsString JsStringFacts CreatePr.

Lemma placeholders_lower p : p ∈ placeholders → all_lower p.
Proof.
  unfold placeholders. rewrite !elem_of_cons, elem_of_nil.
  intros [-> | [-> | [-> | []]]]; unfold all_lower; simpl;
    repeat constructor.
Qed.

Lemma placeholder_test value :
  includes placeholders (toLowerCase value) = true
  ↔ ∃ p, p ∈ placeholders ∧ eq_ignore_case value p.
Proof.
  rewrite includes_spec. split.
  - intros Hin. exists (toLowerCase value). split; [done |].
    by apply toLowerCase_eq_ignore_case; [apply placeholders_lower |].
  - intros (p & Hin & Heq).
    apply toLowerCase_eq_ignore_case in Heq as ->; [done |].
    by apply placeholders_lower.
Qed.

(** The two ways [requireEnv] can end. *)
Lemma requireEnv_cases env name out :
  (rejected env name ∧ ∃ e out', requireEnv env name out = (Throw e, out'))
  ∨ (¬ rejected env name
     ∧ ∃ raw out', env !! name = Some raw
                   ∧ requireEnv env name out = (Return (trim raw), out')).
Proof.
  unfold rejected, requireEnv. destruct (env !! name) as [raw |]; [| left; eauto].
  destruct (String.length (trim raw) =? 0)%nat eqn:Hlen.
  { left. split; [left; by apply length_zero | eauto]. }
  destruct (includes placeholders (toLowerCase (trim raw))) eqn:Hinc.
  { left. split; [right; by apply placeholder_test | eauto]. }
  right. split; [| eauto].
  intros [Hempty | Hph].
  - apply length_zero in Hempty. congruence.
  - apply placeholder_test in Hph. congruence.
Qed.

Lemma requireEnv_rejected env name out :
  rejected env name → ∃ e out', requireEnv env name out = (Throw e, out').
Proof. destruct (requireEnv_cases env name out) as [[_ H] | [H _]]; tauto. Qed.

Lemma requireEnv_returns env name out v out' :
  requireEnv env name out = (Return v, out') → ¬ rejected env name.
Proof.
  intros Heq Hrej.
  destruct (requireEnv_rejected env name out Hrej) as (e & o & Hthrow).
  congruence.
Qed.

(** [main] fails as soon as one of the nine names is refused. *)
Lemma main_rejected after argv env name :
  name ∈ required_names → rejected env name →
  ∃ e out, main after argv env [] = (Throw e, out).
Proof.
  unfold required_names. rewrite !elem_of_cons, elem_of_nil. intros Hin Hrej.
  unfold main, mbind, M_bind, bind. simpl.
  repeat match goal with
    | |- context [requireEnv env ?n ?o] =>
        let E := fresh "E" in
        destruct (requireEnv env n o) as [[? | ?] ?] eqn:E;
        [apply requireEnv_returns in E | eauto]
    end.
  exfalso. intuition (subst; tauto).
Qed.

(** C9. For every name, [requireEnv] throws exactly when the variable is
    unset, its trimmed value is empty, or its trimmed value equals
    [default], [changeme] or [placeholder] up to case; in every other case
    it returns the trimmed value. A throw for one of the names the script
    requires ends the process with exit status 1. *)
Theorem requireEnv_rejects_exactly env name out :
  (rejected env name ↔ ∃ e, (requireEnv env name out).1 = Throw e)
  ∧ (¬ rejected env name →
     ∃ raw, env !! name = Some raw
            ∧ (requireEnv env name out).1 = Return (trim raw))
  ∧ (∀ after argv, name ∈ required_names → rejected env name →
     (run after argv env).1 = 1%Z).
Proof.
  split; [| split].
  - destruct (requireEnv_cases env name out)
      as [[Hr (e & o & ->)] | [Hn (raw & o & _ & ->)]]; simpl.
    + split; eauto.
    + split; [tauto | intros [e He]; discriminate].
  - intros Hn.
    destruct (requireEnv_cases env name out)
      as [[Hr _] | [_ (raw & o & Hl & ->)]]; [tauto | eauto].
  - intros after argv Hin Hrej.
    destruct (main_rejected after argv env name Hin Hrej) as (e & o & Heq).
    unfold run. by rewrite Heq.
Qed.

Lemma requireEnv_rejects_exactly_witness :
  (∃ e, (requireEnv sample_env "GITHUB_TOKEN" []).1 = Throw e)
  ∧ (requireEnv sample_env "PR_BASE" []).1 = Return "main"
  ∧ (run (λ _, mret tt) [] sample_env).1 = 1%Z.
Proof.
  split; [| split].
  - apply (requireEnv_rejects_exactly sample_env "GITHUB_TOKEN" []).
    right. exists "changeme". split; [set_solver |].
    vm_compute. tauto.
  - destruct (requireEnv_rejects_exactly sample_env "PR_BASE" [])
      as (_ & H & _).
    destruct H as (raw & Hl & ->).
    + intros [Hempty | (p & Hin & Heq)]; [discriminate |].
      unfold placeholders in Hin.
      rewrite !elem_of_cons, elem_of_nil in Hin.
      destruct Hin as [-> | [-> | [-> | []]]]; vm_compute in Heq; tauto.
    + vm_compute in Hl. by injection Hl as <-.
  - apply (requireEnv_rejects_exactly sample_env "GITHUB_TOKEN" []).
    + set_solver.
    + right. exists "changeme". split; [set_solver |].
      vm_compute. tauto.
Defined.

End CreatePrFacts.

(** ** The effect monad *)

Module JsFacts.

Ltac js_unfold :=
  unfold of_sum in *;
  unfold mbind, M_bind, mret, M_ret, bind, ret, throw, try_catch, get,
    modify in *.

Section Run.
Context {S A B : Type}.
Implicit Types (m : M S A) (k : A → M S B) (s : S).

Lemma bind_Return m k s a s' :
  m s = (Return a, s') → (m ≫= k) s = k a s'.
Proof. js_unfold. by intros ->. Qed.

Lemma bind_Throw m k s e s' :
  m s = (Throw e, s') → (m ≫= k) s = (Throw e, s').
Proof. js_unfold. by intros ->. Qed.

Lemma try_catch_Return m (h : thrown → M S A) s a s' :
  m s = (Return a, s') → try_catch m h s = (Return a, s').
Proof. js_unfold. by intros ->. Qed.

Lemma try_catch_Throw m (h : thrown → M S A) s e s' :
  m s = (Throw e, s') → try_catch m h s = h e s'.
Proof. js_unfold. by intros ->. Qed.
End Run.

(** *** Relations that every step of a computation respects

    For a preorder [R], [respects R m] follows the structure of [m]. *)

Section Respects.
Context {S : Type} (R : relation S) `{!PreOrder R}.

Lemma respects_ret {A} (a : A) : respects R (mret a : M S A).
Proof. intros s. simpl. reflexivity. Qed.

Lemma respects_throw {A} e : respects R (throw e : M S A).
Proof. intros s. simpl. reflexivity. Qed.

Lemma respects_get : respects R (get : M S S).
Proof. intros s. simpl. reflexivity. Qed.

Lemma respects_of_sum {A} (r : thrown + A) : respects R (of_sum r : M S A).
Proof. destruct r; [apply respects_throw | apply respects_ret]. Qed.

Lemma respects_modify f : (∀ s, R s (f s)) → respects R (modify f).
Proof. intros H s. apply H. Qed.

Lemma respects_bind {A B} (m : M S A) (k : A → M S B) :
  respects R m → (∀ a, respects R (k a)) → respects R (m ≫= k).
Proof.
  intros Hm Hk s. specialize (Hm s). js_unfold.
  destruct (m s) as [[a | e] s']; simpl in *; [| done].
  etrans; [exact Hm | apply Hk].
Qed.

Lemma respects_try_catch {A} (m : M S A) h :
  respects R m → (∀ e, respects R (h e)) → respects R (try_catch m h).
Proof.
  intros Hm Hh s. specialize (Hm s). js_unfold.
  destruct (m s) as [[a | e] s']; simpl in *; [done |].
  etrans; [exact Hm | apply Hh].
Qed.
End Respects.

End JsFacts.

(** ** lib/audio-bridge.ts: what the entry points do when the helper module
    or one of its functions is missing *)

Module AudioBridgeFacts.
Import JsFacts AudioBridge.

Section Bridge.
Context {Args : Type} (import : string → thrown + legacy Args).

Lemma import_loop_unresolved cs last out :
  (∀ c, c ∈ cs → ∃ e, import c = inl e) →
  ∃ last' out', import_loop import cs last out = (Return (inr last'), out').
Proof.
  revert last out. induction cs as [| c cs IH]; intros last out Hall.
  - by eexists _, _.
  - destruct (Hall c) as [e He]; [by left |].
    destruct (IH (Some e)
                ((out ++ [Entry LLog "attempt-import" [("candidate", c)]])
                   ++ [Entry LError "import-failed"
                         [("candidate", c); ("error", message_of (Some e))]]))
      as (last' & out' & Heq).
    { intros c' Hin. apply Hall. by right. }
    exists last', out'. simpl. unfold logAudioBridgeDiagnostic.
    js_unfold. rewrite He. exact Heq.
Qed.

Lemma import_loop_resolves before c after module last out :
  (∀ b, b ∈ before → ∃ e, import b = inl e) →
  import c = inr module →
  ∃ out', import_loop import (before ++ c :: after) last out
          = (Return (inl module), out').
Proof.
  revert last out. induction before as [| b before IH]; intros last out Hall Hc.
  - simpl. unfold logAudioBridgeDiagnostic. js_unfold. rewrite Hc. by eexists.
  - destruct (Hall b) as [e He]; [by left |].
    simpl. unfold logAudioBridgeDiagnostic. js_unfold. rewrite He.
    apply IH; [| done]. intros b' Hin. apply Hall. by right.
Qed.

Lemma getModule_unresolved out :
  unresolved import →
  ∃ out', getModule import out = (Throw (Error errorMessage), out').
Proof.
  intros Hnone. unfold getModule.
  destruct (import_loop_unresolved candidates None out Hnone)
    as (last' & out' & Heq).
  erewrite bind_Return by exact Heq.
  unfold logAudioBridgeDiagnostic. js_unfold. by eexists.
Qed.

Lemma getModule_resolves module out :
  resolves_to import module →
  ∃ out', getModule import out = (Return module, out').
Proof.
  intros (before & c & after & Hcs & Hall & Hc). unfold getModule. rewrite Hcs.
  destruct (import_loop_resolves before c after module None out Hall Hc)
    as (out' & Heq).
  erewrite bind_Return by exact Heq. by eexists.
Qed.

(** C8, as the code has it. When no candidate location resolves, each of
    the three entry points fails with the error of [getModule], whose
    message names the missing helpers. When a module resolves but lacks
    the function, [recordUntilSilence] fails with [Audio recording
    unavailable], while [calibrateRMS] returns 0 and [blobToBase64]
    returns the empty string. *)
Theorem bridge_missing_module_or_function seconds args blob out :
  (unresolved import →
     (calibrateRMS import seconds out).1 = Throw (Error errorMessage)
     ∧ (recordUntilSilence import args out).1 = Throw (Error errorMessage)
     ∧ (blobToBase64 import blob out).1 = Throw (Error errorMessage)
     ∧ descriptive (Error errorMessage))
  ∧ (∀ module, resolves_to import module →
       (isFunction (m_recordUntilSilence module) = false →
          (recordUntilSilence import args out).1
            = Throw (Error "Audio recording unavailable")
          ∧ descriptive (Error "Audio recording unavailable"))
       ∧ (isFunction (m_calibrateRMS module) = false →
            (calibrateRMS import seconds out).1 = Return 0%Q)
       ∧ (isFunction (m_blobToBase64 module) = false →
            (blobToBase64 import blob out).1 = Return "")).
Proof.
  split.
  - intros Hnone. destruct (getModule_unresolved out Hnone) as (out' & Heq).
    unfold calibrateRMS, recordUntilSilence, blobToBase64.
    rewrite !(bind_Throw _ _ _ _ _ Heq). repeat split; try done.
    by eexists _, _.
  - intros module Hres.
    destruct (getModule_resolves module out Hres) as (out' & Heq).
    unfold calibrateRMS, recordUntilSilence, blobToBase64.
    rewrite !(bind_Return _ _ _ _ _ Heq).
    repeat split.
    + by destruct (m_recordUntilSilence module).
    + by eexists _, _.
    + by destruct (m_calibrateRMS module).
    + by destruct (m_blobToBase64 module).
Qed.
End Bridge.

Lemma bare_module_resolves : resolves_to (λ _, inr bare_module) bare_module.
Proof. exists [], "../src/lib/audio.js", ["../src/lib/audio"]. set_solver. Qed.

Lemma bridge_missing_module_or_function_witness :
  (calibrateRMS (Args := unit) (λ _, inl (Error "Cannot find module")) None []).1
    = Throw (Error errorMessage)
  ∧ (recordUntilSilence (λ _, inr bare_module) tt []).1
    = Throw (Error "Audio recording unavailable")
  ∧ (blobToBase64 (λ _, inr bare_module) (Blob.mk [] "") []).1 = Return "".
Proof.
  split; [| split].
  - apply (bridge_missing_module_or_function
             (Args := unit) (λ _, inl (Error "Cannot find module"))
             None tt (Blob.mk [] "") []).
    intros c _. by eexists.
  - destruct (bridge_missing_module_or_function
                (λ _, inr bare_module) None tt (Blob.mk [] "") [])
      as [_ H].
    destruct (H bare_module bare_module_resolves) as (Hrec & _ & _).
    by destruct Hrec.
  - destruct (bridge_missing_module_or_function
                (λ _, inr bare_module) None tt (Blob.mk [] "") [])
      as [_ H].
    destruct (H bare_module bare_module_resolves) as (_ & _ & Hb64).
    by apply Hb64.
Defined.

(** C8 as stated fails: with a helper module that resolves but has no
    [calibrateRMS], the entry point returns 0 instead of failing, and
    [blobToBase64] likewise returns the empty string. *)
Lemma calibrateRMS_without_function_returns :
  resolves_to (λ _, inr bare_module) bare_module
  ∧ isFunction (m_calibrateRMS bare_module) = false
  ∧ (calibrateRMS (λ _, inr bare_module) None []).1 = Return 0%Q
  ∧ ¬ fails_descriptively (calibrateRMS (λ _, inr bare_module) None [])
  ∧ ¬ fails_descriptively (blobToBase64 (λ _, inr bare_module) (Blob.mk [] "") []).
Proof.
  split; [apply bare_module_resolves |].
  repeat split; try reflexivity; intros (e & He & _); vm_compute in He; discriminate.
Qed.

End AudioBridgeFacts.

(** ** lib/session-recorder.ts *)

Module RecorderFacts.
Import JsFacts MediaRecorder Recorder.

Ltac unfold_primitives :=
  unfold do_getUserMedia, do_newAudioContext, do_createMediaStreamDestination,
    do_createMediaStreamSource, do_newMediaRecorder, do_recorder_start,
    do_recorder_stop, do_stopTracks, do_close, update_recorder, invoke,
    invoke_for, fresh_handle, recorderLog, emit in *.

(** Reduction that only opens the records of the model, never the maps
    and sets inside them. *)
Ltac world_simpl :=
  cbn [this page set_this set_page with_liveStreams with_openContexts
       with_recorders with_nextHandle with_journal journal_add
       hasWindow liveStreams openContexts recorders nextHandle journal
       audioCtx destination micStream micSource recorder chunks mimeType
       startedAt fst snd from_option first_truthy or_else truthy_opt
       MediaRecorder.state MediaRecorder.mimeType MediaRecorder.ondataavailable
       MediaRecorder.onstop with_state with_ondataavailable with_onstop
       instanceofError formatRecorderError negb] in *.

(** *** The journal *)

Lemma journal_add_nil w : journal_add [] w = w.
Proof.
  destruct w as [t [hw ls oc rs nh j]]. unfold journal_add, set_page, with_journal.
  simpl. by rewrite app_nil_r.
Qed.

Lemma journal_add_add j1 j2 w :
  journal_add j2 (journal_add j1 w) = journal_add (j1 ++ j2) w.
Proof.
  destruct w as [t [hw ls oc rs nh j]]. unfold journal_add, set_page, with_journal.
  simpl. by rewrite app_assoc.
Qed.

Lemma probes_of_app j1 j2 : probes_of (j1 ++ j2) = probes_of j1 ++ probes_of j2.
Proof. apply omap_app. Qed.

Lemma constructions_of_app j1 j2 :
  constructions_of (j1 ++ j2) = constructions_of j1 ++ constructions_of j2.
Proof. apply omap_app. Qed.

Lemma calls_of_app j1 j2 : calls_of (j1 ++ j2) = calls_of j1 ++ calls_of j2.
Proof. apply omap_app. Qed.

(** *** Format negotiation *)

Lemma probe_run P c w :
  probe P c w
  = (Return (supports P c),
     journal_add [Platform_call (IsTypeSupported c); Console (probe_entry P c)] w).
Proof.
  unfold probe, supports, probe_entry. unfold_primitives. js_unfold.
  destruct w as [t [hw ls oc rs nh j]].
  destruct (isTypeSupported P c) as [e | b]; simpl;
    unfold journal_add, set_page, with_journal; simpl;
    by rewrite <- app_assoc.
Qed.

Lemma find_supported_run P cs w :
  find_supported P cs w
  = (Return (find (supports P) cs), journal_add (probe_journal P cs) w).
Proof.
  revert w. induction cs as [| c cs IH]; intros w.
  - simpl. by rewrite journal_add_nil.
  - cbn [find_supported find probe_journal].
    erewrite bind_Return by apply probe_run.
    destruct (supports P c).
    + done.
    + rewrite IH, journal_add_add. done.
Qed.

Lemma probes_of_probe_journal P cs : probes_of (probe_journal P cs) = probed P cs.
Proof.
  induction cs as [| c cs IH]; [done |].
  cbn. destruct (supports P c); [done |]. by rewrite <- IH.
Qed.

Lemma constructions_of_probe_journal P cs : constructions_of (probe_journal P cs) = [].
Proof.
  induction cs as [| c cs IH]; [done |].
  cbn. by destruct (supports P c).
Qed.

Lemma first_supported_truthy P c : first_supported P = Some c → truthy_string c = true.
Proof.
  unfold first_supported. intros Hf. apply find_some in Hf as [Hin _].
  unfold SUPPORTED_MIME_TYPES in Hin. simpl in Hin.
  destruct Hin as [<- | [<- | [<- | [<- | []]]]]; reflexivity.
Qed.

Lemma first_supported_none P :
  first_supported P = None ↔ ∀ c, c ∈ SUPPORTED_MIME_TYPES → supports P c = false.
Proof.
  unfold first_supported. split.
  - intros Hf c Hin. apply list_elem_of_In in Hin.
    by apply (find_none _ _ Hf).
  - intros Hall. destruct (find _ _) as [c |] eqn:Hf; [| done].
    apply find_some in Hf as [Hin Hs].
    rewrite Hall in Hs; [done | by apply list_elem_of_In].
Qed.

(** *** [cleanup] *)

Lemma cleanup_run P w :
  ∃ w' j,
    cleanup P w = (Return tt, w')
    ∧ this w' = Fields None None None None None [] (mimeType (this w)) 0
    ∧ hasWindow (page w') = hasWindow (page w)
    ∧ recorders (page w') = recorders (page w)
    ∧ nextHandle (page w') = nextHandle (page w)
    ∧ journal (page w') = journal (page w) ++ j
    ∧ probes_of j = [] ∧ constructions_of j = []
    ∧ liveStreams (page w') ⊆ liveStreams (page w)
    ∧ openContexts (page w') ⊆ openContexts (page w)
    ∧ (∀ s, micStream (this w) = Some s → stopTracks P = None →
            liveStreams (page w') = liveStreams (page w) ∖ {[s]})
    ∧ (∀ c, audioCtx (this w) = Some c → close P = Closes →
            openContexts (page w') = openContexts (page w) ∖ {[c]})
    ∧ (micStream (this w) = None → liveStreams (page w') = liveStreams (page w))
    ∧ (audioCtx (this w) = None → openContexts (page w') = openContexts (page w)).
Proof.
  destruct w as [[ac de ms so re ch mi st] [hw ls oc rs nh j]].
  unfold cleanup. unfold_primitives. js_unfold.
  destruct so as [so |], de as [de |], ms as [ms |], ac as [ac |];
    destruct (disconnect P), (stopTracks P), (close P); world_simpl;
    eexists _, _; (split; [reflexivity |]);
    world_simpl; rewrite <- ?app_assoc;
    repeat split;
    first [ done
          | by intros ? [= <-] ?
          | by intros ? ? [=]
          | by intros ? [=] ?
          | apply subseteq_difference_l; done ].
Qed.

(** *** [start] *)

Lemma start_without_window P w :
  hasWindow (page w) = false →
  start P w = (Throw (Error "SessionRecorder unavailable"), w).
Proof. intros Hw. unfold start. js_unfold. by rewrite Hw. Qed.

Lemma start_already_recording P w :
  hasWindow (page w) = true → already_recording w = true →
  start P w
  = (Return tt,
     journal_add [Console (Entry LLog "start:already-recording" [])] w).
Proof. intros Hw Hr. unfold start. js_unfold. by rewrite Hw, Hr. Qed.

(** A [start] that is granted everything: the handles it takes, the
    recorder it makes and what it writes to the journal. *)
Lemma start_granted_run P w :
  hasWindow (page w) = true → already_recording w = false → encoder_granted P →
  ∃ w' j attr,
    let n := nextHandle (page w) in
    start P w = (Return tt, w')
    ∧ newMediaRecorder P (first_supported P) = inr attr
    ∧ this w' = Fields (Some (1 + n)) (Some (2 + n)) (Some n) (Some (3 + n))
                       (Some (4 + n)) []
                       (first_truthy (first_supported P) attr "audio/webm") (now P)
    ∧ recorders (page w')
      = <[4 + n := MediaRecorder.mk recording attr true None]> (recorders (page w))
    ∧ liveStreams (page w') = {[n]} ∪ liveStreams (page w)
    ∧ openContexts (page w') = {[1 + n]} ∪ openContexts (page w)
    ∧ hasWindow (page w') = true
    ∧ nextHandle (page w') = 5 + n
    ∧ journal (page w') = journal (page w) ++ j
    ∧ probes_of j = probed P SUPPORTED_MIME_TYPES
    ∧ constructions_of j = [first_supported P].
Proof.
  intros Hw Hr [[H1 H2 H3 H4 H5 H6] [attr Hc] Hs].
  pose proof (first_supported_truthy P) as Htruthy.
  unfold start. js_unfold. rewrite Hw, Hr.
  unfold_primitives. js_unfold. rewrite H1, H2, H3, H4, H5, H6, Hs.
  world_simpl. rewrite find_supported_run. fold (first_supported P).
  destruct (first_supported P) as [c |] eqn:Hf; world_simpl;
    rewrite ?(Htruthy c eq_refl), Hc; world_simpl;
    rewrite lookup_insert_eq; world_simpl;
    eexists _, _, attr; (split; [reflexivity |]); world_simpl;
    rewrite !alter_insert_eq, <- ?app_assoc; world_simpl;
    (repeat split; try done);
    rewrite ?probes_of_app, ?constructions_of_app,
      ?probes_of_probe_journal, ?constructions_of_probe_journal;
    simpl; by rewrite ?app_nil_r.
Qed.

(** *** What every operation leaves as it is *)

Ltac unfold_relations :=
  unfold same_window, stays_unstarted, stays_without_graph,
    keeps_nonzero_chunks, recorders_grow, handle_kept_or_dropped,
    nonzero_chunks in *.

Global Instance same_window_preorder : PreOrder same_window.
Proof. split; repeat intros ?; unfold_relations; congruence. Qed.

Global Instance stays_unstarted_preorder : PreOrder stays_unstarted.
Proof. split; repeat intros ?; unfold_relations; auto. Qed.

Global Instance stays_without_graph_preorder : PreOrder stays_without_graph.
Proof. split; repeat intros ?; unfold_relations; auto. Qed.

Global Instance keeps_nonzero_chunks_preorder : PreOrder keeps_nonzero_chunks.
Proof. split; repeat intros ?; unfold_relations; auto. Qed.

Global Instance recorders_grow_preorder : PreOrder recorders_grow.
Proof. split; repeat intros ?; unfold_relations; auto. Qed.

Global Instance handle_kept_or_dropped_preorder : PreOrder handle_kept_or_dropped.
Proof.
  split; [by left |].
  intros x y z [Hxy | Hxy] [Hyz | Hyz]; unfold_relations;
    [left | right | right | right]; congruence.
Qed.

(** Goes through a computation along its structure; [tac] settles the
    updates of the store. *)
Ltac respects_with tac :=
  unfold_primitives;
  repeat first
    [ apply respects_ret; tc_solve
    | apply respects_throw; tc_solve
    | apply respects_get; tc_solve
    | apply respects_of_sum; tc_solve
    | apply respects_bind; [tc_solve | | intros ?]
    | apply respects_try_catch; [tc_solve | | intros ?]
    | apply respects_modify; intros ?; tac
    | match goal with
      | |- respects _ (match ?x with _ => _ end) => destruct x
      | |- respects _ (if ?b then _ else _) => destruct b
      end ].

Ltac settle_update :=
  unfold_relations; world_simpl;
  first [ done | by left | by right | tauto | by intros; constructor
        | intros rec; rewrite ?lookup_alter_is_Some, ?lookup_insert_is_Some';
          tauto ].

Section Respected.
Context (R : relation World) `{!PreOrder R}.
Hypothesis R_stable : stable R.

Ltac stable_update :=
  first [ apply (stable_journal R R_stable)
        | apply (stable_liveStreams R R_stable)
        | apply (stable_openContexts R R_stable)
        | apply (stable_nextHandle R R_stable)
        | apply (stable_alter R R_stable)
        | apply (stable_insert R R_stable)
        | apply (stable_reset R R_stable) ].

Lemma respects_cleanup P : respects R (cleanup P).
Proof.
  unfold cleanup. respects_with stable_update.
Qed.

Lemma respects_probe P c : respects R (probe P c).
Proof. unfold probe. respects_with stable_update. Qed.

Lemma respects_find_supported P cs : respects R (find_supported P cs).
Proof.
  induction cs as [| c cs IH]; simpl; [by apply respects_ret |].
  apply respects_bind; [done | apply respects_probe |].
  intros []; [by apply respects_ret | apply IH].
Qed.

Lemma respects_stop P : respects R (stop P).
Proof.
  unfold stop.
  respects_with stable_update.
Qed.

Lemma respects_cancel P : respects R (cancel P).
Proof.
  unfold cancel.
  respects_with stable_update.
Qed.

Lemma respects_play P base64 : respects R (playAssistantBase64 P base64).
Proof.
  unfold playAssistantBase64, base64ToArrayBuffer, playAudioBuffer.
  respects_with stable_update.
Qed.

Lemma respects_halt rec : respects R (halt_recorder rec).
Proof. unfold halt_recorder. respects_with stable_update. Qed.

Lemma respects_onstop_handler P : respects R (onstop_handler P).
Proof.
  unfold onstop_handler.
  apply respects_bind; [done | by apply respects_get | intros w].
  apply respects_bind; [done | apply respects_cleanup | intros _].
  respects_with stable_update.
Qed.

Hypothesis push : ∀ w d,
  Blob.size d ≠ 0 →
  R w (set_this (λ t, Fields (audioCtx t) (destination t) (micStream t)
                             (micSource t) (recorder t) (chunks t ++ [d])
                             (mimeType t) (startedAt t)) w).

Lemma respects_ondataavailable_handler data :
  respects R (ondataavailable_handler data).
Proof.
  unfold ondataavailable_handler. destruct data as [d |]; [| by apply respects_ret].
  destruct (Blob.size d =? 0)%nat eqn:Hsize; [by apply respects_ret |].
  apply respects_modify. intros w. apply push. by apply Nat.eqb_neq.
Qed.

Lemma respects_fire_dataavailable rec data :
  respects R (fire_dataavailable rec data).
Proof.
  unfold fire_dataavailable.
  apply respects_bind; [done | by apply respects_get | intros w].
  destruct (recorders (page w) !! rec) as [r |]; [| by apply respects_ret].
  destruct (ondataavailable r);
    [apply respects_ondataavailable_handler | by apply respects_ret].
Qed.

Lemma respects_fire_stop P rec : respects R (fire_stop P rec).
Proof.
  unfold fire_stop.
  apply respects_bind; [done | by apply respects_get | intros w].
  destruct (recorders (page w) !! rec) as [r |]; [| by apply respects_ret].
  destruct (onstop r); [| by apply respects_ret].
  apply respects_bind; [done | apply respects_onstop_handler | intros res].
  respects_with stable_update.
Qed.

(** Every call and event other than [start]. *)
Lemma respects_step a w : (∀ P, a ≠ Start P) → R w (step a w).
Proof.
  intros Hns. destruct a as [P | P | P | P b | rec data | P rec | rec]; simpl.
  - by destruct (Hns P).
  - apply respects_stop.
  - apply respects_cancel.
  - apply respects_play.
  - apply respects_fire_dataavailable.
  - apply respects_fire_stop.
  - apply respects_halt.
Qed.

(** [start] as well, when [R] also holds across the assignment of the
    fields. *)
Hypothesis assign : ∀ w ctx dest stream source rec mime t0,
  R w (set_this (λ _, Fields (Some ctx) (Some dest) (Some stream) (Some source)
                             (Some rec) [] mime t0) w).

Lemma respects_start P : respects R (start P).
Proof.
  unfold start.
  apply respects_bind; [done | by apply respects_get | intros w].
  destruct (negb (hasWindow (page w))); [by apply respects_throw |].
  destruct (already_recording w).
  { respects_with stable_update. }
  apply respects_bind; [done | respects_with stable_update | intros _].
  apply respects_try_catch; [done | |].
  - respects_with ltac:(first [stable_update | apply assign]);
      try apply respects_find_supported.
  - intros e. respects_with stable_update.
Qed.
End Respected.

(** *** The relations are stable *)

Ltac stable_tac :=
  split; intros; unfold_relations; world_simpl;
  try first [ done | by left | by right | tauto ].

Lemma same_window_stable : stable same_window.
Proof. stable_tac. Qed.

Lemma stays_unstarted_stable : stable stays_unstarted.
Proof. stable_tac. Qed.

Lemma stays_without_graph_stable : stable stays_without_graph.
Proof. stable_tac. Qed.

Lemma keeps_nonzero_chunks_stable : stable keeps_nonzero_chunks.
Proof. stable_tac. Qed.

Lemma handle_kept_or_dropped_stable : stable handle_kept_or_dropped.
Proof. stable_tac. Qed.

Lemma recorders_grow_stable : stable recorders_grow.
Proof.
  stable_tac.
  - intros rec' H. by rewrite lookup_alter_is_Some.
  - intros rec' H. rewrite lookup_insert_is_Some'. by right.
Qed.

(** *** Invariants of the reachable worlds *)

Ltac fields_update :=
  intros; unfold_relations; world_simpl; first [ done | by left | tauto ].

Lemma action_cases a : (∃ P, a = Start P) ∨ (∀ P, a ≠ Start P).
Proof. destruct a; [left; by eexists | right; done ..]. Qed.

Lemma step_same_window a w : hasWindow (page (step a w)) = hasWindow (page w).
Proof.
  destruct (action_cases a) as [[P ->] | Hns].
  - apply (respects_start same_window same_window_stable); fields_update.
  - apply (respects_step same_window same_window_stable); [fields_update | done].
Qed.

Lemma never_started_fresh w :
  never_started w →
  recorder (this w) = None
  ∧ (audioCtx (this w) = None ∨ destination (this w) = None).
Proof.
  induction 1 as [hw | a w Hw [IH1 IH2] Hns]; [by split; [| left] |].
  split.
  - apply (respects_step stays_unstarted stays_unstarted_stable);
      [fields_update | done ..].
  - apply (respects_step stays_without_graph stays_without_graph_stable);
      [fields_update | done ..].
Qed.

Lemma never_started_reachable w : never_started w → reachable w.
Proof. induction 1; by constructor. Qed.

(** An instance holds an encoder handle only in a page that has a
    [window]. *)
Lemma reachable_handle_window w :
  reachable w → recorder (this w) = None ∨ hasWindow (page w) = true.
Proof.
  induction 1 as [hw | a w Hw IH]; [by left |].
  destruct (hasWindow (page w)) eqn:Hwin.
  { right. by rewrite step_same_window. }
  destruct IH as [IH | IH]; [| done]. left.
  destruct (action_cases a) as [[P ->] | Hns].
  - simpl. by rewrite start_without_window.
  - apply (respects_step stays_unstarted stays_unstarted_stable);
      [fields_update | done ..].
Qed.

Lemma step_keeps_nonzero_chunks a w : nonzero_chunks w → nonzero_chunks (step a w).
Proof.
  assert (Hpush : ∀ w d, Blob.size d ≠ 0 →
            keeps_nonzero_chunks w
              (set_this (λ t, Fields (audioCtx t) (destination t) (micStream t)
                                (micSource t) (recorder t) (chunks t ++ [d])
                                (mimeType t) (startedAt t)) w)).
  { intros w' d Hd. unfold_relations. world_simpl. intros Hall.
    apply Forall_app. split; [done | by constructor]. }
  destruct (action_cases a) as [[P ->] | Hns].
  - apply (respects_start keeps_nonzero_chunks keeps_nonzero_chunks_stable).
    intros. unfold_relations. world_simpl. by constructor.
  - by apply (respects_step keeps_nonzero_chunks keeps_nonzero_chunks_stable).
Qed.

Lemma reachable_nonzero_chunks w : reachable w → nonzero_chunks w.
Proof.
  induction 1 as [hw | a w Hw IH]; [by constructor |].
  by apply step_keeps_nonzero_chunks.
Qed.

(** *** The claims about [stop], [start] and playback outside a session *)

Lemma reachable_recording_world : reachable recording_world.
Proof. apply reachable_step, reachable_new. Qed.

Lemma reachable_run acts w : reachable w → reachable (run acts w).
Proof.
  revert w. induction acts as [| a acts IH]; intros w Hw; [done |].
  simpl. apply IH. by constructor.
Qed.

(** C2. On an instance on which [start] was never called, or whose
    resources have been released, or which for any other reason holds no
    encoder handle, [stop] fails with the error [Recorder not started]
    and leaves everything as it was. *)
Theorem stop_before_start_fails P w :
  never_started w ∨ released (this w) ∨ recorder (this w) = None →
  stop P w = (Throw (Error "Recorder not started"), w).
Proof.
  intros H.
  assert (Hrec : recorder (this w) = None).
  { destruct H as [H | [H | H]]; [| | done].
    - by apply never_started_fresh.
    - unfold released in H. tauto. }
  unfold stop. js_unfold. by rewrite Hrec.
Qed.

Lemma stop_before_start_fails_witness :
  stop (granting [] "") (createSessionRecorder true)
  = (Throw (Error "Recorder not started"), createSessionRecorder true).
Proof.
  apply (stop_before_start_fails (granting [] "") (createSessionRecorder true)).
  left. apply never_new.
Defined.

(** C3. A call of [start] on an instance that is already recording logs
    [start:already-recording] and returns; it calls nothing on the
    platform and changes no field of the instance: the world afterwards
    is the world before with that one console line added. *)
Theorem start_while_recording_is_noop P w :
  reachable w → already_recording w = true →
  ∃ w', start P w = (Return tt, w')
        ∧ this w' = this w
        ∧ w' = journal_add [Console (Entry LLog "start:already-recording" [])] w
        ∧ liveStreams (page w') = liveStreams (page w)
        ∧ openContexts (page w') = openContexts (page w)
        ∧ recorders (page w') = recorders (page w)
        ∧ nextHandle (page w') = nextHandle (page w).
Proof.
  intros Hreach Hrec.
  assert (Hwin : hasWindow (page w) = true).
  { destruct (reachable_handle_window w Hreach) as [Hnone | Hwin]; [| done].
    unfold already_recording in Hrec. by rewrite Hnone in Hrec. }
  eexists. split; [by apply start_already_recording |].
  by repeat split.
Qed.

Lemma start_while_recording_is_noop_witness :
  ∃ w', start (granting ["audio/webm"] "") recording_world = (Return tt, w')
        ∧ this w' = this recording_world.
Proof.
  destruct (start_while_recording_is_noop (granting ["audio/webm"] "") recording_world)
    as (w' & Hrun & Hthis & _).
  - apply reachable_recording_world.
  - vm_compute. reflexivity.
  - by exists w'.
Defined.

(** C5. When the instance holds an encoder handle and the encoder is
    inactive, [stop] returns at once, without an error, a result with an
    empty blob, duration 0 and the mime type of the session (which is also
    the type of the blob); nothing else changes. *)
Theorem stop_when_inactive_returns_empty P w rec :
  recorder (this w) = Some rec → state_of w rec = inactive →
  stop P w
  = (Return (Resolved (SessionRecordingResult.mk
                         (Blob.mk [] (mimeType (this w)))
                         (mimeType (this w)) 0)), w).
Proof.
  intros Hrec Hstate. unfold stop. js_unfold. rewrite Hrec.
  rewrite bool_decide_eq_true_2 by done. reflexivity.
Qed.

Lemma stop_when_inactive_returns_empty_witness :
  stop (granting [] "") (step (Halt 4) world_with_chunks)
  = (Return (Resolved (SessionRecordingResult.mk
                         (Blob.mk [] "audio/ogg") "audio/ogg" 0)),
     step (Halt 4) world_with_chunks).
Proof.
  apply (stop_when_inactive_returns_empty (granting [] "")
           (step (Halt 4) world_with_chunks) 4);
    vm_compute; reflexivity.
Defined.

(** C7. On an instance without a live audio graph ([start] never called,
    or the audio context or the mixing destination null),
    [playAssistantBase64] fails with the error [Recorder not started] for
    every payload; it writes one console line and calls nothing on the
    platform, so nothing is decoded or played. *)
Theorem play_without_graph_fails P base64 w :
  never_started w ∨ audioCtx (this w) = None ∨ destination (this w) = None →
  ∃ w', playAssistantBase64 P base64 w = (Throw (Error "Recorder not started"), w')
        ∧ w' = journal_add [Console (Entry LError "play:missing-context" [])] w
        ∧ this w' = this w
        ∧ calls_of (journal (page w')) = calls_of (journal (page w)).
Proof.
  intros H.
  assert (Hgraph : audioCtx (this w) = None ∨ destination (this w) = None).
  { destruct H as [H | H]; [by apply never_started_fresh | done]. }
  eexists. split.
  { unfold playAssistantBase64. unfold_primitives. js_unfold.
    destruct Hgraph as [-> | ->]; [done |]. by destruct (audioCtx (this w)). }
  repeat split. world_simpl. rewrite calls_of_app. simpl. by rewrite app_nil_r.
Qed.

Lemma play_without_graph_fails_witness :
  ∃ w', playAssistantBase64 (granting [] "") "AAAA" (createSessionRecorder true)
        = (Throw (Error "Recorder not started"), w')
        ∧ calls_of (journal (page w')) = [].
Proof.
  destruct (play_without_graph_fails (granting [] "") "AAAA" (createSessionRecorder true))
    as (w' & Hrun & _ & _ & Hcalls).
  - left. apply never_new.
  - by exists w'.
Defined.

(** *** Every way [start] can end *)

Lemma rethrown_is_error (e : thrown) :
  instanceofError
    (if instanceofError e then e else Error "Session recorder failed to start.")
  = true.
Proof. by destruct e. Qed.

(** One of the platform calls of [start] has thrown: the [catch] block
    runs and the error goes to the caller. *)
Ltac start_fails P :=
  right; world_simpl;
  match goal with
  | |- context [cleanup P ?W] =>
      let w' := fresh "w'" in
      let j := fresh "j" in
      let Heq := fresh "Heq" in
      let Hthis := fresh "Hthis" in
      destruct (cleanup_run P W) as (w' & j & Heq & Hthis & _);
      rewrite Heq; world_simpl;
      eexists _, w'; split; [reflexivity |];
      split; [apply rethrown_is_error |];
      rewrite Hthis; by repeat split
  end.

(** Unless the platform grants every call, [start] ends in the [catch]
    block: the caller gets an [Error] and the fields are reset. *)
Lemma start_outcome P w :
  hasWindow (page w) = true → already_recording w = false →
  encoder_granted P
  ∨ (∃ e w', start P w = (Throw e, w')
             ∧ instanceofError e = true
             ∧ released (this w')).
Proof.
  intros Hw Hr.
  unfold start. js_unfold. rewrite Hw, Hr.
  unfold_primitives. js_unfold. world_simpl.
  destruct (getUserMedia P) eqn:H1; [start_fails P |]. world_simpl.
  destruct (newAudioContext P) eqn:H2; [start_fails P |]. world_simpl.
  destruct (resume P) eqn:H3; [start_fails P |]. world_simpl.
  destruct (createMediaStreamDestination P) eqn:H4; [start_fails P |]. world_simpl.
  destruct (createMediaStreamSource P) eqn:H5; [start_fails P |]. world_simpl.
  destruct (connect P) eqn:H6; [start_fails P |]. world_simpl.
  rewrite find_supported_run. fold (first_supported P).
  destruct (first_supported P) as [c |] eqn:Hf; world_simpl;
    try rewrite (first_supported_truthy P c Hf); cbv iota;
    (destruct (newMediaRecorder P _) as [e | attr] eqn:Hc; [start_fails P |]);
    world_simpl;
    (destruct (recorder_start P) eqn:Hs; [start_fails P |]);
    left; (split; [by split | rewrite Hf; by exists attr | done]).
Qed.

(** *** Format negotiation, whatever becomes of the encoder *)

Ltac journal_facts :=
  rewrite ?probes_of_app, ?constructions_of_app,
    ?probes_of_probe_journal, ?constructions_of_probe_journal;
  simpl; rewrite ?app_nil_r.

Ltac journal_after_failure P :=
  world_simpl;
  match goal with
  | |- context [cleanup P ?W] =>
      let w' := fresh "w'" in
      let jc := fresh "jc" in
      let Heq := fresh "Heq" in
      let Hj := fresh "Hj" in
      let Hp := fresh "Hp" in
      let Hk := fresh "Hk" in
      destruct (cleanup_run P W)
        as (w' & jc & Heq & _ & _ & _ & _ & Hj & Hp & Hk & _);
      rewrite Heq; world_simpl; rewrite Hj;
      eexists; (split; [rewrite <- ?app_assoc; reflexivity |]);
      journal_facts; rewrite ?Hp, ?Hk; journal_facts; by rewrite ?app_nil_r
  end.

Lemma start_negotiation_journal P w :
  hasWindow (page w) = true → already_recording w = false → graph_granted P →
  ∃ j, journal (page (start P w).2) = journal (page w) ++ j
       ∧ probes_of j = probed P SUPPORTED_MIME_TYPES
       ∧ constructions_of j = [first_supported P].
Proof.
  intros Hw Hr [H1 H2 H3 H4 H5 H6].
  unfold start. js_unfold. rewrite Hw, Hr.
  unfold_primitives. js_unfold. rewrite H1, H2, H3, H4, H5, H6. world_simpl.
  rewrite find_supported_run. fold (first_supported P).
  destruct (first_supported P) as [c |] eqn:Hf; world_simpl;
    try rewrite (first_supported_truthy P c Hf); cbv iota;
    (destruct (newMediaRecorder P _) as [e | attr] eqn:Hc;
     [journal_after_failure P |]);
    world_simpl;
    (destruct (recorder_start P) eqn:Hs; [journal_after_failure P |]);
    world_simpl;
    eexists; (split; [rewrite <- ?app_assoc; reflexivity |]);
    journal_facts; done.
Qed.

Lemma first_supported_only P c :
  c ∈ SUPPORTED_MIME_TYPES → supports P c = true →
  (∀ c', c' ∈ SUPPORTED_MIME_TYPES → c' ≠ c → supports P c' = false) →
  first_supported P = Some c.
Proof.
  unfold first_supported, SUPPORTED_MIME_TYPES.
  rewrite !elem_of_cons, elem_of_nil. intros Hin Hc Hothers.
  destruct Hin as [-> | [-> | [-> | [-> | []]]]]; simpl;
    repeat (first [ rewrite Hc; reflexivity
                  | rewrite Hothers; [| set_solver | done] ]).
Qed.

(** C1. [start] probes the candidate formats in the order Opus-in-WebM,
    plain WebM, Opus-in-Ogg, plain Ogg, up to the first one the platform
    reports as supported, and constructs the encoder with that format, or
    with no format at all when none is supported (a probe that throws
    counts as unsupported). When the encoder can be constructed and
    started, [start] returns with the instance recording, and the mime
    type of the session is the selected candidate, or else the mime type
    the encoder reports, or else [audio/webm]. *)
Theorem start_negotiates_format P w :
  hasWindow (page w) = true → already_recording w = false → graph_granted P →
  SUPPORTED_MIME_TYPES
  = ["audio/webm;codecs=opus"; "audio/webm"; "audio/ogg;codecs=opus"; "audio/ogg"]
  ∧ (∃ j, journal (page (start P w).2) = journal (page w) ++ j
          ∧ probes_of j = probed P SUPPORTED_MIME_TYPES
          ∧ constructions_of j = [first_supported P])
  ∧ (∀ c, c ∈ SUPPORTED_MIME_TYPES → supports P c = true →
          (∀ c', c' ∈ SUPPORTED_MIME_TYPES → c' ≠ c → supports P c' = false) →
          first_supported P = Some c)
  ∧ ((∀ c, c ∈ SUPPORTED_MIME_TYPES → supports P c = false) →
     first_supported P = None)
  ∧ (∀ attr, newMediaRecorder P (first_supported P) = inr attr →
             recorder_start P = None →
             ∃ w', start P w = (Return tt, w')
                   ∧ is_recording w'
                   ∧ mimeType (this w')
                     = match first_supported P with
                       | Some c => c
                       | None => if truthy_string attr then attr else "audio/webm"
                       end).
Proof.
  intros Hw Hr Hgraph. split; [done |].
  split; [by apply start_negotiation_journal |].
  split; [apply first_supported_only |].
  split; [apply first_supported_none |].
  intros attr Hc Hs.
  destruct (start_granted_run P w Hw Hr) as (w' & j & attr' & Hrun & Hc' & Hthis & Hrecs & _).
  { split; [done | by exists attr | done]. }
  rewrite Hc in Hc'. injection Hc' as <-.
  exists w'. split; [done |]. split.
  - exists (4 + nextHandle (page w)), (MediaRecorder.mk recording attr true None).
    rewrite Hthis, Hrecs. split; [done |]. split; [apply lookup_insert_eq | done].
  - rewrite Hthis. world_simpl.
    destruct (first_supported P) as [c |] eqn:Hf; world_simpl; [| done].
    unfold first_truthy, or_else. simpl.
    rewrite (first_supported_truthy P c Hf).
    by rewrite (first_supported_truthy P c Hf).
Qed.

Lemma start_negotiates_format_witness :
  first_supported (granting ["audio/ogg"] "") = Some "audio/ogg"
  ∧ ∃ w', start (granting ["audio/ogg"] "") (createSessionRecorder true)
          = (Return tt, w')
          ∧ mimeType (this w') = "audio/ogg".
Proof.
  destruct (start_negotiates_format (granting ["audio/ogg"] "")
              (createSessionRecorder true))
    as (_ & _ & Honly & _ & Hstart).
  - reflexivity.
  - reflexivity.
  - by split.
  - split.
    + apply Honly; [set_solver | reflexivity |].
      unfold SUPPORTED_MIME_TYPES. intros c'.
      rewrite !elem_of_cons, elem_of_nil.
      intros [-> | [-> | [-> | [-> | []]]]] Hne; done.
    + destruct (Hstart "audio/ogg") as (w' & Hrun & _ & Hmime);
        [reflexivity | reflexivity |].
      exists w'. split; [done |]. rewrite Hmime. reflexivity.
Defined.

(** *** [cancel] and the reuse of an instance *)

Lemma start_granted P w :
  hasWindow (page w) = true → already_recording w = false → encoder_granted P →
  ∃ w', start P w = (Return tt, w')
        ∧ is_recording w'
        ∧ recorder (this w') = Some (4 + nextHandle (page w))
        ∧ chunks (this w') = [].
Proof.
  intros Hw Hr HP.
  destruct (start_granted_run P w Hw Hr HP)
    as (w' & j & attr & Hrun & _ & Hthis & Hrecs & _).
  exists w'. split; [done |]. rewrite Hthis. split; [| done].
  exists (4 + nextHandle (page w)), (MediaRecorder.mk recording attr true None).
  rewrite Hthis, Hrecs. split; [done |]. split; [apply lookup_insert_eq | done].
Qed.

Lemma released_not_recording w : released (this w) → already_recording w = false.
Proof. intros (_ & _ & _ & _ & Hrec & _). unfold already_recording. by rewrite Hrec. Qed.

Lemma cancel_run P w :
  ∃ w', cancel P w = (Return tt, w')
        ∧ released (this w')
        ∧ hasWindow (page w') = hasWindow (page w)
        ∧ (∀ s, micStream (this w) = Some s → stopTracks P = None →
                s ∉ liveStreams (page w'))
        ∧ (∀ c, audioCtx (this w) = Some c → close P = Closes →
                c ∉ openContexts (page w')).
Proof.
  assert (Hclean : ∀ W, this W = this w → hasWindow (page W) = hasWindow (page w) →
    ∃ w', cleanup P W = (Return tt, w')
          ∧ released (this w')
          ∧ hasWindow (page w') = hasWindow (page w)
          ∧ (∀ s, micStream (this w) = Some s → stopTracks P = None →
                  s ∉ liveStreams (page w'))
          ∧ (∀ c, audioCtx (this w) = Some c → close P = Closes →
                  c ∉ openContexts (page w'))).
  { intros W Hthis Hwin.
    destruct (cleanup_run P W)
      as (w' & j & Heq & Hthis' & Hwin' & _ & _ & _ & _ & _ & _ & _ & Hs & Hc & _).
    exists w'. split; [done |]. rewrite Hthis', Hwin', Hwin.
    split; [by repeat split |]. split; [done |]. rewrite <- Hthis. split.
    - intros s Hms Hst. rewrite (Hs s Hms Hst).
      rewrite elem_of_difference, elem_of_singleton. tauto.
    - intros c Hac Hcl. rewrite (Hc c Hac Hcl).
      rewrite elem_of_difference, elem_of_singleton. tauto. }
  unfold cancel. unfold_primitives. js_unfold.
  destruct (recorder (this w)) as [rec |]; [| by apply Hclean].
  destruct (bool_decide (state_of w rec ≠ inactive)); [| by apply Hclean].
  destruct (recorder_stop P); world_simpl; by apply Hclean.
Qed.

Lemma cleanup_journal_run P w :
  journal (page (cleanup P w).2) = journal (page w) ++ cleanup_journal P (this w).
Proof.
  destruct w as [[ac de ms so re ch mi st] [hw ls oc rs nh j]].
  unfold cleanup, cleanup_journal. unfold_primitives. js_unfold.
  destruct so as [so |], de as [de |], ms as [ms |], ac as [ac |];
    destruct (disconnect P), (stopTracks P), (close P); world_simpl;
    simpl; by rewrite <- ?app_assoc.
Qed.

(** The journal of [cancel]: the stop request and its outcome, then the
    teardown, each call followed by the line that reports it. *)
Lemma cancel_journal_run P w :
  journal (page (cancel P w).2)
  = journal (page w) ++ cancel_journal P w ++ cleanup_journal P (this w).
Proof.
  unfold cancel, cancel_journal. js_unfold.
  destruct (recorder (this w)) as [rec |]; [| apply cleanup_journal_run].
  destruct (bool_decide (state_of w rec ≠ inactive)); [| apply cleanup_journal_run].
  unfold_primitives. js_unfold.
  destruct (recorder_stop P); world_simpl;
    match goal with
    | |- context [cleanup P ?W] => rewrite (cleanup_journal_run P W)
    end;
    world_simpl; simpl; by rewrite <- ?app_assoc.
Qed.

(** What holds of [cancel] in every state and on every platform: it
    returns normally; afterwards every handle field is null and no chunk
    is kept; the teardown calls that went through have stopped the
    capture tracks and closed the audio context; the journal holds the
    stop request to an encoder that was not inactive and the three
    teardown calls, each with its line; and a following [start] that
    the platform grants returns with the instance recording. *)
Lemma cancel_never_raises P w :
  ∃ w', cancel P w = (Return tt, w')
        ∧ released (this w')
        ∧ (∀ s, micStream (this w) = Some s → stopTracks P = None →
                s ∉ liveStreams (page w'))
        ∧ (∀ c, audioCtx (this w) = Some c → close P = Closes →
                c ∉ openContexts (page w'))
        ∧ journal (page w')
          = journal (page w) ++ cancel_journal P w ++ cleanup_journal P (this w)
        ∧ (∀ P', hasWindow (page w) = true → encoder_granted P' →
                 ∃ w'', start P' w' = (Return tt, w'') ∧ is_recording w'').
Proof.
  destruct (cancel_run P w) as (w' & Hrun & Hrel & Hwin & Hs & Hc).
  exists w'. repeat (split; [done |]).
  split.
  { pose proof (cancel_journal_run P w) as Hj. by rewrite Hrun in Hj. }
  intros P' Hw HP'.
  destruct (start_granted P' w') as (w'' & Hstart & Hrec & _);
    [congruence | by apply released_not_recording | done |].
  by exists w''.
Qed.

Lemma granting_encoder_granted supported default_mime :
  encoder_granted (granting supported default_mime).
Proof. split; [by split | by eexists | done]. Qed.

Lemma cancel_never_raises_witness :
  ∃ w', cancel throwing_teardown world_with_chunks = (Return tt, w')
        ∧ released (this w')
        ∧ ∃ w'', start (granting ["audio/webm"] "") w' = (Return tt, w'')
                 ∧ is_recording w''.
Proof.
  destruct (cancel_never_raises throwing_teardown world_with_chunks)
    as (w' & Hrun & Hrel & _ & _ & _ & Hstart).
  exists w'. split; [done |]. split; [done |].
  apply Hstart; [reflexivity | apply granting_encoder_granted].
Defined.

(** Every failure that [cancel] catches is on the console: an encoder
    that refuses to stop, a [disconnect], a [track.stop()] or a
    [close()] that throws. *)
Lemma cancel_logs_caught_failures P w :
  let j := cancel_journal P w ++ cleanup_journal P (this w) in
  (∀ rec e, recorder (this w) = Some rec → state_of w rec ≠ inactive →
            recorder_stop P = Some e →
            Console (Entry LError "cancel:stop-failed" (formatRecorderError e)) ∈ j)
  ∧ (∀ source dest e, micSource (this w) = Some source →
                      destination (this w) = Some dest → disconnect P = Some e →
       Console (Entry LError "cleanup:mic-disconnect-failed" (formatRecorderError e)) ∈ j)
  ∧ (∀ stream e, micStream (this w) = Some stream → stopTracks P = Some e →
       Console (Entry LError "cleanup:stop-tracks-failed" (formatRecorderError e)) ∈ j)
  ∧ (∀ ctx e, audioCtx (this w) = Some ctx → close P = CloseThrows e →
       Console (Entry LError "cleanup:context-close-failed" (formatRecorderError e)) ∈ j).
Proof.
  unfold cancel_journal, cleanup_journal. cbv zeta. repeat split.
  - intros rec e -> Hstate ->. rewrite bool_decide_eq_true_2 by done.
    rewrite !elem_of_app, !elem_of_cons. tauto.
  - intros source dest e -> -> ->.
    rewrite !elem_of_app, !elem_of_cons. tauto.
  - intros stream e -> ->.
    rewrite !elem_of_app, !elem_of_cons. tauto.
  - intros ctx e -> ->.
    rewrite !elem_of_app, !elem_of_cons. tauto.
Qed.

(** A [close()] whose promise rejects is not among them: on every
    platform and in every state in which a context is held, the last
    line [cancel] writes is [cleanup:context-closed], and no line
    reports the failure. *)
Lemma rejected_close_is_reported_closed P w ctx e :
  audioCtx (this w) = Some ctx → close P = CloseRejects e →
  last (journal (page (cancel P w).2))
  = Some (Console (Entry LLog "cleanup:context-closed" []))
  ∧ "cleanup:context-close-failed"
      ∉ failures_of (cancel_journal P w ++ cleanup_journal P (this w)).
Proof.
  intros Hctx Hclose. rewrite cancel_journal_run.
  unfold cleanup_journal. rewrite Hctx, Hclose. split.
  - rewrite !app_assoc. by rewrite last_app.
  - unfold failures_of, cancel_journal. rewrite !omap_app.
    rewrite !elem_of_app.
    destruct (recorder (this w)) as [rec |];
      [destruct (bool_decide (state_of w rec ≠ inactive)), (recorder_stop P) |];
      destruct (micSource (this w)), (destination (this w)), (micStream (this w));
      destruct (disconnect P), (stopTracks P); simpl;
      rewrite ?elem_of_cons, ?elem_of_nil; intuition discriminate.
Qed.

(** C6 fails on the code. The instance is recording and holds two
    chunks; the encoder refuses to stop, [disconnect] and [track.stop()]
    throw, and the promise that [close()] returns rejects. [cancel]
    returns normally with every field reset, and the three failures
    that were thrown are caught and logged. The failure of [close()] is
    neither: the call is not awaited, so the [catch] around it never
    sees the rejection, no [cleanup:context-close-failed] line is
    written, and the console says [cleanup:context-closed]. *)
Theorem cancel_rejected_close_goes_unlogged :
  let r := cancel failing_teardown world_with_chunks in
  close failing_teardown
  = CloseRejects (ErrorObj "InvalidStateError" "context already closed")
  ∧ r.1 = Return tt
  ∧ released (this r.2)
  ∧ journal (page r.2)
    = journal (page world_with_chunks)
      ++ [Platform_call (RecorderStop 4);
          Console (Entry LError "cancel:stop-failed"
                     [("message", "not recording"); ("name", "InvalidStateError")]);
          Console (Entry LLog "cleanup:begin" []);
          Platform_call (Disconnect 3 2);
          Console (Entry LError "cleanup:mic-disconnect-failed"
                     [("message", "not connected"); ("name", "InvalidAccessError")]);
          Platform_call (StopTracks 0);
          Console (Entry LError "cleanup:stop-tracks-failed"
                     [("message", "__unknown__"); ("name", "__unknown__")]);
          Platform_call (Close 1);
          Console (Entry LLog "cleanup:context-closed" [])]
  ∧ failures_of (journal (page r.2))
    = ["cancel:stop-failed"; "cleanup:mic-disconnect-failed";
       "cleanup:stop-tracks-failed"].
Proof. vm_compute. by repeat split. Qed.

(** *** A failed [start] *)

(** Whatever makes [start] fail in a page with a [window], the caller
    gets an [Error], every handle field is null, no chunk is kept, and a
    following [start] that the platform grants succeeds. *)
Lemma start_failure_resets_fields P w e w' :
  hasWindow (page w) = true → start P w = (Throw e, w') →
  instanceofError e = true
  ∧ released (this w')
  ∧ (∀ P', encoder_granted P' →
           ∃ w'', start P' w' = (Return tt, w'') ∧ is_recording w'').
Proof.
  intros Hw Hrun.
  assert (Hw' : hasWindow (page w') = true).
  { rewrite <- Hw. change w' with (Throw (A := unit) e, w').2. rewrite <- Hrun.
    apply (respects_start same_window same_window_stable). fields_update. }
  destruct (already_recording w) eqn:Hr.
  { rewrite start_already_recording in Hrun by done. discriminate. }
  destruct (start_outcome P w Hw Hr) as [HP | (e' & w'' & Hrun' & He & Hrel)].
  { destruct (start_granted P w Hw Hr HP) as (w'' & Hrun' & _). congruence. }
  rewrite Hrun in Hrun'. injection Hrun' as <- <-.
  split; [done |]. split; [done |].
  intros P' HP'.
  destruct (start_granted P' w') as (w'' & Hstart & Hrec & _);
    [done | by apply released_not_recording | done |].
  by exists w''.
Qed.

(** Handles held by a reachable instance denote recorder objects. *)
Lemma reachable_handles_denote w : reachable w → handles_denote w.
Proof.
  induction 1 as [hw | a w Hw IH]; [by intros rec |].
  destruct (action_cases a) as [[P ->] | Hns].
  - simpl. destruct (hasWindow (page w)) eqn:Hwin;
      [| by rewrite start_without_window].
    destruct (already_recording w) eqn:Hr.
    { rewrite start_already_recording by done. exact IH. }
    destruct (start_outcome P w Hwin Hr) as [HP | (e & w' & Hrun & _ & Hrel)].
    + destruct (start_granted_run P w Hwin Hr HP)
        as (w' & j & attr & Hrun & _ & Hthis & Hrecs & _).
      rewrite Hrun. intros rec. simpl. rewrite Hthis, Hrecs. simpl.
      intros [= <-]. rewrite lookup_insert_eq. by eexists.
    + rewrite Hrun. intros rec. simpl.
      destruct Hrel as (_ & _ & _ & _ & -> & _). done.
  - assert (Hkept : handle_kept_or_dropped w (step a w)).
    { apply (respects_step handle_kept_or_dropped handle_kept_or_dropped_stable);
        [fields_update | done]. }
    assert (Hgrow : recorders_grow w (step a w)).
    { apply (respects_step recorders_grow recorders_grow_stable);
        [fields_update | done]. }
    intros rec Hrec. destruct Hkept as [Hsame | Hnone]; [| congruence].
    apply Hgrow, IH. congruence.
Qed.

(** *** What a failed [start] leaves behind on the platform *)

(** C4 fails on the code. On a new instance, with a browser that hands
    out the microphone and builds the audio graph but cannot construct a
    [MediaRecorder], [start] rethrows the error with every field reset,
    yet the capture stream it acquired (handle 0) keeps its live track and
    the audio context (handle 1) stays open: when the [catch] block runs,
    both are still held in local variables only, so [cleanup] never calls
    the platform to stop or close them. *)
Theorem start_failure_keeps_stream_live :
  let r := start without_encoder (createSessionRecorder true) in
  r.1 = Throw (ErrorObj "NotSupportedError" "MediaRecorder is not supported")
  ∧ released (this r.2)
  ∧ elements (liveStreams (page r.2)) = [0]
  ∧ elements (openContexts (page r.2)) = [1]
  ∧ calls_of (journal (page r.2))
    = [GetUserMedia; NewAudioContext; Resume 1; CreateMediaStreamDestination 1;
       CreateMediaStreamSource 1 0; Connect 3 2;
       IsTypeSupported "audio/webm;codecs=opus"; IsTypeSupported "audio/webm";
       IsTypeSupported "audio/ogg;codecs=opus"; IsTypeSupported "audio/ogg";
       NewMediaRecorder 2 None].
Proof. vm_compute. by repeat split. Qed.

(** The sibling path: when it is the start of the encoder that fails, the
    handles have been stored in the fields already, and [cleanup]
    disconnects the source, stops the tracks and closes the context. *)
Lemma start_failure_at_encoder_start_releases :
  let r := start without_encoder_start (createSessionRecorder true) in
  r.1 = Throw (ErrorObj "NotSupportedError" "cannot record this stream")
  ∧ released (this r.2)
  ∧ elements (liveStreams (page r.2)) = []
  ∧ elements (openContexts (page r.2)) = []
  ∧ calls_of (journal (page r.2))
    = [GetUserMedia; NewAudioContext; Resume 1; CreateMediaStreamDestination 1;
       CreateMediaStreamSource 1 0; Connect 3 2;
       IsTypeSupported "audio/webm;codecs=opus"; IsTypeSupported "audio/webm";
       IsTypeSupported "audio/ogg;codecs=opus"; IsTypeSupported "audio/ogg";
       NewMediaRecorder 2 None; RecorderStart 4;
       Disconnect 3 2; StopTracks 0; Close 1].
Proof. vm_compute. by repeat split. Qed.

(** In general: a failure before the fields are assigned leaves the new
    stream live, whatever the platform answers to the teardown calls,
    because none is made for it. *)
Lemma start_failure_before_assignment_leaks P w e :
  hasWindow (page w) = true → already_recording w = false →
  micStream (this w) = None →
  getUserMedia P = None → newAudioContext P = Some e →
  nextHandle (page w) ∈ liveStreams (page (start P w).2)
  ∧ released (this (start P w).2).
Proof.
  intros Hw Hr Hms H1 H2.
  unfold start. js_unfold. rewrite Hw, Hr.
  unfold_primitives. js_unfold. rewrite H1, H2. world_simpl.
  match goal with
  | |- context [cleanup P ?W] =>
      destruct (cleanup_run P W)
        as (w' & j & Heq & Hthis & _ & _ & _ & _ & _ & _ & _ & _ & _ & _ & Hlive & _)
  end.
  rewrite Heq. world_simpl. rewrite Hthis. split; [| by repeat split].
  rewrite Hlive by done. world_simpl.
  by apply elem_of_union_l, elem_of_singleton.
Qed.

(** *** Chunks and the blob of a finished recording *)

Lemma push_chunks_nil w : push_chunks [] w = w.
Proof.
  destruct w as [[ac de ms so re ch mi st] p]. unfold push_chunks, set_this.
  simpl. by rewrite app_nil_r.
Qed.

Lemma push_chunks_app l1 l2 w :
  push_chunks l2 (push_chunks l1 w) = push_chunks (l1 ++ l2) w.
Proof. unfold push_chunks, set_this. simpl. by rewrite app_assoc. Qed.

Lemma fire_dataavailable_listening rec data w r :
  recorders (page w) !! rec = Some r → ondataavailable r = true →
  fire_dataavailable rec data w = (Return tt, push_chunks (kept data) w).
Proof.
  intros Hlook Hon. unfold fire_dataavailable, ondataavailable_handler, kept.
  js_unfold. rewrite Hlook, Hon.
  destruct data as [d |]; [| by rewrite push_chunks_nil].
  destruct (Blob.size d =? 0)%nat; [by rewrite push_chunks_nil | done].
Qed.

Lemma deliver_run rec ds w r :
  recorders (page w) !! rec = Some r → ondataavailable r = true →
  run (map (DataAvailable rec) ds) w = push_chunks (concat (map kept ds)) w.
Proof.
  intros Hlook Hon. revert w Hlook.
  induction ds as [| d ds IH]; intros w Hlook; simpl.
  - by rewrite push_chunks_nil.
  - rewrite (fire_dataavailable_listening rec d w r Hlook Hon). simpl.
    rewrite IH by done. apply push_chunks_app.
Qed.

Lemma stop_recording_run P w rec r :
  recorder (this w) = Some rec → recorders (page w) !! rec = Some r →
  state r ≠ inactive → recorder_stop P = None →
  ∃ w1, stop P w = (Return (Pending rec), w1)
        ∧ this w1 = this w
        ∧ recorders (page w1) !! rec
          = Some (MediaRecorder.mk inactive (MediaRecorder.mimeType r)
                    (ondataavailable r) (Some false)).
Proof.
  intros Hrec Hlook Hstate Hstop. unfold stop. js_unfold. rewrite Hrec.
  unfold state_of. rewrite Hlook. rewrite bool_decide_eq_false_2 by done.
  unfold_primitives. js_unfold. rewrite Hstop. world_simpl.
  eexists. split; [reflexivity |]. world_simpl. split; [done |].
  by rewrite !lookup_alter_eq, Hlook.
Qed.

Lemma fire_stop_pending P rec w r :
  recorders (page w) !! rec = Some r → onstop r = Some false →
  ∃ w', fire_stop P rec w
        = (Return (Some (SessionRecordingResult.mk
                           (Blob.make (chunks (this w)) (mimeType (this w)))
                           (mimeType (this w))
                           (if truthy_number (startedAt (this w))
                            then Z.max 0 (Math_round (now P - startedAt (this w)))
                            else 0%Z))), w')
        ∧ released (this w').
Proof.
  intros Hlook Hon. unfold fire_stop, onstop_handler. unfold_primitives. js_unfold.
  rewrite Hlook, Hon.
  destruct (cleanup_run P w) as (w' & j & Heq & Hthis & _). rewrite Heq.
  world_simpl. rewrite Hthis. world_simpl.
  eexists. split; [reflexivity |]. world_simpl. rewrite Hthis. by repeat split.
Qed.

(** A [stop] that settles at once settles with the empty result. *)
Lemma stop_resolved_empty P w res w1 :
  stop P w = (Return (Resolved res), w1) → res = empty_result w.
Proof.
  unfold stop. js_unfold.
  destruct (recorder (this w)) as [rec |]; [| discriminate].
  destruct (bool_decide (state_of w rec = inactive)); [by intros [= <- <-] |].
  unfold_primitives. js_unfold.
  destruct (recorder_stop P); world_simpl; [| discriminate].
  match goal with
  | |- context [cleanup P ?W] =>
      destruct (cleanup_run P W) as (w' & j & Heq & Hthis & _)
  end.
  rewrite Heq. world_simpl. intros [= <- <-].
  unfold empty_result. rewrite Hthis. done.
Qed.

(** C10, as the code has it. Every operation and every event keeps all
    accumulated chunks non-empty: a data event whose data is missing or
    empty adds nothing, any other appends its data at the end. When
    [stop] waits for the encoder to finalize, the blob it receives holds
    exactly the bytes of the chunks that arrived since [start], those
    arriving after the stop request included, in their order of arrival.
    When [stop] settles at once (encoder already inactive, or the stop
    request thrown back), its blob is empty whatever has accumulated. *)
Theorem chunks_nonzero_and_blob_in_order :
  (∀ w, reachable w → nonzero_chunks w)
  ∧ (∀ w rec data r,
       recorders (page w) !! rec = Some r → ondataavailable r = true →
       fire_dataavailable rec data w = (Return tt, push_chunks (kept data) w))
  ∧ (∀ P w ds1 Pstop ds2 Pev,
       hasWindow (page w) = true → already_recording w = false →
       encoder_granted P → recorder_stop Pstop = None →
       let rec := 4 + nextHandle (page w) in
       ∃ w1 w3 res w5,
         start P w = (Return tt, w1)
         ∧ stop Pstop (run (map (DataAvailable rec) ds1) w1)
           = (Return (Pending rec), w3)
         ∧ fire_stop Pev rec (run (map (DataAvailable rec) ds2) w3)
           = (Return (Some res), w5)
         ∧ Blob.bytes (SessionRecordingResult.blob res)
           = bytes_of (concat (map kept (ds1 ++ ds2)))
         ∧ Blob.type (SessionRecordingResult.blob res) = mimeType (this w1)
         ∧ SessionRecordingResult.mimeType res = mimeType (this w1))
  ∧ (∀ P w res w1,
       stop P w = (Return (Resolved res), w1) →
       SessionRecordingResult.blob res = Blob.mk [] (mimeType (this w))).
Proof.
  split; [apply reachable_nonzero_chunks |].
  split; [intros w rec data r; apply fire_dataavailable_listening |].
  split; [| intros P w res w1 Hstop;
            by rewrite (stop_resolved_empty P w res w1 Hstop)].
  intros P w ds1 Pstop ds2 Pev Hw Hr HP Hstop rec.
  destruct (start_granted_run P w Hw Hr HP)
    as (w1 & j & attr & Hrun & _ & Hthis & Hrecs & _).
  assert (Hlook1 : recorders (page w1) !! rec
                   = Some (MediaRecorder.mk recording attr true None)).
  { rewrite Hrecs. apply lookup_insert_eq. }
  destruct (stop_recording_run Pstop (push_chunks (concat (map kept ds1)) w1) rec
              (MediaRecorder.mk recording attr true None))
    as (w3 & Hstop3 & Hthis3 & Hlook3); try done.
  { simpl. by rewrite Hthis. }
  destruct (fire_stop_pending Pev rec (push_chunks (concat (map kept ds2)) w3)
              (MediaRecorder.mk inactive attr true (Some false)))
    as (w5 & Hfire & _); try done.
  eexists w1, w3, _, w5.
  split; [done |].
  split; [by rewrite (deliver_run rec ds1 w1 _ Hlook1) |].
  split; [by rewrite (deliver_run rec ds2 w3 _ Hlook3) |].
  simpl. rewrite Hthis3. simpl. rewrite Hthis. simpl.
  split; [| done]. unfold bytes_of. by rewrite (map_app kept), (concat_app (map kept ds1)).
Qed.

Lemma chunks_nonzero_and_blob_in_order_witness :
  nonzero_chunks world_with_chunks
  ∧ ∃ w1 w3 res w5,
      start (granting ["audio/ogg"] "") (createSessionRecorder true) = (Return tt, w1)
      ∧ stop (granting [] "")
          (run (map (DataAvailable 4) [Some chunk_a; None]) w1)
        = (Return (Pending 4), w3)
      ∧ fire_stop (granting [] "") 4
          (run (map (DataAvailable 4) [Some (Blob.mk [] ""); Some chunk_b]) w3)
        = (Return (Some res), w5)
      ∧ Blob.bytes (SessionRecordingResult.blob res) = ["a"; "b"; "c"]%byte.
Proof.
  destruct chunks_nonzero_and_blob_in_order as (Hinv & _ & Hblob & _).
  split.
  - apply Hinv, reachable_run, reachable_recording_world.
  - destruct (Hblob (granting ["audio/ogg"] "") (createSessionRecorder true)
                [Some chunk_a; None] (granting [] "")
                [Some (Blob.mk [] ""); Some chunk_b] (granting [] ""))
      as (w1 & w3 & res & w5 & H1 & H3 & H5 & Hbytes & _);
      [reflexivity | reflexivity | apply granting_encoder_granted | reflexivity |].
    exists w1, w3, res, w5. by repeat split.
Defined.

(** C10 as stated fails. The instance below is reachable and holds two
    chunks; its encoder has gone inactive (the browser ended the
    recording, or an earlier [stop] is still waiting for the stop event).
    [stop] returns without error, and its blob is empty instead of the
    three bytes of the two chunks. *)
Lemma stop_on_inactive_encoder_drops_chunks :
  let halted := step (Halt 4) world_with_chunks in
  let stopping := step (Stop (granting [] "")) world_with_chunks in
  reachable halted ∧ reachable stopping
  ∧ chunks (this halted) = [chunk_a; chunk_b]
  ∧ chunks (this stopping) = [chunk_a; chunk_b]
  ∧ bytes_of [chunk_a; chunk_b] = ["a"; "b"; "c"]%byte
  ∧ (stop (granting [] "") halted).1
    = Return (Resolved (SessionRecordingResult.mk (Blob.mk [] "audio/ogg") "audio/ogg" 0))
  ∧ (stop (granting [] "") stopping).1
    = Return (Resolved (SessionRecordingResult.mk (Blob.mk [] "audio/ogg") "audio/ogg" 0))
  ∧ ¬ (∀ w P res w', reachable w →
         stop P w = (Return (Resolved res), w') →
         Blob.bytes (SessionRecordingResult.blob res) = bytes_of (chunks (this w))).
Proof.
  intros halted stopping.
  assert (Hh : reachable halted).
  { apply reachable_step, reachable_run, reachable_recording_world. }
  assert (Hs : reachable stopping).
  { apply reachable_step, reachable_run, reachable_recording_world. }
  repeat (split; [done || (vm_compute; reflexivity) |]).
  intros Hclaim.
  specialize (Hclaim halted (granting [] "") _ _ Hh eq_refl).
  vm_compute in Hclaim. discriminate.
Qed.

End RecorderFacts.

(** ** scripts/create-pr.mjs: the run as a whole *)

Module CreatePrMainFacts.
Import JsFacts JsString JsStringFacts CreatePr CreatePrFacts CreatePrMain.

Lemma bind_assoc {S A B C} (m : M S A) (k1 : A → M S B) (k2 : B → M S C) s :
  ((m ≫= k1) ≫= k2) s = (m ≫= λ a, k1 a ≫= k2) s.
Proof. js_unfold. by destruct (m s) as [[a | e] s']. Qed.

Lemma log_run lv step payload out acc :
  log lv step payload (out ++ acc) = (Return tt, out ++ (acc ++ [Entry lv step payload])).
Proof. unfold log. js_unfold. by rewrite app_assoc. Qed.

Lemma runCommand_run W step command out acc :
  match execSync W step command with
  | inr output =>
      runCommand W step command (out ++ acc)
      = (Return output,
         out ++ (acc ++ [Entry LLog (step +:+ ":invoke") [("command", command)];
                         Entry LLog (step +:+ ":success")
                           [("command", command); ("output", trim output)]]))
  | inl e =>
      runCommand W step command (out ++ acc)
      = (Throw e,
         out ++ (acc ++ [Entry LLog (step +:+ ":invoke") [("command", command)];
                         Entry LError (step +:+ ":failure")
                           (("command", command) :: normalizeError e)]))
  end.
Proof.
  unfold runCommand, log. js_unfold.
  destruct (execSync W step command); simpl; by rewrite <- !app_assoc.
Qed.

(** [request] returns or throws what [answer] says; it writes the
    [:request] line first and nothing but lines of its own step. *)
Lemma request_run W step method url token body out acc :
  ∃ lines,
    request W step method url token body (out ++ acc)
    = (match answer W method url token body with
       | inr value => Return value
       | inl e => Throw e
       end,
       out ++ ((acc ++ [Entry LLog (step +:+ ":request")
                          [("method", method); ("url", url);
                           ("hasBody", match body with Some _ => "true" | None => "false" end)]])
               ++ lines))
    ∧ Forall (λ e, e_step e ∈ [step +:+ ":response"; step +:+ ":http-error";
                                step +:+ ":failure"]) lines.
Proof.
  unfold request, answer, log. js_unfold.
  destruct (fetch W method url token body) as [e | resp]; simpl.
  { eexists. rewrite <- !app_assoc. split; [reflexivity |].
    repeat constructor; set_solver. }
  destruct (text resp) as [e | t]; simpl.
  { eexists. rewrite <- !app_assoc. split; [reflexivity |].
    repeat constructor; set_solver. }
  destruct (ok resp); simpl.
  - eexists. rewrite <- !app_assoc. split; [reflexivity |].
    repeat constructor; set_solver.
  - eexists. rewrite <- !app_assoc. split; [reflexivity |].
    repeat constructor; set_solver.
Qed.

Lemma steps_app a b : steps (a ++ b) = steps a ++ steps b.
Proof. apply map_app. Qed.

Lemma in_steps_app a b s : s ∈ steps (a ++ b) → s ∈ steps a ∨ s ∈ steps b.
Proof. rewrite steps_app. apply elem_of_app. Qed.

Lemma in_steps_r a b s : s ∈ steps b → s ∈ steps (a ++ b).
Proof. rewrite steps_app, elem_of_app. by right. Qed.

Lemma steps_lines (L : list string) lines s :
  Forall (λ e, e_step e ∈ L) lines → s ∈ steps lines → s ∈ L.
Proof.
  intros Hall Hin. unfold steps in Hin. apply list_elem_of_fmap in Hin as (e & -> & He).
  by apply (proj1 (Forall_forall _ _) Hall).
Qed.

(** The [if] that refuses a dirty tree. *)
Lemma dirty_check_run statusOutput out acc :
  (if negb (String.length (trim statusOutput) =? 0)%nat then
     let error :=
       Error "Working tree has uncommitted changes. Please commit or stash before creating a PR." in
     log LError "git-status-dirty"
       (("statusOutput", statusOutput) :: normalizeError error) ;;
     throw error
   else mret tt) (out ++ acc)
  = if negb (String.length (trim statusOutput) =? 0)%nat then
      (Throw (Error "Working tree has uncommitted changes. Please commit or stash before creating a PR."),
       out ++ (acc ++ [Entry LError "git-status-dirty"
                         (("statusOutput", statusOutput)
                            :: normalizeError (Error "Working tree has uncommitted changes. Please commit or stash before creating a PR."))]))
    else (Return tt, out ++ acc).
Proof.
  destruct (negb _); [| done]. unfold log. js_unfold. by rewrite <- app_assoc.
Qed.

(** The [try] around the ancestor check. *)
Lemma ancestor_check_run W cfg out acc :
  ∃ lines,
    try_catch
      (runCommand W "git-ensure-ancestor"
         ("git merge-base --is-ancestor " +:+ remote cfg +:+ "/" +:+ base cfg
          +:+ " HEAD") ;;
       log LLog "git-ancestor-confirmed"
         [("baseRef", remote cfg +:+ "/" +:+ base cfg); ("headRef", "HEAD")])
      (λ error,
         log LError "git-ancestor-check-failed"
           (("message", "HEAD is not rebased onto the remote base branch")
              :: normalizeError error) ;;
         throw error) (out ++ acc)
    = (match execSync W "git-ensure-ancestor" (ancestor_command cfg) with
       | inr _ => Return tt
       | inl e => Throw e
       end, out ++ (acc ++ lines))
    ∧ Forall (λ e, e_step e ∈ ["git-ensure-ancestor:invoke"; "git-ensure-ancestor:success";
                                "git-ensure-ancestor:failure"; "git-ancestor-confirmed";
                                "git-ancestor-check-failed"]) lines.
Proof.
  unfold runCommand, log, ancestor_command. js_unfold.
  destruct (execSync W _ _); simpl; eexists; rewrite <- !app_assoc;
    (split; [reflexivity |]); repeat constructor; set_solver.
Qed.

(** Stepping through the body of [push_and_open]: one console line, or
    one command with its two outcomes. *)
Ltac step_log :=
  rewrite ?bind_assoc; erewrite bind_Return by apply log_run; cbv beta;
  rewrite ?bind_assoc.

Ltac step_command E :=
  match goal with
  | |- context [ (runCommand ?W ?s ?c ≫= ?k) (?out ++ ?acc) ] =>
      let Hr := fresh "Hr" in
      pose proof (runCommand_run W s c out acc) as Hr;
      destruct (execSync W s c) as [? | ?] eqn:E;
      [ rewrite (bind_Throw _ k _ _ _ Hr) | rewrite (bind_Return _ k _ _ _ Hr) ];
      clear Hr; cbv beta
  end.

Ltac step_sum E :=
  match goal with
  | |- context [ (of_sum ?x ≫= _) (_ ++ _) ] =>
      destruct x as [? | ?] eqn:E;
      [ match goal with
        | |- context [ (of_sum (inl ?e) ≫= ?k) ?s ] =>
            rewrite (bind_Throw (of_sum (inl e)) k s e s eq_refl)
        end
      | match goal with
        | |- context [ (of_sum (inr ?a) ≫= ?k) ?s ] =>
            rewrite (bind_Return (of_sum (inr a)) k s a s eq_refl)
        end ];
      cbv beta; rewrite ?bind_assoc
  end.

Ltac step_request E HL :=
  match goal with
  | |- context [ (request ?W ?s ?m ?u ?t ?b ≫= ?k) (?out ++ ?acc) ] =>
      let Hr := fresh "Hr" in
      let lines := fresh "lines" in
      destruct (request_run W s m u t b out acc) as (lines & Hr & HL);
      destruct (answer W m u t b) as [? | ?] eqn:E;
      [ rewrite (bind_Throw _ k _ _ _ Hr) | rewrite (bind_Return _ k _ _ _ Hr) ];
      clear Hr; cbv beta; rewrite ?bind_assoc
  end.

(** [H] says that a step name occurs in console lines that are given as
    a sequence of appended segments: in each segment either it cannot,
    or [tac] proves the goal. *)
Ltac by_steps H tac :=
  lazymatch type of H with
  | _ ∈ steps (_ ++ _) =>
      apply in_steps_app in H; destruct H as [H | H];
      [ by_steps H tac | by_steps H tac ]
  | _ ∈ steps ?lines =>
      first
        [ match goal with
          | HL : Forall _ lines |- _ =>
              exfalso; apply (steps_lines _ lines _ HL), includes_spec in H;
              vm_compute in H; discriminate H
          end
        | apply includes_spec in H; vm_compute in H;
          first [ discriminate H | clear H; solve [tac] ]
        | solve [tac] ]
  end.

Ltac facts :=
  unfold clean_tree, descends, pushed, listed, ancestor_command, push_command in *;
  eauto 10.

Ltac not_in_steps := let H := fresh in intros H; by_steps H fail.

Ltac in_steps := apply in_steps_r, includes_spec; reflexivity.

(** The end of a path: the console lines are known, each property is
    read off them. *)
Ltac leaf :=
  eexists _, _; (split; [reflexivity |]);
  (split; [let H := fresh in intros H; by_steps H ltac:(by facts) |]);
  (split; [let H := fresh in intros H; by_steps H ltac:(by facts) |]);
  (split; [let H := fresh in intros H; by_steps H fail |]);
  (split; [let H := fresh in intros H; by_steps H fail |]);
  (split; [split; [first [discriminate | intros _; in_steps]
                  | let H := fresh in intros H; by_steps H ltac:(done)] |]);
  (let H := fresh in intros H; by_steps H fail).

Ltac split_or H :=
  repeat match type of H with
    | _ ∨ _ => destruct H as [H | H]
    end.

Ltac steps_within :=
  rewrite ?Forall_app; repeat split;
  first
    [ match goal with
      | HL : Forall _ ?lines |- Forall _ ?lines =>
          let e := fresh "e" in
          let He := fresh "He" in
          apply (Forall_impl _ _ _ HL); intros e He;
          rewrite ?elem_of_cons, elem_of_nil in He; split_or He;
          first [ match type of He with False => destruct He end
                | rewrite He; apply includes_spec; reflexivity ]
      end
    | repeat (apply Forall_cons_2; [apply includes_spec; reflexivity |]);
      apply Forall_nil_2 ].

(** The end of a path of [update_or_create]. *)
Ltac leaf_update tac_update tac_create tac_accepted :=
  rewrite <- ?app_assoc;
  first [ eexists _, _; split; [reflexivity |]
        | eexists _, []; split; [by rewrite app_nil_r |] ];
  (split; [steps_within |]);
  (split; [let H := fresh in intros H; by_steps H tac_update |]);
  (split; [let H := fresh in intros H; by_steps H tac_create |]);
  first [ discriminate | intros _; tac_accepted ].

Lemma update_or_create_paths W cfg existing out acc :
  ∃ r new,
    update_or_create W cfg existing (out ++ acc) = (r, out ++ (acc ++ new))
    ∧ Forall (λ e, e_step e ∈ update_or_create_steps) new
    ∧ ("github-update-pr:request" ∈ steps new →
         is_Some (first_item existing) ∧ "github-create-pr:request" ∉ steps new)
    ∧ ("github-create-pr:request" ∈ steps new → first_item existing = None)
    ∧ (r = Return tt → accepted W cfg existing).
Proof.
  unfold update_or_create.
  destruct existing as [| b | z | str | [| pr rest] | fields]; cbv iota.
  1-5, 7:
    (step_log; (step_request E12 HL2; [leaf_update fail ltac:(done) fail |]);
     destruct j as [| b' | z' | str' | items' | fields']; cbv iota;
     [ rewrite log_run
     | rewrite log_run
     | rewrite log_run
     | rewrite log_run
     | cbn [property truthy_option]; rewrite log_run
     | cbn [property]; destruct (truthy_option _);
       [ erewrite bind_Return by reflexivity; rewrite log_run
       | rewrite log_run ] ];
     leaf_update fail ltac:(done) ltac:(unfold accepted; simpl; eauto)).
  step_sum P1; [leaf_update fail fail fail |].
  step_sum P2; [leaf_update fail fail fail |].
  step_log.
  step_sum P3; [leaf_update fail fail fail |].
  step_request E12 HL2;
    [leaf_update ltac:(split; [by eexists | not_in_steps]) fail fail |].
  rewrite log_run.
  leaf_update ltac:(split; [by eexists | not_in_steps]) fail
              ltac:(unfold accepted; simpl; injection P3 as <-; eauto).
Qed.

(** The end of a path that went through [update_or_create]. *)
Ltac leaf_after Hu Hc Hacc :=
  eexists _, _; (split; [reflexivity |]);
  (split; [let H := fresh in intros H; by_steps H ltac:(by facts) |]);
  (split; [let H := fresh in intros H; by_steps H ltac:(by facts) |]);
  (split; [let H := fresh in intros H;
           by_steps H ltac:(
             let Hpr := fresh in
             let Hnc := fresh in
             destruct (Hu H) as [[? Hpr] Hnc];
             split; [by facts |];
             eexists _, _; split;
             [facts | split; [exact Hpr
                             | let H2 := fresh in
                               intros H2; by_steps H2 ltac:(exact (Hnc H2))]]) |]);
  (split; [let H := fresh in intros H;
           by_steps H ltac:(split; [by facts |];
                            eexists; split; [facts | exact (Hc H)]) |]);
  (split; [split; [first [discriminate | intros _; in_steps]
                  | let H := fresh in intros H; by_steps H ltac:(done)] |]);
  (let H := fresh in intros H;
   by_steps H ltac:(split; [by facts |]; split; [by facts |]; split; [by facts |];
                    unfold delivered; eexists; split; [facts | by apply Hacc])).

(** Where a run of [push_and_open] can get to, read off the console. *)
Lemma push_and_open_paths W cfg out :
  ∃ r new,
    push_and_open W cfg out = (r, out ++ new)
    ∧ ("git-push-head:invoke" ∈ steps new → clean_tree W ∧ descends W cfg)
    ∧ ("github-list-pr:request" ∈ steps new → pushed W cfg)
    ∧ ("github-update-pr:request" ∈ steps new →
         pushed W cfg
         ∧ ∃ v pr, listed W cfg = inr v ∧ first_item v = Some pr
                   ∧ "github-create-pr:request" ∉ steps new)
    ∧ ("github-create-pr:request" ∈ steps new →
         pushed W cfg ∧ ∃ v, listed W cfg = inr v ∧ first_item v = None)
    ∧ (r = Return tt ↔ "complete" ∈ steps new)
    ∧ ("complete" ∈ steps new →
         clean_tree W ∧ descends W cfg ∧ pushed W cfg ∧ delivered W cfg).
Proof.
  replace (push_and_open W cfg out) with (push_and_open W cfg (out ++ []))
    by (by rewrite app_nil_r).
  unfold push_and_open.
  step_command E1; [leaf |]. step_log.
  step_command E2; [leaf |].
  destruct (negb (String.length (trim _) =? 0)%nat) eqn:Hdirty.
  { erewrite bind_Throw
      by (erewrite bind_Return by apply log_run; reflexivity).
    leaf. }
  erewrite bind_Return by reflexivity. cbv beta.
  apply negb_false_iff, length_zero in Hdirty.
  step_command E3; [leaf |]. step_log.
  step_command E4; [leaf |]. step_log.
  step_command E5; [leaf |].
  match goal with
  | |- context [ (try_catch ?m ?h ≫= ?k) (?o ++ ?acc) ] =>
      destruct (ancestor_check_run W cfg o acc) as (alines & Hr & HA);
      destruct (execSync W "git-ensure-ancestor" (ancestor_command cfg)) eqn:E6;
      [ rewrite (bind_Throw _ k _ _ _ Hr) | rewrite (bind_Return _ k _ _ _ Hr) ];
      clear Hr; cbv beta
  end.
  { leaf. }
  step_command E7; [leaf |]. step_log.
  step_command E8; [leaf |]. step_log.
  step_command E9; [leaf |]. step_log.
  step_command E10; [leaf |].
  step_request E11 HL1; [leaf |].
  match goal with
  | |- context [ (update_or_create W cfg j ≫= ?k) (out ++ ?acc) ] =>
      destruct (update_or_create_paths W cfg j out acc)
        as (r & new & Hr & HF & Hu & Hc & Hacc);
      destruct r as [[] | e];
      [ rewrite (bind_Return _ k _ _ _ Hr) | rewrite (bind_Throw _ k _ _ _ Hr) ];
      clear Hr; cbv beta
  end.
  - rewrite log_run. leaf_after Hu Hc Hacc.
  - leaf_after Hu Hc Hacc.
Qed.

(** *** The validation at the start of [main] *)

Lemma requireEnv_run env name out acc :
  (rejected env name
   ∧ ∃ e line,
       requireEnv env name (out ++ acc) = (Throw e, out ++ (acc ++ [line]))
       ∧ e_step line ∈ validation_steps)
  ∨ (¬ rejected env name
     ∧ requireEnv env name (out ++ acc)
       = (Return (trim (default "" (env !! name))),
          out ++ (acc ++ [Entry LLog "env-present" [("name", name)]]))).
Proof.
  unfold rejected, requireEnv. destruct (env !! name) as [raw |]; cbv iota beta zeta.
  2: { left. split; [done |]. eexists _, _.
       erewrite bind_Return by apply log_run. split; [reflexivity |].
       apply includes_spec. reflexivity. }
  destruct (String.length (trim raw) =? 0)%nat eqn:Hlen.
  { left. split; [left; by apply length_zero |]. eexists _, _.
    erewrite bind_Return by apply log_run. split; [reflexivity |].
    apply includes_spec. reflexivity. }
  destruct (includes placeholders (toLowerCase (trim raw))) eqn:Hinc.
  { left. split; [right; by apply placeholder_test |]. eexists _, _.
    erewrite bind_Return by apply log_run. split; [reflexivity |].
    apply includes_spec. reflexivity. }
  right. split.
  - intros [Hempty | Hph].
    + apply length_zero in Hempty. congruence.
    + apply placeholder_test in Hph. congruence.
  - by erewrite bind_Return by apply log_run.
Qed.

Ltac step_env :=
  match goal with
  | |- context [ (requireEnv ?env ?n ≫= ?k) (?out ++ ?acc) ] =>
      let Hr := fresh "Hr" in
      let Hrej := fresh "Hrej" in
      let Hl := fresh "Hl" in
      destruct (requireEnv_run env n out acc)
        as [(Hrej & ? & ? & Hr & Hl) | [Hrej Hr]];
      [ rewrite (bind_Throw _ k _ _ _ Hr); left;
        split; [exists n; split; [apply includes_spec; reflexivity | exact Hrej] |];
        eexists _, _; split; [reflexivity |];
        rewrite ?Forall_app; repeat split;
        repeat (apply Forall_cons_2 || apply Forall_nil_2);
        first [exact Hl | apply includes_spec; reflexivity]
      | rewrite (bind_Return _ k _ _ _ Hr); clear Hr; cbv beta ]
  end.

(** [main] either stops at the first refused variable, before
    [after_validation] is entered, or enters it with the trimmed values
    and the validation lines on the console. *)
Lemma main_run after argv env out :
  ((∃ name, name ∈ required_names ∧ rejected env name)
   ∧ ∃ e new,
       main after argv env out = (Throw e, out ++ new)
       ∧ Forall (λ line, e_step line ∈ validation_steps) new)
  ∨ (validated env
     ∧ main after argv env out
       = after (config_of env) (out ++ validation_lines argv)).
Proof.
  replace (main after argv env out) with (main after argv env (out ++ []))
    by (by rewrite app_nil_r).
  unfold main. step_log.
  do 9 step_env.
  right. split.
  - unfold validated, required_names. intros name.
    rewrite !elem_of_cons, elem_of_nil. intros Hin. split_or Hin; subst; tauto.
  - by rewrite (bind_Return _ _ _ _ _ (log_run _ _ _ _ _)).
Qed.

Lemma validation_lines_steps argv :
  Forall (λ line, e_step line ∈ validation_steps) (validation_lines argv).
Proof. repeat (apply Forall_cons_2; [apply includes_spec; reflexivity |]). apply Forall_nil_2. Qed.

(** The two ways the script runs: refused at the validation, or through
    [push_and_open] on the validated configuration. *)
Lemma script_cases W argv env :
  ((∃ name, name ∈ required_names ∧ rejected env name)
   ∧ ∃ e lines,
       Forall (λ line, e_step line ∈ validation_steps) lines
       ∧ script W argv env = (1%Z, lines ++ unhandled (Throw e)))
  ∨ (validated env
     ∧ ∃ r new,
         push_and_open W (config_of env) (validation_lines argv)
         = (r, validation_lines argv ++ new)
         ∧ script W argv env
           = (exit_status r, (validation_lines argv ++ new) ++ unhandled r)
         ∧ ("git-push-head:invoke" ∈ steps new →
              clean_tree W ∧ descends W (config_of env))
         ∧ ("github-list-pr:request" ∈ steps new → pushed W (config_of env))
         ∧ ("github-update-pr:request" ∈ steps new →
              pushed W (config_of env)
              ∧ ∃ v pr, listed W (config_of env) = inr v ∧ first_item v = Some pr
                        ∧ "github-create-pr:request" ∉ steps new)
         ∧ ("github-create-pr:request" ∈ steps new →
              pushed W (config_of env)
              ∧ ∃ v, listed W (config_of env) = inr v ∧ first_item v = None)
         ∧ (r = Return tt ↔ "complete" ∈ steps new)
         ∧ ("complete" ∈ steps new →
              clean_tree W ∧ descends W (config_of env)
              ∧ pushed W (config_of env) ∧ delivered W (config_of env))).
Proof.
  unfold script, run.
  destruct (main_run (push_and_open W) argv env [])
    as [(Hrej & e & new & Hr & Hall) | [Hok Hr]]; rewrite Hr.
  - left. split; [done |]. by exists e, new.
  - right. split; [done |].
    destruct (push_and_open_paths W (config_of env) (validation_lines argv))
      as (r & new & Hp & H).
    exists r, new. change ([] ++ validation_lines argv) with (validation_lines argv).
    rewrite Hp.
    split; [done |]. split; [| exact H].
    destruct r as [[] | e]; cbn [unhandled exit_status]; by rewrite ?app_nil_r.
Qed.

Lemma last_steps_snoc a line : last (steps (a ++ [line])) = Some (e_step line).
Proof. unfold steps. rewrite map_app. apply last_snoc. Qed.

(** *** What a run of the script guarantees *)

Ltac script_paths W argv env :=
  let Hs := fresh "Hs" in
  let Hvl := fresh "Hvl" in
  pose proof (validation_lines_steps argv) as Hvl;
  destruct (script_cases W argv env)
    as [(Hrej & e & lines & Hall & Hs)
       | (Hval & r & new & Hp & Hs & Hpush & Hlist & Hupd & Hcre & Hret & Hdone)];
  rewrite Hs in *; cbn [fst snd] in *;
  [| destruct r as [[] | e] ]; cbn [unhandled exit_status] in *.

(** X1. The script pushes only from a validated environment, a clean
    working tree and a HEAD that descends from the remote base branch:
    when the console shows that [git push] was invoked, every required
    variable was accepted, [git status --porcelain] printed nothing but
    white space and [git merge-base --is-ancestor] succeeded. *)
Theorem push_needs_clean_rebased_tree W argv env :
  "git-push-head:invoke" ∈ steps (script W argv env).2 →
  validated env ∧ clean_tree W ∧ descends W (config_of env).
Proof.
  intros H. script_paths W argv env.
  - by_steps H fail.
  - by_steps H ltac:(split; [done | by apply Hpush]).
  - by_steps H ltac:(split; [done | by apply Hpush]).
Qed.

Lemma push_needs_clean_rebased_tree_witness :
  "git-push-head:invoke" ∈ steps (script (obliging "[]") [] full_env).2
  ∧ validated full_env ∧ clean_tree (obliging "[]")
  ∧ descends (obliging "[]") (config_of full_env).
Proof.
  assert ("git-push-head:invoke" ∈ steps (script (obliging "[]") [] full_env).2) as H
    by (apply includes_spec; vm_compute; reflexivity).
  split; [exact H |].
  exact (push_needs_clean_rebased_tree (obliging "[]") [] full_env H).
Defined.

(** X2. No request goes to GitHub unless the push went through: each of
    the three request lines on the console implies that [git push]
    returned without error. *)
Theorem github_requests_only_after_push W argv env s :
  s ∈ request_steps → s ∈ steps (script W argv env).2 →
  pushed W (config_of env).
Proof.
  unfold request_steps. rewrite !elem_of_cons, elem_of_nil.
  intros Hs H. split_or Hs; [subst s .. | done];
    script_paths W argv env;
    first [ by_steps H fail
          | by_steps H ltac:(by apply Hlist)
          | by_steps H ltac:(by apply Hupd)
          | by_steps H ltac:(by apply Hcre) ].
Qed.

Lemma github_requests_only_after_push_witness :
  "github-create-pr:request" ∈ request_steps
  ∧ "github-create-pr:request" ∈ steps (script (obliging "[]") [] full_env).2
  ∧ pushed (obliging "[]") (config_of full_env).
Proof.
  assert ("github-create-pr:request" ∈ request_steps) as Hs
    by (apply includes_spec; reflexivity).
  assert ("github-create-pr:request"
            ∈ steps (script (obliging "[]") [] full_env).2) as H
    by (apply includes_spec; vm_compute; reflexivity).
  split; [exact Hs |]. split; [exact H |].
  exact (github_requests_only_after_push (obliging "[]") [] full_env _ Hs H).
Defined.

(** X3. The script sends the PATCH only when the list request returned a
    non-empty array, and then it never sends the POST in the same
    run. *)
Theorem update_only_for_listed_pull_request W argv env :
  "github-update-pr:request" ∈ steps (script W argv env).2 →
  ∃ v pr, listed W (config_of env) = inr v ∧ first_item v = Some pr
          ∧ "github-create-pr:request" ∉ steps (script W argv env).2.
Proof.
  intros H. script_paths W argv env.
  - by_steps H fail.
  - by_steps H ltac:(
      destruct (Hupd H) as (_ & v & pr & Hv & Hpr & Hnc);
      exists v, pr; split; [done |]; split; [done |];
      let H2 := fresh in intros H2; by_steps H2 ltac:(exact (Hnc H2))).
  - by_steps H ltac:(
      destruct (Hupd H) as (_ & v & pr & Hv & Hpr & Hnc);
      exists v, pr; split; [done |]; split; [done |];
      let H2 := fresh in intros H2; by_steps H2 ltac:(exact (Hnc H2))).
Qed.

Lemma update_only_for_listed_pull_request_witness :
  "github-update-pr:request" ∈ steps (script (obliging "[pr]") [] full_env).2
  ∧ ∃ v pr, listed (obliging "[pr]") (config_of full_env) = inr v
            ∧ first_item v = Some pr
            ∧ "github-create-pr:request"
                ∉ steps (script (obliging "[pr]") [] full_env).2.
Proof.
  assert ("github-update-pr:request"
            ∈ steps (script (obliging "[pr]") [] full_env).2) as H
    by (apply includes_spec; vm_compute; reflexivity).
  split; [exact H |].
  exact (update_only_for_listed_pull_request (obliging "[pr]") [] full_env H).
Defined.

(** X4. The script sends the POST only when the list request returned
    something other than a non-empty array (an empty array, or a value
    that is no array at all), and then it never sends the PATCH. *)
Theorem create_only_without_listed_pull_request W argv env :
  "github-create-pr:request" ∈ steps (script W argv env).2 →
  (∃ v, listed W (config_of env) = inr v ∧ first_item v = None)
  ∧ "github-update-pr:request" ∉ steps (script W argv env).2.
Proof.
  intros H. script_paths W argv env.
  - by_steps H fail.
  - by_steps H ltac:(
      split; [by apply Hcre |];
      let H2 := fresh in
      intros H2;
      by_steps H2 ltac:(destruct (Hupd H2) as (_ & ? & ? & _ & _ & Hnc); exact (Hnc H))).
  - by_steps H ltac:(
      split; [by apply Hcre |];
      let H2 := fresh in
      intros H2;
      by_steps H2 ltac:(destruct (Hupd H2) as (_ & ? & ? & _ & _ & Hnc); exact (Hnc H))).
Qed.

Lemma create_only_without_listed_pull_request_witness :
  "github-create-pr:request" ∈ steps (script (obliging "{}") [] full_env).2
  ∧ (∃ v, listed (obliging "{}") (config_of full_env) = inr v ∧ first_item v = None)
  ∧ "github-update-pr:request" ∉ steps (script (obliging "{}") [] full_env).2.
Proof.
  assert ("github-create-pr:request"
            ∈ steps (script (obliging "{}") [] full_env).2) as H
    by (apply includes_spec; vm_compute; reflexivity).
  split; [exact H |].
  exact (create_only_without_listed_pull_request (obliging "{}") [] full_env H).
Defined.

(** X5. The exit status is 0 exactly when the line [complete] was
    written; otherwise it is 1 and the last line on the console is
    [unhandled-failure]. *)
Theorem exit_status_zero_iff_complete W argv env :
  ((script W argv env).1 = 0%Z ↔ "complete" ∈ steps (script W argv env).2)
  ∧ ((script W argv env).1 = 0%Z
     ∨ (script W argv env).1 = 1%Z
       ∧ last (steps (script W argv env).2) = Some "unhandled-failure").
Proof.
  script_paths W argv env.
  - split; [split; [done | intros H; by_steps H fail] |].
    right. split; [done |]. by rewrite last_steps_snoc.
  - split; [| by left]. split; [| done]. intros _.
    rewrite !steps_app, !elem_of_app. left. right. by apply Hret.
  - split.
    + split; [done |]. intros H.
      by_steps H ltac:(apply Hret in H; discriminate H).
    + right. split; [done |]. by rewrite last_steps_snoc.
Qed.

(** X6. Exit status 0 means the whole job was done: the environment was
    validated, the tree was clean, HEAD descended from the remote base,
    the push went through, the list request was answered, and the PATCH
    of the first listed pull request (or the POST, when none was listed)
    was accepted with an ok status. *)
Theorem exit_zero_means_delivered W argv env :
  (script W argv env).1 = 0%Z →
  validated env ∧ clean_tree W ∧ descends W (config_of env)
  ∧ pushed W (config_of env) ∧ delivered W (config_of env).
Proof.
  intros H. script_paths W argv env; [done | | done].
  split; [done |]. by apply Hdone, Hret.
Qed.

Lemma exit_zero_means_delivered_witness :
  (script (obliging "[pr]") [] full_env).1 = 0%Z
  ∧ validated full_env ∧ clean_tree (obliging "[pr]")
  ∧ descends (obliging "[pr]") (config_of full_env)
  ∧ pushed (obliging "[pr]") (config_of full_env)
  ∧ delivered (obliging "[pr]") (config_of full_env).
Proof.
  assert ((script (obliging "[pr]") [] full_env).1 = 0%Z) as H
    by (vm_compute; reflexivity).
  split; [exact H |].
  exact (exit_zero_means_delivered (obliging "[pr]") [] full_env H).
Defined.

(** X7. When one of the nine required variables is refused, the script
    runs no command and sends no request: every line on the console is
    one of the validation lines or the final [unhandled-failure], and
    the exit status is 1. *)
Theorem refused_environment_runs_nothing W argv env name :
  name ∈ required_names → rejected env name →
  (script W argv env).1 = 1%Z
  ∧ ∀ s, s ∈ steps (script W argv env).2 →
         s ∈ validation_steps ∨ s = "unhandled-failure".
Proof.
  intros Hin Hrejected. script_paths W argv env.
  - split; [done |]. intros s Hin'.
    apply in_steps_app in Hin' as [Hl | Hl].
    + left. by apply (steps_lines _ lines).
    + right. unfold steps in Hl. simpl in Hl. by apply list_elem_of_singleton in Hl.
  - by destruct (Hval name).
  - by destruct (Hval name).
Qed.

Lemma refused_environment_runs_nothing_witness :
  "GITHUB_TOKEN" ∈ required_names ∧ rejected sample_env "GITHUB_TOKEN"
  ∧ (script (obliging "[]") [] sample_env).1 = 1%Z
  ∧ ∀ s, s ∈ steps (script (obliging "[]") [] sample_env).2 →
         s ∈ validation_steps ∨ s = "unhandled-failure".
Proof.
  assert ("GITHUB_TOKEN" ∈ required_names) as Hin
    by (apply includes_spec; reflexivity).
  assert (rejected sample_env "GITHUB_TOKEN") as Hrej.
  { right. exists "changeme". split; [apply includes_spec; reflexivity |].
    vm_compute. tauto. }
  split; [exact Hin |]. split; [exact Hrej |].
  exact (refused_environment_runs_nothing (obliging "[]") [] sample_env _ Hin Hrej).
Defined.

(** X8. When every required variable is accepted, [main] writes [start],
    one [env-present] line per variable in the order they are read and
    [env-validation-complete], and goes on with the trimmed values of the
    variables. *)
Theorem main_hands_on_trimmed_values after argv env out :
  validated env →
  main after argv env out = after (config_of env) (out ++ validation_lines argv).
Proof.
  intros Hval.
  destruct (main_run after argv env out)
    as [((name & Hin & Hrej) & _) | [_ Heq]]; [| done].
  by destruct (Hval name).
Qed.

Lemma not_rejected env name raw :
  env !! name = Some raw →
  (String.length (trim raw) =? 0)%nat = false →
  includes placeholders (toLowerCase (trim raw)) = false →
  ¬ rejected env name.
Proof.
  unfold rejected. intros -> Hlen Hinc [Hempty | Hph].
  - apply length_zero in Hempty. congruence.
  - apply placeholder_test in Hph. congruence.
Qed.

Lemma full_env_validated : validated full_env.
Proof.
  unfold validated, required_names. intros name.
  rewrite !elem_of_cons, elem_of_nil. intros Hin.
  split_or Hin; [subst name .. | done];
    (eapply not_rejected; [vm_compute; reflexivity | reflexivity | reflexivity]).
Qed.

Lemma main_hands_on_trimmed_values_witness :
  validated full_env
  ∧ main (λ cfg, mret tt) ["--dry"] full_env []
    = (Return tt, validation_lines ["--dry"]).
Proof.
  split; [exact full_env_validated |].
  exact (main_hands_on_trimmed_values (λ cfg, mret tt) ["--dry"] full_env []
           full_env_validated).
Defined.

(** X9. The pull request is a draft exactly when [PR_DRAFT] is set and
    its trimmed value is [true] in any mix of upper and lower case. *)
Theorem draft_exactly_when_true_up_to_case env :
  isDraft (config_of env) = true
  ↔ ∃ raw, env !! "PR_DRAFT" = Some raw ∧ eq_ignore_case (trim raw) "true".
Proof.
  unfold config_of, draftFlag. cbn [isDraft].
  rewrite bool_decide_eq_true.
  assert (all_lower "true") as Hlow by (unfold all_lower; simpl; repeat constructor).
  destruct (env !! "PR_DRAFT") as [raw |]; [| split; [done | by intros (? & ? & _)]].
  destruct (truthy_string raw) eqn:Ht.
  - split.
    + intros [= Heq]. exists raw. split; [done |].
      by apply toLowerCase_eq_ignore_case.
    + intros (raw' & [= <-] & Heq). f_equal.
      by apply toLowerCase_eq_ignore_case in Heq.
  - split; [done |]. intros (raw' & [= <-] & Heq).
    destruct raw; [| discriminate Ht]. vm_compute in Heq. tauto.
Qed.

(** *** [request] and [runCommand] on their own *)

(** X10. A response whose status is not ok makes [request] throw the
    error [GitHub API request failed: METHOD URL -> STATUS], whatever the
    body is; the error is logged twice, as [:http-error] where it is
    created and as [:failure] by the enclosing [catch]. *)
Theorem request_rejects_status_not_ok W step method url token body out resp txt :
  fetch W method url token body = inr resp →
  text resp = inr txt →
  ok resp = false →
  (request W step method url token body out).1
  = Throw (Error ("GitHub API request failed: " +:+ method +:+ " " +:+ url
                  +:+ " -> " +:+ pretty (status resp)))
  ∧ steps (request W step method url token body out).2
    = steps out ++ [step +:+ ":request"; step +:+ ":response";
                    step +:+ ":http-error"; step +:+ ":failure"].
Proof.
  intros Hf Ht Hok. unfold request, log. js_unfold.
  rewrite Hf. cbn [fst snd]. rewrite Ht. cbn [fst snd]. rewrite Hok.
  cbn [negb fst snd]. split; [done |].
  by rewrite !steps_app, <- !app_assoc.
Qed.

Lemma request_rejects_status_not_ok_witness :
  (request refusing "github-list-pr" "GET" "https://api.example.test/x" "t0ken" None []).1
  = Throw (Error "GitHub API request failed: GET https://api.example.test/x -> 404")
  ∧ steps (request refusing "github-list-pr" "GET" "https://api.example.test/x"
             "t0ken" None []).2
    = ["github-list-pr:request"; "github-list-pr:response";
       "github-list-pr:http-error"; "github-list-pr:failure"].
Proof.
  exact (request_rejects_status_not_ok refusing "github-list-pr" "GET"
           "https://api.example.test/x" "t0ken" None []
           (Response 404 false (inr "Not Found")) "Not Found"
           eq_refl eq_refl eq_refl).
Defined.

(** X11. A response with an ok status never makes [request] throw,
    whatever its body: an empty body gives [null], a body that
    [JSON.parse] refuses gives the object [{raw: body}], any other body
    gives the parsed value; two lines are written. *)
Theorem request_ok_always_returns W step method url token body out resp txt :
  fetch W method url token body = inr resp →
  text resp = inr txt →
  ok resp = true →
  ∃ value,
    (request W step method url token body out).1 = Return value
    ∧ (txt = "" → value = JNull)
    ∧ (txt ≠ "" → ∀ e, JSON_parse W txt = inl e → value = JObj [("raw", JStr txt)])
    ∧ (txt ≠ "" → ∀ parsed, JSON_parse W txt = inr parsed → value = parsed)
    ∧ steps (request W step method url token body out).2
      = steps out ++ [step +:+ ":request"; step +:+ ":response"].
Proof.
  intros Hf Ht Hok. unfold request, log. js_unfold.
  rewrite Hf. cbn [fst snd]. rewrite Ht. cbn [fst snd]. rewrite Hok.
  cbn [negb fst snd]. eexists. split; [reflexivity |].
  repeat split.
  - by intros ->.
  - intros Hne e He. destruct txt; [done |]. cbn [truthy_string]. by rewrite He.
  - intros Hne parsed Hp. destruct txt; [done |]. cbn [truthy_string]. by rewrite Hp.
  - by rewrite !steps_app, <- !app_assoc.
Qed.

Lemma request_ok_always_returns_witness :
  ∃ value,
    (request garbled "github-create-pr" "POST" "https://api.example.test/x" "t0ken"
       (Some JNull) []).1 = Return value
    ∧ ("<html>" = "" → value = JNull)
    ∧ ("<html>" ≠ "" →
       ∀ e, JSON_parse garbled "<html>" = inl e → value = JObj [("raw", JStr "<html>")])
    ∧ ("<html>" ≠ "" →
       ∀ parsed, JSON_parse garbled "<html>" = inr parsed → value = parsed)
    ∧ steps (request garbled "github-create-pr" "POST" "https://api.example.test/x"
               "t0ken" (Some JNull) []).2
      = ["github-create-pr:request"; "github-create-pr:response"].
Proof.
  exact (request_ok_always_returns garbled "github-create-pr" "POST"
           "https://api.example.test/x" "t0ken" (Some JNull) []
           (Response 200 true (inr "<html>")) "<html>"
           eq_refl eq_refl eq_refl).
Defined.

(** X12. [runCommand] hands back the output of the command as it is (the
    trimmed output only goes to the console) or rethrows the very error
    of [execSync]; either way it writes [:invoke] and then one of
    [:success] and [:failure]. *)
Theorem runCommand_returns_output_or_rethrows W step command out :
  (runCommand W step command out).1
  = match execSync W step command with
    | inr output => Return output
    | inl error => Throw error
    end
  ∧ steps (runCommand W step command out).2
    = steps out ++ [step +:+ ":invoke";
                    step +:+ match execSync W step command with
                             | inr _ => ":success"
                             | inl _ => ":failure"
                             end].
Proof.
  pose proof (runCommand_run W step command out []) as H.
  rewrite app_nil_r in H.
  destruct (execSync W step command); rewrite H; cbn [fst snd];
    (split; [done |]); by rewrite steps_app.
Qed.

(** X13. With uncommitted changes in the tree the script stops after
    [git status]: it asks for the repository root and the status, writes
    [git-status-dirty], runs no later command, sends no request and
    exits with status 1. *)
Theorem dirty_tree_stops_the_script W argv env root changes :
  validated env →
  execSync W "git-root" "git rev-parse --show-toplevel" = inr root →
  execSync W "git-status-check" "git status --porcelain" = inr changes →
  trim changes ≠ "" →
  (script W argv env).1 = 1%Z
  ∧ steps (script W argv env).2
    = steps (validation_lines argv)
      ++ ["git-root:invoke"; "git-root:success"; "git-root-confirmed";
          "git-status-check:invoke"; "git-status-check:success";
          "git-status-dirty"; "unhandled-failure"].
Proof.
  intros Hval Hroot Hstatus Hdirty. unfold script, run.
  destruct (main_run (push_and_open W) argv env [])
    as [((name & Hin & Hrej) & _) | [_ ->]]; [by destruct (Hval name) |].
  change ([] ++ validation_lines argv) with (validation_lines argv).
  replace (push_and_open W (config_of env) (validation_lines argv))
    with (push_and_open W (config_of env) (validation_lines argv ++ []))
    by (by rewrite app_nil_r).
  unfold push_and_open.
  step_command E1; [congruence |]. step_log.
  step_command E2; [congruence |].
  lazymatch type of E2 with
  | _ = inr ?output => assert (output = changes) as -> by congruence
  end.
  erewrite bind_Throw.
  2: { rewrite dirty_check_run.
       destruct (String.length (trim changes) =? 0)%nat eqn:Hlen; [| reflexivity].
       by apply length_zero in Hlen. }
  cbn [fst snd]. split; [done |].
  by rewrite !steps_app.
Qed.

Lemma dirty_tree_stops_the_script_witness :
  validated full_env
  ∧ (script dirty ["--now"] full_env).1 = 1%Z
  ∧ steps (script dirty ["--now"] full_env).2
    = steps (validation_lines ["--now"])
      ++ ["git-root:invoke"; "git-root:success"; "git-root-confirmed";
          "git-status-check:invoke"; "git-status-check:success";
          "git-status-dirty"; "unhandled-failure"].
Proof.
  split; [exact full_env_validated |].
  apply (dirty_tree_stops_the_script dirty ["--now"] full_env "ok" " M README.md
" full_env_validated eq_refl eq_refl).
  vm_compute. discriminate.
Defined.

End CreatePrMainFacts.

(** ** lib/session-recorder.ts: playback, teardown and overlapping sessions *)

Module SessionFacts.
Import JsFacts MediaRecorder Recorder RecorderFacts Sessions.

Global Instance same_mimeType_preorder : PreOrder same_mimeType.
Proof. split; repeat intros ?; unfold same_mimeType in *; congruence. Qed.

Lemma same_mimeType_stable : stable same_mimeType.
Proof. split; intros; unfold same_mimeType; by world_simpl. Qed.

Lemma step_same_mimeType a w :
  (∀ P, a ≠ Start P) → mimeType (this (step a w)) = mimeType (this w).
Proof.
  intros Hns. apply (respects_step same_mimeType same_mimeType_stable); [| done].
  intros. unfold same_mimeType. by world_simpl.
Qed.

(** X14. Only [start] changes the recording format of an instance:
    through any sequence of [stop], [cancel], playback and browser
    events, teardown included, [mimeType] stays what the last [start]
    negotiated. *)
Theorem format_changes_only_in_start acts w :
  Forall (λ a, ∀ P, a ≠ Start P) acts →
  mimeType (this (run acts w)) = mimeType (this w).
Proof.
  intros Hall. revert w.
  induction Hall as [| a acts Ha _ IH]; intros w; [done |].
  simpl. change (foldl (λ w a, step a w) (step a w) acts) with (run acts (step a w)).
  rewrite IH. by apply step_same_mimeType.
Qed.

Lemma format_changes_only_in_start_witness :
  Forall (λ a, ∀ P, a ≠ Start P)
    [Stop speaker; DataAvailable 4 (Some chunk_b); StopEvent speaker 4; Cancel denied]
  ∧ mimeType (this (run [Stop speaker; DataAvailable 4 (Some chunk_b);
                         StopEvent speaker 4; Cancel denied] recording_world))
    = mimeType (this recording_world).
Proof.
  assert (Forall (λ a, ∀ P, a ≠ Start P)
            [Stop speaker; DataAvailable 4 (Some chunk_b); StopEvent speaker 4;
             Cancel denied]) as H
    by (repeat constructor; discriminate).
  split; [exact H |].
  exact (format_changes_only_in_start _ recording_world H).
Defined.

(** X15. [stop] rejects in one case only: when the instance holds no
    encoder. With an encoder it always settles or waits, whatever the
    platform does. *)
Theorem stop_rejects_only_without_encoder P w :
  (∃ e, (stop P w).1 = Throw e) ↔ recorder (this w) = None.
Proof.
  split.
  - intros [e He]. destruct (recorder (this w)) as [rec |] eqn:Hrec; [exfalso | done].
    revert He. unfold stop. js_unfold. rewrite Hrec.
    destruct (bool_decide (state_of w rec = inactive)); [discriminate |].
    unfold_primitives. js_unfold.
    destruct (recorder_stop P); world_simpl; [| discriminate].
    match goal with
    | |- context [cleanup P ?W] =>
        destruct (cleanup_run P W) as (w' & j & Heq & _)
    end.
    rewrite Heq. world_simpl. discriminate.
  - intros Hrec. eexists. unfold stop. js_unfold. by rewrite Hrec.
Qed.

(** X16. When the encoder refuses the stop request, [stop] settles at
    once with an empty blob of the negotiated type and duration 0,
    releases the instance, and a [stop] event that arrives later for
    that encoder delivers no second result. *)
Theorem stop_request_failure_settles_empty P w rec r e :
  recorder (this w) = Some rec → recorders (page w) !! rec = Some r →
  state r ≠ inactive → recorder_stop P = Some e →
  ∃ w1,
    stop P w
    = (Return (Resolved (SessionRecordingResult.mk
                           (Blob.mk [] (mimeType (this w))) (mimeType (this w)) 0)),
       w1)
    ∧ released (this w1)
    ∧ ∀ P', (fire_stop P' rec w1).1 = Return None.
Proof.
  intros Hrec Hlook Hstate Hstop. unfold stop. js_unfold. rewrite Hrec.
  unfold state_of. rewrite Hlook. rewrite bool_decide_eq_false_2 by done.
  unfold_primitives. js_unfold. rewrite Hstop. world_simpl.
  match goal with
  | |- context [cleanup P ?W] =>
      destruct (cleanup_run P W) as (w' & j & Heq & Hthis & _ & Hrecs & _)
  end.
  rewrite Heq. world_simpl. eexists. split; [| split].
  - unfold empty_result, Blob.make. rewrite Hthis. reflexivity.
  - world_simpl. rewrite Hthis. by repeat split.
  - intros P'. unfold fire_stop, onstop_handler. js_unfold. world_simpl.
    rewrite Hrecs. world_simpl. rewrite lookup_alter_eq, lookup_alter_eq, Hlook.
    simpl.
    match goal with
    | |- context [cleanup P' ?W] =>
        destruct (cleanup_run P' W) as (w'' & j' & Heq' & _)
    end.
    rewrite Heq'. reflexivity.
Qed.

Lemma stop_request_failure_settles_empty_witness :
  ∃ w1,
    stop throwing_teardown world_with_chunks
    = (Return (Resolved (SessionRecordingResult.mk
                           (Blob.mk [] (mimeType (this world_with_chunks)))
                           (mimeType (this world_with_chunks)) 0)),
       w1)
    ∧ released (this w1)
    ∧ ∀ P', (fire_stop P' 4 w1).1 = Return None.
Proof.
  apply (stop_request_failure_settles_empty throwing_teardown world_with_chunks 4
           (MediaRecorder.mk recording "audio/ogg" true None)
           (ErrorObj "InvalidStateError" "not recording"));
    first [ vm_compute; reflexivity | discriminate ].
Defined.

(** *** The [stop] event *)





(** What [stop] leaves behind when it waits for the encoder. *)
Lemma stop_recording_world P w rec r :
  recorder (this w) = Some rec → recorders (page w) !! rec = Some r →
  state r ≠ inactive → recorder_stop P = None →
  ∃ w1, stop P w = (Return (Pending rec), w1)
        ∧ this w1 = this w
        ∧ hasWindow (page w1) = hasWindow (page w)
        ∧ nextHandle (page w1) = nextHandle (page w)
        ∧ recorders (page w1) !! rec
          = Some (MediaRecorder.mk inactive (MediaRecorder.mimeType r)
                    (ondataavailable r) (Some false)).
Proof.
  intros Hrec Hlook Hstate Hstop. unfold stop. js_unfold. rewrite Hrec.
  unfold state_of. rewrite Hlook. rewrite bool_decide_eq_false_2 by done.
  unfold_primitives. js_unfold. rewrite Hstop. world_simpl.
  eexists. split; [reflexivity |]. world_simpl. repeat (split; [done |]).
  by rewrite !lookup_alter_eq, Hlook.
Qed.




(** The sample: started at 1500, stopped at 3500.5, the duration is
    2001. *)
Lemma stop_event_duration_sample :
  SessionRecordingResult.durationMs
    <$> (match (fire_stop speaker 4 stopping_world).1 with
         | Return (Some result) => Some result
         | _ => None
         end)
  = Some 2001%Z.
Proof. vm_compute. reflexivity. Qed.

(** X18. A [cancel] between [stop()] and the encoder's [stop] event
    discards the chunks collected until then, but neither the waiting
    [stop] nor the data handler: what the encoder delivers after the
    [cancel] is collected, and the waiting [stop] receives exactly
    that, in the order of arrival, with duration 0. *)
Theorem cancel_while_stopping_drops_earlier_chunks P P' P'' w rec r ds0 ds :
  recorder (this w) = Some rec → recorders (page w) !! rec = Some r →
  state r ≠ inactive → ondataavailable r = true → recorder_stop P = None →
  let w1 := run (map (DataAvailable rec) ds0) (stop P w).2 in
  let w2 := run (map (DataAvailable rec) ds) (cancel P' w1).2 in
  (stop P w).1 = Return (Pending rec)
  ∧ (fire_stop P'' rec w2).1
    = Return (Some (SessionRecordingResult.mk
                      (Blob.make (concat (map kept ds)) (mimeType (this w)))
                      (mimeType (this w)) 0)).
Proof.
  intros Hrec Hlook Hstate Hon Hstop.
  destruct (stop_recording_world P w rec r Hrec Hlook Hstate Hstop)
    as (w1 & Heq & Hthis1 & _ & _ & Hlook1).
  rewrite Heq. cbn [fst snd]. cbv zeta. split; [done |].
  rewrite (deliver_run rec ds0 w1 _ Hlook1 Hon).
  set (w1' := push_chunks (concat (map kept ds0)) w1).
  assert (recorders (page w1') = recorders (page w1)) as Hrecs1 by done.
  assert (mimeType (this w1') = mimeType (this w)) as Hmime1
    by (unfold w1', push_chunks; world_simpl; by rewrite Hthis1).
  assert (cancel P' w1' = cleanup P' w1') as ->.
  { unfold cancel. js_unfold.
    assert (recorder (this w1') = Some rec) as ->
      by (unfold w1', push_chunks; world_simpl; by rewrite Hthis1).
    unfold state_of. rewrite Hrecs1, Hlook1.
    cbn [MediaRecorder.state]. by rewrite bool_decide_eq_false_2 by (by intros []). }
  destruct (cleanup_run P' w1') as (w2 & j & Heq2 & Hthis2 & _ & Hrecs2 & _).
  rewrite Heq2. cbn [fst snd].
  assert (recorders (page w2) !! rec
          = Some (MediaRecorder.mk inactive (MediaRecorder.mimeType r)
                    (ondataavailable r) (Some false))) as Hlook2
    by (by rewrite Hrecs2, Hrecs1).
  rewrite (deliver_run rec ds w2 _ Hlook2 Hon).
  destruct (fire_stop_pending P'' rec (push_chunks (concat (map kept ds)) w2) _
              Hlook2 eq_refl) as (w3 & Heq3 & _).
  rewrite Heq3. cbn [fst]. unfold push_chunks. world_simpl.
  rewrite Hthis2. world_simpl. by rewrite Hmime1.
Qed.

Lemma cancel_while_stopping_drops_earlier_chunks_witness :
  let w1 := run (map (DataAvailable 4) [None]) (stop speaker recording_world).2 in
  let w2 := run (map (DataAvailable 4) [Some chunk_a; Some chunk_b])
              (cancel speaker w1).2 in
  (stop speaker recording_world).1 = Return (Pending 4)
  ∧ (fire_stop speaker 4 w2).1
    = Return (Some (SessionRecordingResult.mk
                      (Blob.make (concat (map kept [Some chunk_a; Some chunk_b]))
                         (mimeType (this recording_world)))
                      (mimeType (this recording_world)) 0)).
Proof.
  apply (cancel_while_stopping_drops_earlier_chunks speaker speaker speaker
           recording_world 4 (MediaRecorder.mk recording "audio/ogg" true None)
           [None] [Some chunk_a; Some chunk_b]);
    first [ vm_compute; reflexivity | discriminate ].
Defined.

(** *** A second [start] over a session that was not torn down *)

(** Teardown only ever stops the stream and closes the context the
    instance holds. *)
Lemma cleanup_only_held P w x :
  (x ∈ liveStreams (page w) → micStream (this w) ≠ Some x →
     x ∈ liveStreams (page (cleanup P w).2))
  ∧ (x ∈ openContexts (page w) → audioCtx (this w) ≠ Some x →
       x ∈ openContexts (page (cleanup P w).2)).
Proof.
  destruct w as [[ac de ms so re ch mi st] [hw ls oc rs nh j]].
  unfold cleanup. unfold_primitives. js_unfold.
  destruct so as [so |], de as [de |], ms as [ms |], ac as [ac |];
    destruct (disconnect P), (stopTracks P), (close P); world_simpl;
    (split; intros Hin Hne; [| try done]; try done);
    apply elem_of_difference; (split; [done |]);
    rewrite elem_of_singleton; congruence.
Qed.

Lemma cancel_only_held P w x :
  (x ∈ liveStreams (page w) → micStream (this w) ≠ Some x →
     x ∈ liveStreams (page (cancel P w).2))
  ∧ (x ∈ openContexts (page w) → audioCtx (this w) ≠ Some x →
       x ∈ openContexts (page (cancel P w).2)).
Proof.
  unfold cancel. js_unfold.
  destruct (recorder (this w)) as [rec |]; [| apply cleanup_only_held].
  destruct (bool_decide (state_of w rec ≠ inactive)); [| apply cleanup_only_held].
  unfold_primitives. js_unfold.
  destruct (recorder_stop P); world_simpl;
    match goal with
    | |- context [cleanup P ?W] => apply (cleanup_only_held P W x)
    end.
Qed.

(** X19. [start] on an instance whose encoder is no longer recording but
    whose session was never torn down (the encoder stopped on its own, or
    [stop()] is still waiting) acquires a new stream and context and
    overwrites the fields without releasing the old ones: the old
    microphone stream stays live and the old context open, the instance
    no longer refers to them, and no later [cancel] releases them. *)
Theorem restart_leaks_previous_session P w s c :
  hasWindow (page w) = true → already_recording w = false → encoder_granted P →
  micStream (this w) = Some s → s ∈ liveStreams (page w) →
  audioCtx (this w) = Some c → c ∈ openContexts (page w) →
  s ≠ nextHandle (page w) → c ≠ 1 + nextHandle (page w) →
  ∃ w', start P w = (Return tt, w')
        ∧ s ∈ liveStreams (page w') ∧ micStream (this w') ≠ Some s
        ∧ c ∈ openContexts (page w') ∧ audioCtx (this w') ≠ Some c
        ∧ ∀ P', s ∈ liveStreams (page (cancel P' w').2)
                ∧ c ∈ openContexts (page (cancel P' w').2).
Proof.
  intros Hw Hr HP Hs Hlive Hc Hopen Hns Hnc.
  destruct (start_granted_run P w Hw Hr HP)
    as (w' & j & attr & Hrun & _ & Hthis & _ & Hls & Hoc & _).
  assert (s ∈ liveStreams (page w')) as Hlive'
    by (rewrite Hls; apply elem_of_union; by right).
  assert (c ∈ openContexts (page w')) as Hopen'
    by (rewrite Hoc; apply elem_of_union; by right).
  assert (micStream (this w') ≠ Some s) as Hms
    by (rewrite Hthis; intros [= Heq]; by apply Hns).
  assert (audioCtx (this w') ≠ Some c) as Hac
    by (rewrite Hthis; intros [= Heq]; by apply Hnc).
  exists w'. repeat (split; [done |]).
  intros P'. split.
  - by apply cancel_only_held.
  - by apply cancel_only_held.
Qed.

Lemma restart_leaks_previous_session_witness :
  ∃ w', start speaker halted_world = (Return tt, w')
        ∧ 0 ∈ liveStreams (page w') ∧ micStream (this w') ≠ Some 0
        ∧ 1 ∈ openContexts (page w') ∧ audioCtx (this w') ≠ Some 1
        ∧ ∀ P', 0 ∈ liveStreams (page (cancel P' w').2)
                ∧ 1 ∈ openContexts (page (cancel P' w').2).
Proof.
  apply (restart_leaks_previous_session speaker halted_world 0 1);
    first [ vm_compute; reflexivity
          | repeat split; try reflexivity; by eexists
          | apply bool_decide_unpack; vm_compute; exact I
          | vm_compute; discriminate ].
Defined.




(** *** Playback *)



(** X22. Playback never touches the recording: whatever the payload and
    whatever the platform does, [playAssistantBase64] leaves every field
    of the instance, the live streams, the open contexts and the encoder
    objects as they were. *)
Theorem play_leaves_recording_alone P base64 w :
  let w' := (playAssistantBase64 P base64 w).2 in
  this w' = this w
  ∧ liveStreams (page w') = liveStreams (page w)
  ∧ openContexts (page w') = openContexts (page w)
  ∧ recorders (page w') = recorders (page w).
Proof.
  destruct w as [[ac de ms so re ch mi st] [hw ls oc rs nh j]].
  unfold playAssistantBase64, base64ToArrayBuffer, playAudioBuffer.
  unfold_primitives. js_unfold. world_simpl.
  destruct ac as [ac |], de as [de |]; world_simpl; try done.
  destruct (resume P); world_simpl; [done |].
  destruct (atob P) as [decode |]; world_simpl; [| done].
  destruct (decode base64) as [e | binary]; world_simpl; [done |].
  destruct (decodeAudioData P _) as [e | duration]; world_simpl; [done |].
  destruct (createBufferSource P); world_simpl; [done |].
  destruct (source_connect P); world_simpl; [done |].
  destruct (source_start P); world_simpl; done.
Qed.

(** X23. Where [atob] is not defined, playback on a started instance
    fails with [Base64 decoding unavailable in this environment] after
    resuming the context: nothing is decoded and no source is made. *)
Theorem play_without_atob_fails P base64 w ctx dest :
  audioCtx (this w) = Some ctx → destination (this w) = Some dest →
  resume P = None → atob P = None →
  ∃ w',
    playAssistantBase64 P base64 w
    = (Throw (Error "Base64 decoding unavailable in this environment"), w')
    ∧ calls_since w w' [Resume ctx]
    ∧ console_since w w' ["play:decoding-audio"; "decode:missing-atob"].
Proof.
  intros Hctx Hdest Hres Hatob.
  destruct w as [[ac de ms so re ch mi st] [hw ls oc rs nh j]].
  simpl in Hctx, Hdest. subst ac de.
  unfold playAssistantBase64, base64ToArrayBuffer, calls_since, console_since.
  unfold_primitives. js_unfold. world_simpl.
  rewrite Hres, Hatob. world_simpl.
  eexists. split; [reflexivity |]. world_simpl.
  unfold console_of. rewrite !calls_of_app, !omap_app. simpl.
  by rewrite <- !app_assoc.
Qed.

Lemma play_without_atob_fails_witness :
  ∃ w',
    playAssistantBase64 throwing_teardown "UklG" recording_world
    = (Throw (Error "Base64 decoding unavailable in this environment"), w')
    ∧ calls_since recording_world w' [Resume 1]
    ∧ console_since recording_world w' ["play:decoding-audio"; "decode:missing-atob"].
Proof.
  exact (play_without_atob_fails throwing_teardown "UklG" recording_world 1 2
           eq_refl eq_refl eq_refl eq_refl).
Defined.

(** *** Teardown *)

(** X24. [cancel] on an instance that holds nothing (new, or already
    released) calls nothing on the platform: all it does is write
    [cleanup:begin]. In particular a second [cancel] is harmless. *)
Theorem cancel_released_is_quiet P w :
  released (this w) →
  cancel P w = (Return tt, journal_add [Console (Entry LLog "cleanup:begin" [])] w).
Proof.
  destruct w as [[ac de ms so re ch mi st] [hw ls oc rs nh j]].
  intros (Hac & Hde & Hms & Hso & Hre & Hch & Hst). simpl in *. subst.
  unfold cancel, cleanup. unfold_primitives. js_unfold. world_simpl.
  reflexivity.
Qed.

Lemma cancel_released_is_quiet_witness :
  released (this (cancel speaker recording_world).2)
  ∧ cancel throwing_teardown (cancel speaker recording_world).2
    = (Return tt,
       journal_add [Console (Entry LLog "cleanup:begin" [])]
         (cancel speaker recording_world).2).
Proof.
  assert (released (this (cancel speaker recording_world).2)) as H
    by (vm_compute; done).
  split; [exact H |].
  exact (cancel_released_is_quiet throwing_teardown _ H).
Defined.

(** X25. Teardown attempts every step whatever fails: on an instance
    that holds a source, a destination, a stream and a context,
    [cleanup] calls [disconnect], stops the tracks and closes the
    context, in this order and each exactly once, on every platform, and
    returns normally with the instance released. *)
Theorem cleanup_attempts_every_step P w source dest stream ctx :
  micSource (this w) = Some source → destination (this w) = Some dest →
  micStream (this w) = Some stream → audioCtx (this w) = Some ctx →
  ∃ w', cleanup P w = (Return tt, w')
        ∧ released (this w')
        ∧ calls_since w w' [Disconnect source dest; StopTracks stream; Close ctx].
Proof.
  destruct w as [[ac de ms so re ch mi st] [hw ls oc rs nh j]].
  intros Hso Hde Hms Hac. simpl in *. subst.
  unfold cleanup, calls_since. unfold_primitives. js_unfold. world_simpl.
  destruct (disconnect P), (stopTracks P), (close P); world_simpl;
    (eexists; split; [reflexivity |]; world_simpl; split; [by repeat split |]);
    rewrite !calls_of_app; simpl; by rewrite <- !app_assoc.
Qed.

Lemma cleanup_attempts_every_step_witness :
  ∃ w', cleanup throwing_teardown recording_world = (Return tt, w')
        ∧ released (this w')
        ∧ calls_since recording_world w' [Disconnect 3 2; StopTracks 0; Close 1].
Proof.
  exact (cleanup_attempts_every_step throwing_teardown recording_world 3 2 0 1
           eq_refl eq_refl eq_refl eq_refl).
Defined.

(** X26. When the microphone is refused on an instance that holds
    nothing, [start] makes that one platform call and no other, writes
    [start:requesting-user-media], [start:failed] and [cleanup:begin],
    and rethrows the browser's error if it is an [Error], a generic one
    otherwise. Nothing is acquired. *)
Theorem start_refused_microphone P w e :
  hasWindow (page w) = true → released (this w) → getUserMedia P = Some e →
  start P w
  = (Throw (rethrown e),
     journal_add
       [Console (Entry LLog "start:requesting-user-media" []);
        Platform_call GetUserMedia;
        Console (Entry LError "start:failed" (formatRecorderError e));
        Console (Entry LLog "cleanup:begin" [])] w).
Proof.
  destruct w as [[ac de ms so re ch mi st] [hw ls oc rs nh j]].
  intros Hw (Hac & Hde & Hms & Hso & Hre & Hch & Hst) Hget. simpl in *. subst.
  unfold start, already_recording, cleanup, do_getUserMedia, rethrown.
  unfold_primitives. js_unfold. world_simpl. rewrite Hget.
  unfold journal_add, set_this, set_page, with_journal. simpl.
  by rewrite <- !app_assoc.
Qed.

Lemma start_refused_microphone_witness :
  start denied (createSessionRecorder true)
  = (Throw (ErrorObj "NotAllowedError" "Permission denied"),
     journal_add
       [Console (Entry LLog "start:requesting-user-media" []);
        Platform_call GetUserMedia;
        Console (Entry LError "start:failed"
                   [("message", "Permission denied"); ("name", "NotAllowedError")]);
        Console (Entry LLog "cleanup:begin" [])] (createSessionRecorder true)).
Proof.
  apply (start_refused_microphone denied (createSessionRecorder true)
           (ErrorObj "NotAllowedError" "Permission denied"));
    first [ reflexivity | by repeat split ].
Defined.

End SessionFacts.

(** ** lib/audio-bridge.ts: which module is used and what is passed on *)

Module BridgeFacts.
Import JsFacts AudioBridge AudioBridgeFacts Helpers.

Section Bridge.
Context {Args : Type} (import : string → thrown + legacy Args).

(** X27. When the helper module resolves and has the function, each
    entry point passes its argument to that function and hands back
    what it returns or throws, unchanged; [calibrateRMS] without an
    argument asks for 2 seconds. *)
Theorem bridge_forwards_to_helper module seconds args blob out :
  resolves_to import module →
  (∀ f, m_calibrateRMS module = Function f →
        (calibrateRMS import seconds out).1 = awaited (f (default 2%Q seconds)))
  ∧ (∀ f, m_recordUntilSilence module = Function f →
          (recordUntilSilence import args out).1 = awaited (f args))
  ∧ (∀ f, m_blobToBase64 module = Function f →
          (blobToBase64 import blob out).1 = awaited (f blob)).
Proof.
  intros Hres. destruct (getModule_resolves import module out Hres) as (out' & Heq).
  unfold calibrateRMS, recordUntilSilence, blobToBase64.
  rewrite !(bind_Return _ _ _ _ _ Heq).
  repeat split; intros f ->; js_unfold; by destruct (f _).
Qed.

(** X28. The first location that resolves wins: when
    [../src/lib/audio.js] can be imported, [getModule] returns that
    module after two console lines and the second location is never
    attempted, whatever it would resolve to. *)
Theorem getModule_first_location_wins module out :
  import "../src/lib/audio.js" = inr module →
  getModule import out
  = (Return module,
     out ++ [Entry LLog "attempt-import" [("candidate", "../src/lib/audio.js")];
             Entry LLog "import-success" [("candidate", "../src/lib/audio.js")]]).
Proof.
  intros Himp. unfold getModule, candidates, import_loop, logAudioBridgeDiagnostic.
  js_unfold. rewrite Himp. by rewrite <- app_assoc.
Qed.

(** X29. When both locations fail, [getModule] has tried them in the
    order of the list, and the error it throws carries the fixed
    message: the cause survives only on the console, where
    [import-exhausted] reports the message of the last failure or
    [__unknown__] if that was no [Error]. *)
Theorem getModule_reports_last_failure e1 e2 out :
  import "../src/lib/audio.js" = inl e1 →
  import "../src/lib/audio" = inl e2 →
  getModule import out
  = (Throw (Error errorMessage),
     out ++ [Entry LLog "attempt-import" [("candidate", "../src/lib/audio.js")];
             Entry LError "import-failed"
               [("candidate", "../src/lib/audio.js"); ("error", message_of (Some e1))];
             Entry LLog "attempt-import" [("candidate", "../src/lib/audio")];
             Entry LError "import-failed"
               [("candidate", "../src/lib/audio"); ("error", message_of (Some e2))];
             Entry LError "import-exhausted" [("error", message_of (Some e2))]]).
Proof.
  intros H1 H2. unfold getModule, candidates, import_loop, logAudioBridgeDiagnostic.
  js_unfold. rewrite H1, H2. by rewrite <- !app_assoc.
Qed.
End Bridge.

Lemma second_only_resolves : resolves_to second_only full_module.
Proof.
  exists ["../src/lib/audio.js"], "../src/lib/audio", [].
  split; [done |]. split; [| done].
  intros b Hb. apply list_elem_of_singleton in Hb as ->. by eexists.
Qed.

Lemma bridge_forwards_to_helper_witness :
  (calibrateRMS second_only None []).1 = Return (2 / 10)%Q
  ∧ (recordUntilSilence second_only 7 []).1 = Throw (Error "Microphone busy")
  ∧ (blobToBase64 second_only (Blob.mk [] "audio/ogg") []).1 = Return "UklG".
Proof.
  destruct (bridge_forwards_to_helper second_only full_module None 7
              (Blob.mk [] "audio/ogg") [] second_only_resolves)
    as (Hc & Hr & Hb).
  split; [exact (Hc _ eq_refl) |]. split; [exact (Hr _ eq_refl) | exact (Hb _ eq_refl)].
Defined.

Lemma getModule_first_location_wins_witness :
  getModule both []
  = (Return full_module,
     [Entry LLog "attempt-import" [("candidate", "../src/lib/audio.js")];
      Entry LLog "import-success" [("candidate", "../src/lib/audio.js")]]).
Proof. exact (getModule_first_location_wins both full_module [] eq_refl). Defined.

Lemma getModule_reports_last_failure_witness :
  getModule neither []
  = (Throw (Error errorMessage),
     [Entry LLog "attempt-import" [("candidate", "../src/lib/audio.js")];
      Entry LError "import-failed"
        [("candidate", "../src/lib/audio.js");
         ("error", "Cannot find module ../src/lib/audio.js")];
      Entry LLog "attempt-import" [("candidate", "../src/lib/audio")];
      Entry LError "import-failed"
        [("candidate", "../src/lib/audio"); ("error", "__unknown__")];
      Entry LError "import-exhausted" [("error", "__unknown__")]]).
Proof.
  exact (getModule_reports_last_failure neither
           (Error "Cannot find module ../src/lib/audio.js") (NonError "42") []
           eq_refl eq_refl).
Defined.

End BridgeFacts.
